(** * CRPjs: collapsed Gibbs sampling for a Chinese-restaurant-process
    mixture model of documents

    A shallow embedding of [chinese_restaurant_no_log.js].  That source holds
    two modules: the linear-probability sampler ([sample_table], [sample],
    [prob_of_table], [prob_of_words_given_table]) and the log-probability
    sampler ([initialize_state], [sample_table], [log_sample],
    [log_prob_table], [log_prob_words_given_table]); both carry the same
    [remove_doc] and [add_doc].

    Modelling conventions.
    - A JS object used as a map is the [gmap] of its own properties.  The
      objects of the state are created as [{}] and the corpus is taken to be
      a plain object as well, so all of them inherit from [Object.prototype],
      and three things follow that a map does not do.  Reading a key that is
      not an own property finds the inherited property of that name, if
      there is one ([corpus_get]).  Assigning a number to the key
      ["__proto__"] calls the inherited setter, which ignores it: no property
      is created ([js_set]).  And [obj.hasOwnProperty(key)] first looks
      [hasOwnProperty] up in [obj]: once [obj] has an own property of that
      name (a word, a document) the call throws a TypeError ([js_has_own]).
    - Table identifiers come from the counter [nextID], so they are [N]; a
      [for .. in] loop over an object with such keys visits them in ascending
      numeric order ([js_entries]; this is the order of the keys below
      2^32 - 1, which a counter that starts at 0 stays under).  Objects with
      these keys never get an own property named [hasOwnProperty].
    - The corpus is the list of its own entries in enumeration order; its
      keys are distinct, which the results that need it assume ([NoDup]).
    - The integer counters ([num_docs], [total_docs], [W]) are [Z]: a double
      is exact on the integers up to 2^53.  A word count and [num_words] can
      also be NaN (decrementing an absent entry, adding an undefined length).
    - Probabilities, [alpha], [beta] and the draw of [Math.random] are values of
      an abstract number type with the operations of the class [Number]; the
      theorems that do not say otherwise hold for every interpretation of it.
    - A function that mutates the state returns an [outcome]: the state it
      leaves, tagged with whether it returned or threw a [TypeError]. *)

From Stdlib Require Import ZArith String Ascii List Reals Lra Lia.
From stdpp Require Import base option gmap strings list fin_maps sorting pretty.

Open Scope Z_scope.

(** ** JS numbers *)

Class Number (num : Type) := {
  of_Z : Z → num;            (* an integer-valued number *)
  nadd : num → num → num;    (* a + b *)
  nsub : num → num → num;    (* a - b *)
  nmul : num → num → num;    (* a * b *)
  ndiv : num → num → num;    (* a / b *)
  nlt : num → num → bool;    (* a < b *)
  nlog : num → num;          (* Math.log *)
  nexp : num → num;          (* Math.exp *)
  render : num → string      (* Number::toString, which Array.prototype.sort uses *)
}.

(** A counter that can turn into NaN: a word count as stored in
    [word_counts], or [num_words]. *)
Inductive count := Cnt (z : Z) | NaN.

Global Instance count_eq_dec : EqDecision count.
Proof. solve_decision. Defined.

(** [c++] and [c--] on a stored count, and on an absent one: [undefined], or
    an inherited property, neither of which converts to a number. *)
Definition count_incr (c : count) : count :=
  match c with Cnt z => Cnt (z + 1) | NaN => NaN end.
Definition count_decr (c : option count) : count :=
  match c with Some (Cnt z) => Cnt (z - 1) | _ => NaN end.

(** [c += length] and [c -= length]; the length is [None] when it is
    [undefined], and the result is then NaN. *)
Definition count_add (c : count) (length : option nat) : count :=
  match c, length with
  | Cnt z, Some n => Cnt (z + Z.of_nat n)
  | _, _ => NaN
  end.
Definition count_sub (c : count) (length : option nat) : count :=
  match c, length with
  | Cnt z, Some n => Cnt (z - Z.of_nat n)
  | _, _ => NaN
  end.

(** The number a count denotes; NaN is the double that [0 / 0] yields. *)
Definition of_count {num} {ops : Number num} (c : count) : num :=
  match c with Cnt z => of_Z z | NaN => ndiv (of_Z 0) (of_Z 0) end.

(** ** JS objects *)

(** [obj[key] = value], for a number [value].  On an object without an own
    property ["__proto__"] that key reaches the setter inherited from
    [Object.prototype], which ignores a value that is no object. *)
Definition js_set {V} (key : string) (value : V) (obj : gmap string V) : gmap string V :=
  if decide (key = "__proto__"%string ∧ obj !! key = None) then obj
  else <[key := value]> obj.

(** [obj.hasOwnProperty(key)].  The method is looked up in [obj] first: an own
    property named [hasOwnProperty] holds a number, and calling it throws a
    TypeError ([None]). *)
Definition js_has_own {V} (obj : gmap string V) (key : string) : option bool :=
  match obj !! "hasOwnProperty"%string with
  | Some _ => None
  | None => Some (bool_decide (is_Some (obj !! key)))
  end.

(** The functions every object inherits from [Object.prototype], each with
    its [length]. *)
Definition object_prototype_functions : list (string * nat) :=
  [("constructor", 1); ("hasOwnProperty", 1); ("isPrototypeOf", 1);
   ("propertyIsEnumerable", 1); ("toLocaleString", 0); ("toString", 0);
   ("valueOf", 0); ("__defineGetter__", 2); ("__defineSetter__", 2);
   ("__lookupGetter__", 1); ("__lookupSetter__", 1)]%string%nat.

Fixpoint function_length (fs : list (string * nat)) (name : string) : option nat :=
  match fs with
  | [] => None
  | (f, n) :: fs' => if decide (f = name) then Some n else function_length fs' name
  end.

(** The names a [{}] inherits: the functions, and the accessor ["__proto__"]. *)
Definition inherited_name (key : string) : Prop :=
  key = "__proto__"%string ∨ is_Some (function_length object_prototype_functions key).

Global Instance inherited_name_dec key : Decision (inherited_name key).
Proof. unfold inherited_name. apply _. Defined.

(** ** Data model *)

Record table := Table {
  num_docs : Z;
  num_words : count;
  word_counts : gmap string count
}.

Record state (num : Type) := State {
  assignments : gmap string N;
  tables : gmap N table;
  total_docs : Z;
  nextID : N;
  W : Z;
  alpha : num;
  beta : num;
  vocab : gmap string Z
}.
Arguments State {num}.
Arguments assignments {num}.
Arguments tables {num}.
Arguments total_docs {num}.
Arguments nextID {num}.
Arguments W {num}.
Arguments alpha {num}.
Arguments beta {num}.
Arguments vocab {num}.

(** The corpus [{docID: [word, ...], ...}]: its own entries, in enumeration
    order. *)
Definition corpus := list (string * list string).

(** The own entry of [docID]. *)
Fixpoint corpus_own (c : corpus) (docID : string) : option (list string) :=
  match c with
  | [] => None
  | (d, ws) :: c' => if decide (d = docID) then Some ws else corpus_own c' docID
  end.

(** What [var words = corpus[docID]] can be, as far as the source uses it
    ([words.length] and [words[i]]): an array of words; an object without a
    [length] ([Object.prototype] itself); or [undefined]. *)
Inductive words_value :=
  | Words (ws : list string)
  | NoLength
  | Undefined.

(** [corpus[docID]].  A name that is no own entry is looked up in
    [Object.prototype]: ["__proto__"] gives that object, and the name of one
    of its functions gives the function, whose [length] is a number and
    whose every [words[i]] is [undefined], which as a property key is the
    string ["undefined"]: the source cannot tell it from an array of so many
    words ["undefined"]. *)
Definition corpus_get (c : corpus) (docID : string) : words_value :=
  match corpus_own c docID with
  | Some ws => Words ws
  | None =>
      if decide (docID = "__proto__"%string) then NoLength
      else match function_length object_prototype_functions docID with
           | Some n => Words (replicate n "undefined"%string)
           | None => Undefined
           end
  end.

(** The words a loop [for (i = 0; i < words.length; i++)] visits; [None] is
    the TypeError of [words.length] on [undefined].  Without a [length] the
    test [0 < undefined] fails at once. *)
Definition words_visited (words : words_value) : option (list string) :=
  match words with
  | Words ws => Some ws
  | NoLength => Some []
  | Undefined => None
  end.

(** [words.length], where it does not throw; [None] is [undefined]. *)
Definition words_length (words : words_value) : option nat :=
  match words with
  | Words ws => Some (length ws)
  | NoLength | Undefined => None
  end.

(** What a state-mutating function leaves behind. *)
Inductive outcome (num : Type) :=
  | Returned (s : state num)
  | Thrown (s : state num).
Arguments Returned {num}.
Arguments Thrown {num}.

Definition obind {num} (o : outcome num) (k : state num → outcome num) : outcome num :=
  match o with
  | Returned s => k s
  | Thrown s => Thrown s
  end.

Notation "'do' s <- o ; k" := (obind o (fun s => k))
  (at level 10, s name, o at level 100, k at level 200, only parsing).

Definition final_state {num} (o : outcome num) : state num :=
  match o with Returned s | Thrown s => s end.

(** Field updates of the state. *)
Definition set_assignments {num} (f : gmap string N → gmap string N) (s : state num) :=
  State (f (assignments s)) (tables s) (total_docs s) (nextID s) (W s) (alpha s) (beta s) (vocab s).
Definition set_tables {num} (f : gmap N table → gmap N table) (s : state num) :=
  State (assignments s) (f (tables s)) (total_docs s) (nextID s) (W s) (alpha s) (beta s) (vocab s).
Definition set_total_docs {num} (f : Z → Z) (s : state num) :=
  State (assignments s) (tables s) (f (total_docs s)) (nextID s) (W s) (alpha s) (beta s) (vocab s).
Definition set_nextID {num} (f : N → N) (s : state num) :=
  State (assignments s) (tables s) (total_docs s) (f (nextID s)) (W s) (alpha s) (beta s) (vocab s).
Definition set_W {num} (f : Z → Z) (s : state num) :=
  State (assignments s) (tables s) (total_docs s) (nextID s) (f (W s)) (alpha s) (beta s) (vocab s).
Definition set_vocab {num} (f : gmap string Z → gmap string Z) (s : state num) :=
  State (assignments s) (tables s) (total_docs s) (nextID s) (W s) (alpha s) (beta s) (f (vocab s)).

(** The entries of an object with integer keys, in [for .. in] order. *)
Definition key_le {A} (x y : N * A) : Prop := (x.1 ≤ y.1)%N.

Global Instance key_le_dec {A} : RelDecision (@key_le A).
Proof. intros x y. unfold key_le. apply _. Defined.

Definition js_entries {A} (m : gmap N A) : list (N * A) :=
  merge_sort key_le (map_to_list m).

(** ** The sufficient-statistics store: [remove_doc] and [add_doc] *)

(** The loop of [remove_doc] over the words:
    [table.word_counts[word]--; if (table.word_counts[word] == 0) delete ...].
    The decrement reads the entry without asking whether it is an own one and
    writes the result back with an assignment. *)
Fixpoint remove_words (words : list string) (wc : gmap string count) : gmap string count :=
  match words with
  | [] => wc
  | word :: rest =>
      let wc1 := js_set word (count_decr (wc !! word)) wc in
      remove_words rest
        (if decide (wc1 !! word = Some (Cnt 0)) then delete word wc1 else wc1)
  end.

(** [remove_doc(docID, words, state)].  [words.length] throws on an undefined
    [words], as does the first access to [table] when [docID] has no own
    entry in [assignments] or the table it names does not exist (the value
    read for [tableID] is then [undefined] or an inherited property, and
    [state.tables] has no such key).  Both happen before anything is
    written. *)
Definition remove_doc {num} (docID : string) (words : words_value)
    (s : state num) : outcome num :=
  let tableID := assignments s !! docID in
  let table := tableID ≫= (tables s !!.) in
  match words_visited words with
  | None => Thrown s
  | Some ws =>
      match tableID, table with
      | Some t, Some tb =>
          let tb' := Table (num_docs tb - 1)
                           (count_sub (num_words tb) (words_length words))
                           (remove_words ws (word_counts tb)) in
          (* garbage collect old table if this was the only document there *)
          if decide (num_docs tb' = 0)
          then Returned (set_tables (delete t) s)
          else Returned (set_tables (<[t := tb']>) s)
      | _, _ => Thrown s
      end
  end.

(** How a loop that writes an object in place ends: it ran to its end, or a
    call in it threw; either way the object is left as written so far. *)
Inductive completion (A : Type) :=
  | Done (a : A)
  | Threw (a : A).
Arguments Done {A}.
Arguments Threw {A}.

(** The loop of [add_doc] over the words:
    [if (word_counts.hasOwnProperty(word)) word_counts[word]++;
     else word_counts[word] = 1]. *)
Fixpoint add_words (words : list string) (wc : gmap string count)
    : completion (gmap string count) :=
  match words with
  | [] => Done wc
  | word :: rest =>
      match js_has_own wc word with
      | None => Threw wc
      | Some _ =>
          add_words rest
            match wc !! word with
            | Some c => <[word := count_incr c]> wc
            | None => js_set word (Cnt 1) wc
            end
      end
  end.

(** The first half of [add_doc]: record the assignment and materialize the
    table when it is unknown. *)
Definition add_doc_open {num} (docID : string) (tableID : N) (s : state num) : state num :=
  let s1 := set_assignments (js_set docID tableID) s in
  match tables s1 !! tableID with
  | Some _ => s1
  | None => set_tables (<[tableID := Table 0 (Cnt 0) ∅]>) (set_nextID N.succ s1)
  end.

(** [add_doc(docID, words, tableID, state)].  With [words] undefined the loop
    condition throws after the first half has run; when a call of
    [hasOwnProperty] throws, the word counts written so far stay in the
    table as well. *)
Definition add_doc {num} (docID : string) (words : words_value) (tableID : N)
    (s : state num) : outcome num :=
  let s2 := add_doc_open docID tableID s in
  match words_visited words, tables s2 !! tableID with
  | Some ws, Some tb =>
      match add_words ws (word_counts tb) with
      | Done wc =>
          let tb' := Table (num_docs tb + 1)
                           (count_add (num_words tb) (words_length words))
                           wc in
          Returned (set_total_docs (Z.succ) (set_tables (<[tableID := tb']>) s2))
      | Threw wc =>
          Thrown (set_tables (<[tableID := Table (num_docs tb) (num_words tb) wc]>) s2)
      end
  | _, _ => Thrown s2
  end.

(** ** The likelihood engine *)

Section likelihood.
Context {num : Type} {ops : Number num}.

(** [prob_of_table(count, total, alpha)]; [if (count)] is the truthiness of
    an integer: it is not zero. *)
Definition prob_of_table (count total : Z) (alpha : num) : num :=
  if bool_decide (count ≠ 0)
  then ndiv (of_Z count) (nadd (of_Z total) alpha)
  else ndiv alpha (nadd (of_Z total) alpha).

Definition log_prob_table (count total : Z) (alpha : num) : num :=
  if bool_decide (count ≠ 0)
  then nlog (ndiv (of_Z count) (nadd (of_Z total) alpha))
  else nlog (ndiv alpha (nadd (of_Z total) alpha)).

(** [count]: the table's own count of [word], 0 when it has none; [None] when
    the call of [hasOwnProperty] throws. *)
Definition table_count (word_counts : gmap string count) (word : string) : option num :=
  match js_has_own word_counts word with
  | None => None
  | Some _ =>
      Some match word_counts !! word with
           | Some c => of_count c
           | None => of_Z 0
           end
  end.

(** [local_count] and the updated [local_counts]; [None] when the call of
    [hasOwnProperty] throws. *)
Definition bump_local (local_counts : gmap string Z) (word : string)
    : option (Z * gmap string Z) :=
  match js_has_own local_counts word with
  | None => None
  | Some _ =>
      Some match local_counts !! word with
           | Some lc => (lc, <[word := lc + 1]> local_counts)
           | None => (0, js_set word 1 local_counts)
           end
  end.

(** [(local_count + count + beta) / (j + word_total + W * beta)] *)
Definition word_ratio (local_count : Z) (cnt : num) (j : Z) (word_total : count)
    (beta : num) (W : Z) : num :=
  ndiv (nadd (nadd (of_Z local_count) cnt) beta)
       (nadd (nadd (of_Z j) (of_count word_total)) (nmul (of_Z W) beta)).

(** The loop of [prob_of_words_given_table], from position [j] on. *)
Fixpoint prob_loop (words : list string) (word_counts : gmap string count)
    (word_total : count) (beta : num) (W : Z)
    (j : Z) (local_counts : gmap string Z) (prob : num) : option num :=
  match words with
  | [] => Some prob
  | word :: rest =>
      cnt ← table_count word_counts word;
      '(local_count, local_counts') ← bump_local local_counts word;
      prob_loop rest word_counts word_total beta W (j + 1) local_counts'
        (nmul prob (word_ratio local_count cnt j word_total beta W))
  end.

(** [prob_of_words_given_table]; [None] is a TypeError: of [words.length] on
    an undefined [words], or of a call of [hasOwnProperty]. *)
Definition prob_of_words_given_table (words : words_value)
    (word_counts : gmap string count) (word_total : count) (beta : num) (W : Z)
    : option num :=
  ws ← words_visited words;
  prob_loop ws word_counts word_total beta W 0 ∅ (of_Z 1).

Fixpoint log_prob_loop (words : list string) (word_counts : gmap string count)
    (word_total : count) (beta : num) (W : Z)
    (j : Z) (local_counts : gmap string Z) (log_prob : num) : option num :=
  match words with
  | [] => Some log_prob
  | word :: rest =>
      cnt ← table_count word_counts word;
      '(local_count, local_counts') ← bump_local local_counts word;
      log_prob_loop rest word_counts word_total beta W (j + 1) local_counts'
        (nadd log_prob (nlog (word_ratio local_count cnt j word_total beta W)))
  end.

Definition log_prob_words_given_table (words : words_value)
    (word_counts : gmap string count) (word_total : count) (beta : num) (W : Z)
    : option num :=
  ws ← words_visited words;
  log_prob_loop ws word_counts word_total beta W 0 ∅ (of_Z 0).
End likelihood.

(** ** The samplers *)

Section samplers.
Context {num : Type} {ops : Number num}.

(** The second loop of [sample]: subtract each weight from the threshold and
    return the first key at which it goes negative; [key] is the last key
    visited, which is what is returned when none does. *)
Fixpoint sample_walk (entries : list (N * num)) (threshold : num)
    (key : option N) : option N :=
  match entries with
  | [] => key
  | (k, p) :: rest =>
      let threshold' := nsub threshold p in
      if nlt threshold' (of_Z 0) then Some k
      else sample_walk rest threshold' (Some k)
  end.

(** [sample] on the entries of the object, in enumeration order. *)
Definition sample_entries (entries : list (N * num)) (random : num) : option N :=
  let sum := foldl (λ acc e, nadd acc e.2) (of_Z 0) entries in
  let threshold := nmul random sum in
  sample_walk entries threshold None.

(** [sample(unnormalized_probabilities)], with the draw of [Math.random]
    given; [None] is the [undefined] that an empty object yields. *)
Definition sample (unnormalized_probabilities : gmap N num) (random : num)
    : option N :=
  sample_entries (js_entries unnormalized_probabilities) random.

(** [Array.prototype.sort] without a comparator orders the elements by
    their string conversions, compared code unit by code unit.  An element
    [[lw, tableID]] converts to the two numerals joined by a comma. *)
Definition render_entry (e : num * N) : string :=
  (render e.1 ++ "," ++ pretty e.2)%string.

Definition entry_before (x y : num * N) : bool :=
  String.ltb (render_entry x) (render_entry y).

Fixpoint sort_insert (x : num * N) (l : list (num * N)) : list (num * N) :=
  match l with
  | [] => [x]
  | y :: l' => if entry_before y x then y :: sort_insert x l' else x :: l
  end.

Definition js_sort (l : list (num * N)) : list (num * N) :=
  foldr sort_insert [] l.

(** The first loop of [log_sample]. *)
Definition sum_exp (max : num) (l : list (num * N)) : num :=
  foldl (λ sum e, nadd sum (nexp (nsub e.1 max))) (of_Z 0) l.

(** The second loop of [log_sample]; [None] when it falls through. *)
Fixpoint log_sample_walk (l : list (num * N)) (max log_norm_const random : num)
    (sum_of_exp : num) : option N :=
  match l with
  | [] => None
  | e :: rest =>
      let sum_of_exp' := nadd sum_of_exp (nexp (nsub e.1 max)) in
      let log_cumulative_prob := nsub (nadd max (nlog sum_of_exp')) log_norm_const in
      if nlt random log_cumulative_prob then Some e.2
      else log_sample_walk rest max log_norm_const random sum_of_exp'
  end.

(** The value [log_sample] binds to [max]: the weight of the first element
    after sorting. *)
Definition log_sample_max (log_un_ps : list (num * N)) : option num :=
  fst <$> head (js_sort log_un_ps).

Definition log_norm_const (log_un_ps : list (num * N)) : option num :=
  max ← log_sample_max log_un_ps;
  Some (nadd max (nlog (sum_exp max (js_sort log_un_ps)))).

(** [log_sample(log_un_ps)], with the draw of [Math.random] given; [None] is
    the TypeError of [log_un_ps[0][0]] on an empty array. *)
Definition log_sample (log_un_ps : list (num * N)) (random : num) : option N :=
  let sorted := js_sort log_un_ps in
  max ← log_sample_max log_un_ps;
  lnc ← log_norm_const log_un_ps;
  match log_sample_walk sorted max lnc (nlog random) (of_Z 0) with
  | Some tableID => Some tableID
  | None => snd <$> last sorted
  end.
End samplers.

(** ** The reseating controller *)

(** [if (state.assignments.hasOwnProperty(docID)) remove_doc(...)]; the call
    of [hasOwnProperty] throws before anything is written. *)
Definition remove_if_seated {num} (docID : string) (words : words_value)
    (s : state num) : outcome num :=
  match js_has_own (assignments s) docID with
  | None => Thrown s
  | Some true => remove_doc docID words s
  | Some false => Returned s
  end.

Module Linear.
Section linear.
Context {num : Type} {ops : Number num}.

(** [p_o_t * p_o_w] for an occupied table. *)
Definition table_weight (words : words_value) (s : state num)
    (tb : table) : option num :=
  let p_o_t := prob_of_table (num_docs tb) (total_docs s) (alpha s) in
  p_o_w ← prob_of_words_given_table words (word_counts tb) (num_words tb)
            (beta s) (W s);
  Some (nmul p_o_t p_o_w).

(** [p_o_t * p_o_w] for an unoccupied table. *)
Definition new_table_weight (words : words_value) (s : state num)
    : option num :=
  let p_o_t := prob_of_table 0 (total_docs s) (alpha s) in
  p_o_w ← prob_of_words_given_table words ∅ (Cnt 0) (beta s) (W s);
  Some (nmul p_o_t p_o_w).

(** The object [unnormalized_probabilities]: one entry per occupied table,
    then the entry of [nextID]; [None] when a likelihood call throws. *)
Definition unnormalized_probabilities (words : words_value)
    (s : state num) : option (gmap N num) :=
  occupied ← foldl (λ acc e, up ← acc; w ← table_weight words s e.2;
                             Some (<[e.1 := w]> up))
                   (Some ∅) (js_entries (tables s));
  w ← new_table_weight words s;
  Some (<[nextID s := w]> occupied).

(** [sample_table(docID, corpus, state)] of the linear module, with the draw
    of [Math.random] given.  The object sampled from always holds the entry
    of [nextID], so [sample] never yields [undefined]. *)
Definition sample_table (docID : string) (c : corpus) (random : num)
    (s : state num) : outcome num :=
  let words := corpus_get c docID in
  do s1 <- remove_if_seated docID words s;
  match unnormalized_probabilities words s1 with
  | None => Thrown s1
  | Some up =>
      match sample up random with
      | Some tableID => add_doc docID words tableID s1
      | None => Thrown s1
      end
  end.
End linear.
End Linear.

Module Log.
Section log.
Context {num : Type} {ops : Number num}.

Definition table_weight (words : words_value) (s : state num)
    (tb : table) : option num :=
  let lpt := log_prob_table (num_docs tb) (total_docs s) (alpha s) in
  lpw ← log_prob_words_given_table words (word_counts tb) (num_words tb)
          (beta s) (W s);
  Some (nadd lpt lpw).

Definition new_table_weight (words : words_value) (s : state num)
    : option num :=
  let lpt := log_prob_table 0 (total_docs s) (alpha s) in
  lpw ← log_prob_words_given_table words ∅ (Cnt 0) (beta s) (W s);
  Some (nadd lpt lpw).

(** The array [log_un_ps]: one element pushed per occupied table, then the
    element of [nextID]; [None] when a likelihood call throws. *)
Definition log_un_ps (words : words_value) (s : state num)
    : option (list (num * N)) :=
  occupied ← foldl (λ acc e, l ← acc; w ← table_weight words s e.2;
                             Some (l ++ [(w, e.1)]))
                   (Some []) (js_entries (tables s));
  w ← new_table_weight words s;
  Some (occupied ++ [(w, nextID s)]).

(** [sample_table(docID, corpus, state)] of the log module. *)
Definition sample_table (docID : string) (c : corpus) (random : num)
    (s : state num) : outcome num :=
  let words := corpus_get c docID in
  do s1 <- remove_if_seated docID words s;
  match log_un_ps words s1 with
  | None => Thrown s1
  | Some l =>
      match log_sample l random with
      | Some tableID => add_doc docID words tableID s1
      | None => Thrown s1
      end
  end.
End log.
End Log.

(** ** Initialization *)

(** One round of the inner loop of [initialize_state]:
    [if (state.vocab.hasOwnProperty(word)) state.vocab[word]++;
     else { state.W++; state.vocab[word] = 1; }]. *)
Definition count_word {num} (o : outcome num) (word : string) : outcome num :=
  do s <- o;
  match js_has_own (vocab s) word with
  | None => Thrown s
  | Some _ =>
      Returned match vocab s !! word with
               | Some n => set_vocab (<[word := n + 1]>) s
               | None => set_vocab (js_set word 1) (set_W Z.succ s)
               end
  end.

(** The inner loop of [initialize_state]: count the words into [vocab] and
    the new ones into [W]. *)
Definition count_vocab {num} (words : list string) (s : state num) : outcome num :=
  foldl count_word (Returned s) words.

Definition empty_state {num} (alpha beta : num) : state num :=
  State ∅ ∅ 0 0%N 0 alpha beta ∅.

(** One round of the outer loop of [initialize_state], for the corpus entry
    [e] of a document and its words. *)
Definition initialize_step {num} (o : outcome num) (e : string * list string)
    : outcome num :=
  do s <- o;
  do s' <- count_vocab e.2 s;
  add_doc e.1 (Words e.2) (nextID s') s'.

(** [initialize_state(corpus, alpha, beta)]: every document is seated at a
    table of its own.  An exception leaves the loops at once; the state
    under construction is then lost to the caller. *)
Definition initialize_state {num} (c : corpus) (alpha beta : num) : outcome num :=
  foldl initialize_step (Returned (empty_state alpha beta)) c.

(** The state [s] with other values of [alpha] and [beta]. *)
Definition with_parameters {num num'} (alpha0 beta0 : num) (s : state num') : state num :=
  State (assignments s) (tables s) (total_docs s) (nextID s) (W s) alpha0 beta0 (vocab s).

Definition outcome_with_parameters {num num'} (alpha0 beta0 : num) (o : outcome num')
    : outcome num :=
  match o with
  | Returned s => Returned (with_parameters alpha0 beta0 s)
  | Thrown s => Thrown (with_parameters alpha0 beta0 s)
  end.

(** ** Reachable states *)

Section reachability.
Context {num : Type} {ops : Number num} (c : corpus) (alpha0 beta0 : num).

(** The states the two modules produce from [initialize_state] by complete
    [sample_table] calls, whatever [Math.random] draws and whatever document
    is named. *)
Inductive reachable : state num → Prop :=
  | reach_init s :
      initialize_state c alpha0 beta0 = Returned s → reachable s
  | reach_linear s docID random s' :
      reachable s →
      Linear.sample_table docID c random s = Returned s' → reachable s'
  | reach_log s docID random s' :
      reachable s →
      Log.sample_table docID c random s = Returned s' → reachable s'.

(** The same, with every call naming a document of the corpus. *)
Inductive reachable_on_corpus : state num → Prop :=
  | reach_corpus_init s :
      initialize_state c alpha0 beta0 = Returned s → reachable_on_corpus s
  | reach_corpus_linear s docID random s' :
      reachable_on_corpus s → docID ∈ c.*1 →
      Linear.sample_table docID c random s = Returned s' → reachable_on_corpus s'
  | reach_corpus_log s docID random s' :
      reachable_on_corpus s → docID ∈ c.*1 →
      Log.sample_table docID c random s = Returned s' → reachable_on_corpus s'.
End reachability.

(** What a complete [sample_table] call does to the state, whichever table the
    sampler picks: the document is removed if it is seated, then added to the
    table picked. *)
Definition reseats {num} (docID : string) (words : words_value) (s s' : state num) : Prop :=
  ∃ s1 tableID, remove_if_seated docID words s = Returned s1 ∧
                add_doc docID words tableID s1 = Returned s'.

(** Every table of the state seats at least one document. *)
Definition no_empty_table {num} (s : state num) : Prop :=
  ∀ t tb, tables s !! t = Some tb → 0 < num_docs tb.

(** The number of documents that [assignments] seats at table [t]. *)
Definition seated_at (a : gmap string N) (t : N) : Z :=
  Z.of_nat (size (filter (λ e, e.2 = t) a)).

(** The assignments and the tables agree: every assigned table exists and
    [num_docs] counts the documents assigned to it. *)
Definition seating_ok (a : gmap string N) (T : gmap N table) : Prop :=
  (∀ d t, a !! d = Some t → is_Some (T !! t)) ∧
  (∀ t tb, T !! t = Some tb → num_docs tb = seated_at a t).

Definition well_seated {num} (s : state num) : Prop :=
  seating_ok (assignments s) (tables s).

(** ** Ordinary keys *)

(** A key on which an object behaves as a map: neither the name whose
    assignment is ignored nor the name of the method the source calls. *)
Definition ordinary_key (key : string) : Prop :=
  key ≠ "__proto__"%string ∧ key ≠ "hasOwnProperty"%string.

Global Instance ordinary_key_dec key : Decision (ordinary_key key).
Proof. unfold ordinary_key. apply _. Defined.

(** A corpus whose document identifiers are distinct and ordinary and whose
    words are ordinary. *)
Definition ordinary_corpus (c : corpus) : Prop :=
  NoDup c.*1 ∧ Forall (λ e, ordinary_key e.1 ∧ Forall ordinary_key e.2) c.

(** No word count of the tables shadows [hasOwnProperty]. *)
Definition tables_intact (T : gmap N table) : Prop :=
  ∀ t tb, T !! t = Some tb → word_counts tb !! "hasOwnProperty"%string = None.

(** No own property of the state's objects shadows [hasOwnProperty]. *)
Definition method_intact {num} (s : state num) : Prop :=
  assignments s !! "hasOwnProperty"%string = None ∧ tables_intact (tables s).

(** ** The word likelihood as the specification words it *)

(** How often [word] occurs in [l]. *)
Definition occurrences (word : string) (l : list string) : nat :=
  length (filter (λ x, x = word) l).

(** The object [local_counts] of the likelihood loops once the words [pre]
    have been visited. *)
Definition counts_of (pre : list string) (local_counts : gmap string Z) : Prop :=
  ∀ word, local_counts !! word =
          if decide (occurrences word pre = 0%nat) then None
          else Some (Z.of_nat (occurrences word pre)).

Section likelihood_spec.
Context {num : Type} {ops : Number num}.

(** The cluster's count of the word before the document is added. *)
Definition existing_count (word_counts : gmap string count) (word : string) : num :=
  from_option of_count (of_Z 0) (word_counts !! word).

(** The number of earlier occurrences, within the document, of the word at
    position [j]. *)
Definition running_count_within_this_document (words : list string) (j : nat) : Z :=
  match words !! j with
  | Some word => Z.of_nat (occurrences word (take j words))
  | None => 0
  end.

(** [(existing_count + running_count + beta) / (j + cluster_word_total + W * beta)] *)
Definition position_ratio (words : list string) (word_counts : gmap string count)
    (cluster_word_total : count) (beta : num) (W : Z) (j : nat) : num :=
  ndiv (nadd (nadd (from_option (existing_count word_counts) (of_Z 0) (words !! j))
                   (of_Z (running_count_within_this_document words j)))
             beta)
       (nadd (nadd (of_Z (Z.of_nat j)) (of_count cluster_word_total))
             (nmul (of_Z W) beta)).

(** The product over the positions [0 .. len(words)-1], taken in order from 1. *)
Definition word_likelihood (words : list string) (word_counts : gmap string count)
    (cluster_word_total : count) (beta : num) (W : Z) : num :=
  foldl (λ p j, nmul p (position_ratio words word_counts cluster_word_total beta W j))
        (of_Z 1) (seq 0 (length words)).

(** The sum of the logarithms over the same positions, taken in order from 0. *)
Definition log_word_likelihood (words : list string) (word_counts : gmap string count)
    (cluster_word_total : count) (beta : num) (W : Z) : num :=
  foldl (λ p j, nadd p (nlog (position_ratio words word_counts cluster_word_total beta W j)))
        (of_Z 0) (seq 0 (length words)).
End likelihood_spec.

(** ** Arithmetic on the reals *)

(** The idealised interpretation: the operations of the reals.  The rendering
    is a parameter. *)
Definition R_ltb (a b : R) : bool := if Rlt_dec a b then true else false.

Definition R_Number (rnd : R → string) : Number R :=
  {| of_Z := IZR; nadd := Rplus; nsub := Rminus; nmul := Rmult; ndiv := Rdiv;
     nlt := R_ltb; nlog := ln; nexp := exp; render := rnd |}.

(** The numeral of an integer-valued number, as [Number::toString] writes it
    (for another number: the numeral of the integer below it; the examples
    render integers only). *)
Definition integer_numeral (x : R) : string := pretty (Zfloor x).

(** The logarithmic form of the entries of a weight object. *)
Definition log_entries (up : gmap N R) : list (R * N) :=
  (λ e, (ln e.2, e.1)) <$> js_entries up.

(** The sum of the weights of a list of entries. *)
Fixpoint total_weight (es : list (N * R)) : R :=
  match es with
  | [] => 0%R
  | e :: rest => (e.2 + total_weight rest)%R
  end.

(** ** The example of the specification *)

Definition example_corpus : corpus :=
  [("d1", ["a"; "b"]); ("d2", ["a"; "a"])]%string.

(** The state [initialize_state] builds for it: two singleton tables. *)
Definition example_state {num} (alpha0 beta0 : num) : state num :=
  State {["d1" := 0%N; "d2" := 1%N]}
        {[0%N := Table 1 (Cnt 2) {["a" := Cnt 1; "b" := Cnt 1]};
          1%N := Table 1 (Cnt 2) {["a" := Cnt 2]}]}
        2 2%N 2 alpha0 beta0 {["a" := 3; "b" := 1]}.

(** The same state once [remove_doc] has taken "d1" from its table. *)
Definition example_state_d1_removed {num} (alpha0 beta0 : num) : state num :=
  State {["d1" := 0%N; "d2" := 1%N]}
        {[1%N := Table 1 (Cnt 2) {["a" := Cnt 2]}]}
        2 2%N 2 alpha0 beta0 {["a" := 3; "b" := 1]}.

(** The sum of [num_docs] over the tables. *)
Definition docs_in_tables {num} (s : state num) : Z :=
  map_fold (λ _ tb n, num_docs tb + n) 0 (tables s).

(** ** The prior-only simulator *)

Section crp.
Context {num : Type} {ops : Number num}.

(** The object [table_probs] of round [i]: the prior of every occupied table,
    then the prior of a new table under the key [i]. *)
Definition table_probs (counts : gmap N Z) (i : N) (alpha : num) : gmap N num :=
  <[i := prob_of_table 0 (Z.of_N i) alpha]>
    ((λ c, prob_of_table c (Z.of_N i) alpha) <$> counts).

(** [if (counts.hasOwnProperty(sampled_table)) counts[sampled_table]++
     else counts[sampled_table] = 1] *)
Definition seat_customer (counts : gmap N Z) (sampled_table : N) : gmap N Z :=
  match counts !! sampled_table with
  | Some c => <[sampled_table := c + 1]> counts
  | None => <[sampled_table := 1]> counts
  end.

(** Round [i] of the loop of [sample_CRP]; [draws i] is what [Math.random]
    returns in that round.  [None] stands for [sample] yielding [undefined],
    which an object holding the key [i] never does. *)
Definition sample_CRP_round (alpha : num) (draws : nat → num)
    (counts : option (gmap N Z)) (i : nat) : option (gmap N Z) :=
  counts ← counts;
  sampled_table ← sample (table_probs counts (N.of_nat i) alpha) (draws i);
  Some (seat_customer counts sampled_table).

(** [sample_CRP(n, alpha)] for a whole number [n] of customers. *)
Definition sample_CRP (n : nat) (alpha : num) (draws : nat → num)
    : option (gmap N Z) :=
  foldl (sample_CRP_round alpha draws) (Some ∅) (seq 0 n).
End crp.

(** The number of customers that [counts] seats. *)
Definition customers (counts : gmap N Z) : Z :=
  map_fold (λ _ c n, c + n) 0 counts.

(** What [i] rounds leave: [i] customers, at tables numbered below [i], none
    of them empty. *)
Definition crp_rounds_ok (i : nat) (counts : gmap N Z) : Prop :=
  customers counts = Z.of_nat i ∧
  ∀ t c, counts !! t = Some c → 1 ≤ c ∧ (t < N.of_nat i)%N.

(** ** Well-formed word counts *)

(** The count of [word] in [wc] as an integer: 0 when the word has no entry
    (or, for want of a value, when the entry is NaN). *)
Definition count_at (wc : gmap string count) (word : string) : Z :=
  match wc !! word with
  | Some (Cnt z) => z
  | _ => 0
  end.

(** Every entry is a positive integer: no NaN and no entry left at zero. *)
Definition wf_counts (wc : gmap string count) : Prop :=
  ∀ word c, wc !! word = Some c → ∃ z, c = Cnt z ∧ 0 < z.

(** The integer a stored count stands for (0 for NaN). *)
Definition count_value (c : count) : Z :=
  match c with Cnt z => z | NaN => 0 end.

(** The sum of the values of [word_counts]. *)
Definition count_sum (wc : gmap string count) : Z :=
  map_fold (λ _ c n, count_value c + n) 0 wc.

(** The words of a document of the corpus. *)
Definition words_of (c : corpus) (docID : string) : list string :=
  default [] (corpus_own c docID).

(** The sum of [f] over the documents that [a] seats at table [t]. *)
Definition seated_sum (f : string → Z) (a : gmap string N) (t : N) : Z :=
  map_fold (λ d t' n, (if decide (t' = t) then f d else 0) + n) 0 a.

(** The statistics of every table are those of the documents seated at it:
    the word counts are positive integers, each the number of occurrences of
    the word in those documents, and [num_words] is their total length and the
    sum of the word counts. *)
Definition words_ok (c : corpus) (a : gmap string N) (T : gmap N table) : Prop :=
  ∀ t tb, T !! t = Some tb →
    wf_counts (word_counts tb) ∧
    (∀ w, count_at (word_counts tb) w
          = seated_sum (λ d, Z.of_nat (occurrences w (words_of c d))) a t) ∧
    num_words tb = Cnt (seated_sum (λ d, Z.of_nat (length (words_of c d))) a t) ∧
    num_words tb = Cnt (count_sum (word_counts tb)).

(** The seating and the statistics of a state agree with the corpus. *)
Definition tables_ok {num} (c : corpus) (s : state num) : Prop :=
  well_seated s ∧ words_ok c (assignments s) (tables s).

(** A state in step with an ordinary corpus: the seating and the statistics
    agree with it and nothing shadows [hasOwnProperty]. *)
Definition coherent {num} (c : corpus) (s : state num) : Prop :=
  tables_ok c s ∧ method_intact s.

(** Every table identifier in use lies below [nextID]. *)
Definition ids_below_next {num} (s : state num) : Prop :=
  (∀ t, is_Some (tables s !! t) → (t < nextID s)%N) ∧
  (∀ d t, assignments s !! d = Some t → (t < nextID s)%N).

(** A complete [sample_table] call, with the table it picked: an occupied
    table of the state the remove step left, or [nextID]. *)
Definition reseats_at {num} (docID : string) (words : words_value) (tableID : N)
    (s s1 s' : state num) : Prop :=
  remove_if_seated docID words s = Returned s1 ∧
  (is_Some (tables s1 !! tableID) ∨ tableID = nextID s1) ∧
  add_doc docID words tableID s1 = Returned s'.

(** In the order of [Array.prototype.sort], [x] does not come after [y]: the
    string conversion of [y] is not below that of [x]. *)
Definition not_after {num} {ops : Number num} (x y : num * N) : Prop :=
  entry_before y x = false.

(** * Properties *)

(** ** JS objects *)

Section object_facts.
Context {V : Type}.
Implicit Types (obj : gmap string V) (key : string).

Lemma js_set_insert key (v : V) obj :
  key ≠ "__proto__"%string ∨ is_Some (obj !! key) →
  js_set key v obj = <[key := v]> obj.
Proof.
  intros H. unfold js_set. case_decide as E; [|done].
  destruct E as [-> E]. destruct H as [H|H]; [done|].
  rewrite E in H. by destruct H.
Qed.

Lemma js_set_ignored (v : V) obj :
  obj !! "__proto__"%string = None → js_set "__proto__" v obj = obj.
Proof. intros H. unfold js_set. case_decide as E; [done|]. by destruct E. Qed.

Lemma js_set_lookup_ne key key' (v : V) obj :
  key' ≠ key → js_set key v obj !! key' = obj !! key'.
Proof. intros H. unfold js_set. case_decide; [done|]. by rewrite lookup_insert_ne. Qed.

Lemma js_set_lookup key (v : V) obj :
  js_set key v obj !! key
  = if decide (key = "__proto__"%string ∧ obj !! key = None) then None else Some v.
Proof.
  unfold js_set. case_decide as E; [by destruct E|]. by rewrite lookup_insert_eq.
Qed.

(** Assigning to a key leaves the method intact unless the key is its name. *)
Lemma js_set_method key (v : V) obj :
  key ≠ "hasOwnProperty"%string →
  js_set key v obj !! "hasOwnProperty"%string = obj !! "hasOwnProperty"%string.
Proof. intros H. by apply js_set_lookup_ne. Qed.

Lemma js_has_own_intact obj key :
  obj !! "hasOwnProperty"%string = None →
  js_has_own obj key = Some (bool_decide (is_Some (obj !! key))).
Proof. intros H. unfold js_has_own. by rewrite H. Qed.

Lemma js_has_own_shadowed obj key :
  is_Some (obj !! "hasOwnProperty"%string) → js_has_own obj key = None.
Proof. intros [v H]. unfold js_has_own. by rewrite H. Qed.

Lemma js_has_own_Some obj key b :
  js_has_own obj key = Some b →
  obj !! "hasOwnProperty"%string = None ∧ b = bool_decide (is_Some (obj !! key)).
Proof.
  unfold js_has_own. destruct (obj !! "hasOwnProperty"%string); [done|].
  by intros [= <-].
Qed.
End object_facts.

(** ** The store *)

Section store_facts.
Context {num : Type}.
Implicit Types (s : state num) (docID : string) (tableID : N) (words : words_value).

Lemma add_doc_open_table docID tableID s :
  tables (add_doc_open docID tableID s) !! tableID
  = Some (default (Table 0 (Cnt 0) ∅) (tables s !! tableID)).
Proof.
  unfold add_doc_open; simpl.
  destruct (tables s !! tableID) as [tb|] eqn:E; simpl; [done|].
  by rewrite lookup_insert_eq.
Qed.

(** When the word loop runs to its end [add_doc] returns, and this is the
    state it leaves. *)
Lemma add_doc_returns docID words ws wc tableID s :
  words_visited words = Some ws →
  add_words ws (word_counts (default (Table 0 (Cnt 0) ∅) (tables s !! tableID))) = Done wc →
  add_doc docID words tableID s
  = Returned
      (set_total_docs Z.succ
         (set_tables
            (<[tableID :=
                 let tb := default (Table 0 (Cnt 0) ∅) (tables s !! tableID) in
                 Table (num_docs tb + 1) (count_add (num_words tb) (words_length words)) wc]>)
            (add_doc_open docID tableID s))).
Proof. intros Hw Ha. unfold add_doc. rewrite add_doc_open_table, Hw. by rewrite Ha. Qed.

(** [add_doc] returns in no other way. *)
Lemma add_doc_inv docID words tableID s s' :
  add_doc docID words tableID s = Returned s' →
  ∃ ws wc,
    words_visited words = Some ws ∧
    add_words ws (word_counts (default (Table 0 (Cnt 0) ∅) (tables s !! tableID))) = Done wc ∧
    s' = set_total_docs Z.succ
           (set_tables
              (<[tableID :=
                   let tb := default (Table 0 (Cnt 0) ∅) (tables s !! tableID) in
                   Table (num_docs tb + 1) (count_add (num_words tb) (words_length words)) wc]>)
              (add_doc_open docID tableID s)).
Proof.
  unfold add_doc. rewrite add_doc_open_table.
  destruct (words_visited words) as [ws|]; [|done].
  destruct (add_words ws _) as [wc|wc] eqn:E; [|done].
  intros [= <-]. by exists ws, wc.
Qed.

Lemma add_doc_total_docs docID words tableID s s' :
  add_doc docID words tableID s = Returned s' →
  total_docs s' = total_docs s + 1.
Proof.
  intros (ws & wc & _ & _ & ->)%add_doc_inv. unfold add_doc_open; simpl.
  destruct (tables s !! tableID); simpl; lia.
Qed.

Lemma add_doc_assignments docID words tableID s s' :
  add_doc docID words tableID s = Returned s' →
  assignments s' = js_set docID tableID (assignments s).
Proof.
  intros (ws & wc & _ & _ & ->)%add_doc_inv. unfold add_doc_open; simpl.
  by destruct (tables s !! tableID).
Qed.

Lemma add_doc_tables docID words tableID s s' :
  add_doc docID words tableID s = Returned s' →
  ∃ ws wc,
    words_visited words = Some ws ∧
    add_words ws (word_counts (default (Table 0 (Cnt 0) ∅) (tables s !! tableID))) = Done wc ∧
    tables s' =
      <[tableID :=
          let tb := default (Table 0 (Cnt 0) ∅) (tables s !! tableID) in
          Table (num_docs tb + 1) (count_add (num_words tb) (words_length words)) wc]>
        (tables s).
Proof.
  intros (ws & wc & Hw & Ha & ->)%add_doc_inv. exists ws, wc. split_and!; [done..|].
  unfold add_doc_open; simpl.
  destruct (tables s !! tableID); simpl; [done|].
  by rewrite insert_insert_eq.
Qed.

(** [remove_doc] either throws and leaves the state as it was, or returns. *)
Lemma remove_doc_thrown docID words s s' :
  remove_doc docID words s = Thrown s' → s' = s.
Proof.
  unfold remove_doc. destruct (words_visited words) as [ws|]; [|congruence].
  destruct (assignments s !! docID) as [t|]; simpl; [|congruence].
  destruct (tables s !! t) as [tb|]; [|congruence].
  by case_decide.
Qed.

Lemma remove_doc_undefined_words docID s :
  remove_doc docID Undefined s = Thrown s.
Proof. done. Qed.

(** What [remove_doc] leaves when the document is seated at an existing table. *)
Lemma remove_doc_returns docID words ws s t tb :
  words_visited words = Some ws →
  assignments s !! docID = Some t →
  tables s !! t = Some tb →
  remove_doc docID words s
  = Returned
      (set_tables
         (if decide (num_docs tb - 1 = 0) then delete t
          else <[t := Table (num_docs tb - 1)
                            (count_sub (num_words tb) (words_length words))
                            (remove_words ws (word_counts tb))]>) s).
Proof.
  intros Hw Ha Ht. unfold remove_doc. rewrite Hw, Ha; simpl. rewrite Ht; simpl.
  by case_decide.
Qed.

Lemma remove_doc_inv docID words s s' :
  remove_doc docID words s = Returned s' →
  ∃ ws t tb, words_visited words = Some ws ∧ assignments s !! docID = Some t ∧
             tables s !! t = Some tb.
Proof.
  unfold remove_doc. destruct (words_visited words) as [ws|]; [|congruence].
  destruct (assignments s !! docID) as [t|]; simpl; [|congruence].
  destruct (tables s !! t) as [tb|] eqn:E; [|congruence].
  intros _. by exists ws, t, tb.
Qed.
End store_facts.

Lemma remove_doc_total_docs_aux {num} docID words (s : state num) :
  total_docs (final_state (remove_doc docID words s)) = total_docs s.
Proof.
  unfold remove_doc. destruct (words_visited words) as [ws|]; [|done].
  destruct (assignments s !! docID) as [t|]; simpl; [|done].
  destruct (tables s !! t) as [tb|]; [|done].
  by case_decide.
Qed.

(** C2 (the code departs from it): [remove_doc] never writes [total_docs].
    Whatever the document, its words and the state, the state [remove_doc]
    leaves has the [total_docs] it started with, where the claim has it
    decremented by one. *)
Theorem remove_doc_keeps_total_docs {num} docID words (s : state num) :
  total_docs (final_state (remove_doc docID words s)) = total_docs s.
Proof. apply remove_doc_total_docs_aux. Qed.

(** The rest of the remove step is as described: the table loses one document
    and the document's length in words, and is dropped when no document is
    left. *)
Lemma remove_doc_table {num} docID ws (s s' : state num) t tb :
  assignments s !! docID = Some t →
  tables s !! t = Some tb →
  remove_doc docID (Words ws) s = Returned s' →
  assignments s' = assignments s ∧ nextID s' = nextID s ∧
  (∀ t', t' ≠ t → tables s' !! t' = tables s !! t') ∧
  tables s' !! t =
    if decide (num_docs tb = 1) then None
    else Some (Table (num_docs tb - 1) (count_sub (num_words tb) (Some (length ws)))
                     (remove_words ws (word_counts tb))).
Proof.
  intros Ha Ht. rewrite (remove_doc_returns docID (Words ws) ws s t tb eq_refl Ha Ht).
  intros [= <-]; simpl.
  split; [done|]. split; [done|]. split.
  - intros t' Hne. case_decide; [by rewrite lookup_delete_ne|by rewrite lookup_insert_ne].
  - repeat case_decide; try lia; [by rewrite lookup_delete_eq|by rewrite lookup_insert_eq].
Qed.

(** One word of the remove loop: the count is decremented and the entry is
    deleted when it reaches zero. *)
Lemma remove_words_step word rest wc z :
  wc !! word = Some (Cnt z) →
  remove_words (word :: rest) wc
  = remove_words rest (if decide (z = 1) then delete word wc
                       else <[word := Cnt (z - 1)]> wc).
Proof.
  intros E. simpl. rewrite E; simpl.
  rewrite js_set_insert by (right; by rewrite E).
  rewrite lookup_insert_eq.
  repeat case_decide; try done; try (exfalso; lia).
  - by rewrite delete_insert_eq.
  - exfalso. match goal with H : Some _ = Some _ |- _ => injection H as H end. lia.
  - exfalso. match goal with H : Some _ ≠ Some _ |- _ => apply H end. do 2 f_equal. lia.
Qed.

(** The word loop of [add_doc] runs to its end when nothing shadows the
    method: the table does not count the word ["hasOwnProperty"] and the
    document does not have it. *)
Lemma add_words_done ws : ∀ wc,
  wc !! "hasOwnProperty"%string = None → "hasOwnProperty"%string ∉ ws →
  ∃ wc', add_words ws wc = Done wc' ∧ wc' !! "hasOwnProperty"%string = None.
Proof.
  induction ws as [|word rest IH]; intros wc Hwc Hn; [by exists wc|].
  apply not_elem_of_cons in Hn as [Hne Hn].
  simpl. rewrite js_has_own_intact by done. apply IH; [|done].
  destruct (wc !! word).
  - by rewrite lookup_insert_ne.
  - by rewrite js_set_method.
Qed.

(** C10: on a table that exists, [add_doc] leaves [nextID], every other table,
    every other assignment and the parameters as they were; it writes the
    assignment of the document, the statistics of the table and [total_docs].
    The assignment is the one that [state.assignments[docID] = tableID]
    makes, and when the word loop runs to its end the call returns with the
    table's statistics raised by the document; it does so when neither the
    table nor the document has the word ["hasOwnProperty"]. *)
Theorem add_doc_frame {num} docID words tableID (s : state num) tb :
  tables s !! tableID = Some tb →
  let s' := final_state (add_doc docID words tableID s) in
  nextID s' = nextID s ∧
  (∀ t, t ≠ tableID → tables s' !! t = tables s !! t) ∧
  (∀ d, d ≠ docID → assignments s' !! d = assignments s !! d) ∧
  W s' = W s ∧ alpha s' = alpha s ∧ beta s' = beta s ∧ vocab s' = vocab s ∧
  assignments s' = js_set docID tableID (assignments s) ∧
  (∀ ws wc, words = Words ws → add_words ws (word_counts tb) = Done wc →
     add_doc docID words tableID s = Returned s' ∧
     total_docs s' = total_docs s + 1 ∧
     tables s' !! tableID
     = Some (Table (num_docs tb + 1) (count_add (num_words tb) (Some (length ws))) wc)) ∧
  (∀ ws, words = Words ws →
     word_counts tb !! "hasOwnProperty"%string = None → "hasOwnProperty"%string ∉ ws →
     ∃ s1, add_doc docID words tableID s = Returned s1).
Proof.
  intros Ht. unfold add_doc, add_doc_open; simpl. rewrite Ht; simpl. rewrite Ht.
  destruct (words_visited words) as [ws|] eqn:Hw; simpl.
  - destruct (add_words ws (word_counts tb)) as [wc|wc] eqn:Ha; simpl.
    + split_and!; try done.
      * intros t Hne. by rewrite lookup_insert_ne.
      * intros d Hne. by rewrite js_set_lookup_ne.
      * intros ws' wc' ->. simpl in Hw. injection Hw as <-. rewrite Ha. intros [= <-].
        split_and!; [done|lia|by rewrite lookup_insert_eq].
      * intros ws' _ _ _. by eexists.
    + split_and!; try done.
      * intros t Hne. by rewrite lookup_insert_ne.
      * intros d Hne. by rewrite js_set_lookup_ne.
      * intros ws' wc' ->. simpl in Hw. injection Hw as <-. by rewrite Ha.
      * intros ws' -> Hwc Hn. simpl in Hw. injection Hw as <-.
        destruct (add_words_done _ _ Hwc Hn) as (wc' & Hd & _). congruence.
  - split_and!; try done.
    + intros d Hne. by rewrite js_set_lookup_ne.
    + by intros ws' wc' ->.
    + by intros ws' ->.
Qed.

Lemma add_doc_frame_witness :
  let s := State (num := R) {["d2" := 0%N]} {[0%N := Table 1 (Cnt 2) {["a" := Cnt 2]}]}
                 1 1%N 2 1%R 1%R {["a" := 2]} in
  tables s !! 0%N = Some (Table 1 (Cnt 2) {["a" := Cnt 2]}) ∧
  nextID (final_state (add_doc "d1" (Words ["a"; "b"]) 0%N s)) = 1%N.
Proof.
  intros s. split; [reflexivity|].
  apply (add_doc_frame "d1" (Words ["a"; "b"]) 0%N s (Table 1 (Cnt 2) {["a" := Cnt 2]})).
  reflexivity.
Defined.

(** ** Initialization *)

Section initialize_facts.
Context {num : Type}.
Implicit Types (s : state num).

(** The vocabulary loop writes [W] and [vocab] only. *)
Lemma count_word_frame (o : outcome num) word :
  let s := final_state o in
  let s' := final_state (count_word o word) in
  assignments s' = assignments s ∧ tables s' = tables s ∧
  total_docs s' = total_docs s ∧ nextID s' = nextID s ∧
  alpha s' = alpha s ∧ beta s' = beta s.
Proof.
  destruct o as [s|s]; simpl; [|done].
  destruct (js_has_own (vocab s) word); simpl; [|done].
  by destruct (vocab s !! word).
Qed.

Lemma count_words_frame words (o : outcome num) :
  let s := final_state o in
  let s' := final_state (foldl count_word o words) in
  assignments s' = assignments s ∧ tables s' = tables s ∧
  total_docs s' = total_docs s ∧ nextID s' = nextID s ∧
  alpha s' = alpha s ∧ beta s' = beta s.
Proof.
  revert o. induction words as [|word rest IH]; intros o; [done|].
  simpl. destruct (IH (count_word o word)) as (Ha & Ht & Hd & Hn & Hal & Hbe).
  destruct (count_word_frame o word) as (Ha' & Ht' & Hd' & Hn' & Hal' & Hbe').
  simpl in *. split_and!; congruence.
Qed.

Lemma count_vocab_frame words s :
  let s' := final_state (count_vocab words s) in
  assignments s' = assignments s ∧ tables s' = tables s ∧
  total_docs s' = total_docs s ∧ nextID s' = nextID s ∧
  alpha s' = alpha s ∧ beta s' = beta s.
Proof. apply (count_words_frame words (Returned s)). Qed.

Lemma count_words_thrown words s :
  foldl count_word (Thrown s) words = Thrown s.
Proof. by induction words. Qed.

Lemma initialize_loop_thrown (c : corpus) s :
  foldl initialize_step (Thrown s) c = Thrown s.
Proof. by induction c. Qed.
End initialize_facts.

(** [alpha] and [beta] are stored and never read while the state is built. *)
Section parameters.
Context {num num' : Type} (alpha0 beta0 : num).
Implicit Types (s : state num') (o : outcome num').

Lemma add_doc_with_parameters docID words tableID s :
  add_doc docID words tableID (with_parameters alpha0 beta0 s)
  = outcome_with_parameters alpha0 beta0 (add_doc docID words tableID s).
Proof.
  unfold add_doc, add_doc_open; simpl.
  destruct (tables s !! tableID) as [tb|] eqn:Ht; simpl.
  - rewrite Ht. destruct (words_visited words) as [ws|]; [|done].
    by destruct (add_words ws (word_counts tb)).
  - rewrite !lookup_insert_eq. destruct (words_visited words) as [ws|]; [|done]. simpl.
    by destruct (add_words ws ∅).
Qed.

Lemma count_word_with_parameters o word :
  count_word (outcome_with_parameters alpha0 beta0 o) word
  = outcome_with_parameters alpha0 beta0 (count_word o word).
Proof.
  destruct o as [s|s]; simpl; [|done].
  destruct (js_has_own (vocab s) word); [|done].
  by destruct (vocab s !! word).
Qed.

Lemma count_words_with_parameters words o :
  foldl count_word (outcome_with_parameters alpha0 beta0 o) words
  = outcome_with_parameters alpha0 beta0 (foldl count_word o words).
Proof.
  revert o. induction words as [|word rest IH]; intros o; [done|].
  simpl. by rewrite count_word_with_parameters, IH.
Qed.

Lemma initialize_step_with_parameters o e :
  initialize_step (outcome_with_parameters alpha0 beta0 o) e
  = outcome_with_parameters alpha0 beta0 (initialize_step o e).
Proof.
  destruct o as [s|s]; [|done]. unfold initialize_step. simpl.
  unfold count_vocab.
  change (Returned (with_parameters alpha0 beta0 s))
    with (outcome_with_parameters alpha0 beta0 (Returned s)).
  rewrite count_words_with_parameters.
  destruct (foldl count_word (Returned s) e.2) as [s1|s1]; simpl; [|done].
  apply add_doc_with_parameters.
Qed.

Lemma initialize_loop_with_parameters (c : corpus) o :
  foldl initialize_step (outcome_with_parameters alpha0 beta0 o) c
  = outcome_with_parameters alpha0 beta0 (foldl initialize_step o c).
Proof.
  revert o. induction c as [|e c IH]; intros o; [done|].
  simpl. by rewrite initialize_step_with_parameters, IH.
Qed.
End parameters.

(** C8 (as the code has it): [initialize_state] checks nothing.  It stores
    [alpha] and [beta] and never reads them: what the call does with one pair
    of values, returning or throwing, it does with every other pair, those
    at or below zero included, and the two states differ in the stored
    values only; a state it returns holds the two values as they were
    given. *)
Theorem initialize_state_stores_any_parameters {num num'} (c : corpus)
    (alpha0 beta0 : num) (alpha1 beta1 : num') :
  initialize_state c alpha0 beta0
  = outcome_with_parameters alpha0 beta0 (initialize_state c alpha1 beta1) ∧
  ∀ s, initialize_state c alpha0 beta0 = Returned s → alpha s = alpha0 ∧ beta s = beta0.
Proof.
  assert (initialize_state c alpha0 beta0
          = outcome_with_parameters alpha0 beta0 (initialize_state c alpha1 beta1)) as E.
  { unfold initialize_state.
    rewrite <- initialize_loop_with_parameters. done. }
  split; [exact E|].
  intros s Hs. rewrite E in Hs.
  destruct (initialize_state c alpha1 beta1) as [s1|s1]; [|done].
  by injection Hs as <-.
Qed.

(** ** The likelihood engine *)

(** C6: the table prior is [count / (total + alpha)] for an occupied table and
    [alpha / (total + alpha)] for [count = 0]; the log form is the logarithm
    of the same ratio, a zero count taking the [alpha] branch. *)
Theorem table_prior_cases {num} {ops : Number num} (count total : Z) (alpha : num) :
  (0 < count →
     prob_of_table count total alpha = ndiv (of_Z count) (nadd (of_Z total) alpha) ∧
     log_prob_table count total alpha
     = nlog (ndiv (of_Z count) (nadd (of_Z total) alpha))) ∧
  (count = 0 →
     prob_of_table count total alpha = ndiv alpha (nadd (of_Z total) alpha) ∧
     log_prob_table count total alpha = nlog (ndiv alpha (nadd (of_Z total) alpha))).
Proof.
  unfold prob_of_table, log_prob_table. split; intros Hc.
  - rewrite bool_decide_eq_true_2 by lia. done.
  - rewrite bool_decide_eq_false_2 by (intros ?; lia). done.
Qed.

(** ** Reseating a document that the corpus does not have *)

Section absent_document.
Context {num : Type} {ops : Number num}.
Implicit Types (s : state num).

Lemma corpus_get_own (c : corpus) docID ws :
  corpus_own c docID = Some ws → corpus_get c docID = Words ws.
Proof. intros H. unfold corpus_get. by rewrite H. Qed.

Lemma corpus_get_undefined (c : corpus) docID :
  corpus_own c docID = None → ¬ inherited_name docID →
  corpus_get c docID = Undefined.
Proof.
  intros Hc Hn. unfold corpus_get. rewrite Hc.
  case_decide as E; [destruct Hn; by left|].
  destruct (function_length _ docID) as [n|] eqn:Ef; [|done].
  destruct Hn. right. by rewrite Ef.
Qed.

Lemma remove_if_seated_undefined_words docID s :
  remove_if_seated docID Undefined s = Thrown s ∨
  remove_if_seated docID Undefined s = Returned s.
Proof.
  unfold remove_if_seated.
  destruct (js_has_own (assignments s) docID) as [[]|]; [by left|by right|by left].
Qed.

Lemma unnormalized_probabilities_undefined_words s :
  Linear.unnormalized_probabilities Undefined s = None.
Proof.
  unfold Linear.unnormalized_probabilities.
  by destruct (foldl _ _ _).
Qed.

Lemma log_un_ps_undefined_words s :
  Log.log_un_ps Undefined s = None.
Proof.
  unfold Log.log_un_ps.
  by destruct (foldl _ _ _).
Qed.

Lemma sample_table_undefined_words (c : corpus) docID random s :
  corpus_get c docID = Undefined →
  Linear.sample_table docID c random s = Thrown s ∧
  Log.sample_table docID c random s = Thrown s.
Proof.
  intros Hc. unfold Linear.sample_table, Log.sample_table. rewrite Hc.
  destruct (remove_if_seated_undefined_words docID s) as [-> | ->]; simpl; [done|].
  by rewrite unnormalized_probabilities_undefined_words, log_un_ps_undefined_words.
Qed.
End absent_document.

(** C9 (as the code has it): reseating a document that has no entry in the
    corpus and whose name is not one that objects inherit from
    [Object.prototype] throws, in the linear module and in the log module,
    and the state is left exactly as it was. *)
Theorem sample_table_absent_document {num} {ops : Number num}
    (c : corpus) docID random (s : state num) :
  corpus_own c docID = None →
  ¬ inherited_name docID →
  Linear.sample_table docID c random s = Thrown s ∧
  Log.sample_table docID c random s = Thrown s.
Proof.
  intros Hc Hn. by apply sample_table_undefined_words, corpus_get_undefined.
Qed.

Lemma sample_table_absent_document_witness :
  let s := State (num := R) {["d2" := 0%N]} {[0%N := Table 1 (Cnt 2) {["a" := Cnt 2]}]}
                 1 1%N 2 1%R 1%R {["a" := 2]} in
  corpus_own example_corpus "d3" = None ∧
  ¬ inherited_name "d3" ∧
  Linear.sample_table (ops := R_Number integer_numeral) "d3" example_corpus (1/2)%R s
  = Thrown s ∧
  Log.sample_table (ops := R_Number integer_numeral) "d3" example_corpus (1/2)%R s
  = Thrown s.
Proof.
  intros s. split; [reflexivity|]. split; [by vm_compute; intros [|[]]|].
  apply (sample_table_absent_document (ops := R_Number integer_numeral)).
  - reflexivity.
  - by vm_compute; intros [|[]].
Defined.

(** ** The word likelihood *)

Section word_likelihood_facts.
Context {num : Type} {ops : Number num}.
Hypothesis nadd_comm : ∀ a b : num, nadd a b = nadd b a.

Lemma counts_of_nil : counts_of [] ∅.
Proof. intros word. by rewrite lookup_empty. Qed.

Lemma occurrences_not_elem word l : word ∉ l → occurrences word l = 0%nat.
Proof.
  intros H. unfold occurrences. induction l as [|x l IH]; [done|].
  apply not_elem_of_cons in H as [Hne Hl].
  rewrite filter_cons_False by done. by apply IH.
Qed.

Lemma counts_of_method pre lc :
  counts_of pre lc → "hasOwnProperty"%string ∉ pre →
  lc !! "hasOwnProperty"%string = None.
Proof.
  intros H Hn. rewrite (H _), occurrences_not_elem by done. by case_decide.
Qed.

Lemma table_count_intact wc word :
  wc !! "hasOwnProperty"%string = None →
  table_count (num := num) wc word = Some (existing_count wc word).
Proof.
  intros H. unfold table_count, existing_count. rewrite js_has_own_intact by done.
  by destruct (wc !! word).
Qed.

(** On ordinary words [local_counts] is the map of the running counts. *)
Lemma bump_local_ordinary pre lc word :
  counts_of pre lc → "hasOwnProperty"%string ∉ pre → word ≠ "__proto__"%string →
  bump_local lc word
  = Some (Z.of_nat (occurrences word pre),
          <[word := Z.of_nat (occurrences word pre) + 1]> lc).
Proof.
  intros H Hn Hw. unfold bump_local.
  rewrite js_has_own_intact by by eapply counts_of_method.
  rewrite (H word). case_decide as E; simpl.
  - rewrite E. by rewrite js_set_insert by by left.
  - done.
Qed.

Lemma counts_of_snoc pre lc word :
  counts_of pre lc →
  counts_of (pre ++ [word]) (<[word := Z.of_nat (occurrences word pre) + 1]> lc).
Proof.
  intros H w. unfold occurrences. rewrite filter_app, length_app.
  fold (occurrences w pre).
  destruct (decide (w = word)) as [->|Hne].
  - rewrite lookup_insert_eq. rewrite filter_cons_True by done. simpl.
    fold (occurrences word pre).
    case_decide; [lia|]. f_equal. lia.
  - rewrite lookup_insert_ne by done. rewrite filter_cons_False by done. simpl.
    rewrite Nat.add_0_r. apply H.
Qed.

Lemma position_ratio_middle pre word rest wc total beta W :
  word_ratio (Z.of_nat (occurrences word pre)) (existing_count wc word)
             (Z.of_nat (length pre)) total beta W
  = position_ratio (pre ++ word :: rest) wc total beta W (length pre).
Proof.
  unfold word_ratio, position_ratio, running_count_within_this_document.
  rewrite list_lookup_middle by done. simpl.
  rewrite take_app_length.
  by rewrite (nadd_comm (of_Z _) _).
Qed.

Lemma prob_loop_formula rest : ∀ pre wc total beta W lc p,
  counts_of pre lc →
  Forall ordinary_key (pre ++ rest) →
  wc !! "hasOwnProperty"%string = None →
  prob_loop rest wc total beta W (Z.of_nat (length pre)) lc p
  = Some (foldl (λ p j, nmul p (position_ratio (pre ++ rest) wc total beta W j))
                p (seq (length pre) (length rest))).
Proof.
  induction rest as [|word rest IH]; intros pre wc total beta W lc p H Hord Hwc; [done|].
  apply Forall_app in Hord as Hord'. destruct Hord' as [Hpre Hrest].
  apply Forall_cons in Hrest as [[Hw1 Hw2] Hrest].
  assert ("hasOwnProperty"%string ∉ pre) as Hn.
  { intros Hin. rewrite Forall_forall in Hpre. by destruct (Hpre _ Hin). }
  simpl. rewrite table_count_intact by done. simpl.
  rewrite (bump_local_ordinary pre lc word H Hn Hw1). simpl.
  rewrite (position_ratio_middle pre word rest wc total beta W).
  specialize (IH (pre ++ [word]) wc total beta W
                 (<[word := Z.of_nat (occurrences word pre) + 1]> lc)
                 (nmul p (position_ratio (pre ++ word :: rest) wc total beta W (length pre)))
                 (counts_of_snoc pre lc word H)).
  rewrite length_app in IH. simpl in IH.
  rewrite <- app_assoc in IH. simpl in IH.
  replace (length pre + 1)%nat with (S (length pre)) in IH by lia.
  rewrite <- IH by done. f_equal. lia.
Qed.

Lemma log_prob_loop_formula rest : ∀ pre wc total beta W lc p,
  counts_of pre lc →
  Forall ordinary_key (pre ++ rest) →
  wc !! "hasOwnProperty"%string = None →
  log_prob_loop rest wc total beta W (Z.of_nat (length pre)) lc p
  = Some (foldl (λ p j, nadd p (nlog (position_ratio (pre ++ rest) wc total beta W j)))
                p (seq (length pre) (length rest))).
Proof.
  induction rest as [|word rest IH]; intros pre wc total beta W lc p H Hord Hwc; [done|].
  apply Forall_app in Hord as Hord'. destruct Hord' as [Hpre Hrest].
  apply Forall_cons in Hrest as [[Hw1 Hw2] Hrest].
  assert ("hasOwnProperty"%string ∉ pre) as Hn.
  { intros Hin. rewrite Forall_forall in Hpre. by destruct (Hpre _ Hin). }
  simpl. rewrite table_count_intact by done. simpl.
  rewrite (bump_local_ordinary pre lc word H Hn Hw1). simpl.
  rewrite (position_ratio_middle pre word rest wc total beta W).
  specialize (IH (pre ++ [word]) wc total beta W
                 (<[word := Z.of_nat (occurrences word pre) + 1]> lc)
                 (nadd p (nlog (position_ratio (pre ++ word :: rest) wc total beta W
                                               (length pre))))
                 (counts_of_snoc pre lc word H)).
  rewrite length_app in IH. simpl in IH.
  rewrite <- app_assoc in IH. simpl in IH.
  replace (length pre + 1)%nat with (S (length pre)) in IH by lia.
  rewrite <- IH by done. f_equal. lia.
Qed.
End word_likelihood_facts.

(** C3 (as the code has it): for words other than ["__proto__"] and
    ["hasOwnProperty"], and word counts with no entry named
    ["hasOwnProperty"], the word likelihood is the product, over the
    positions of the document in order, of
    [(existing_count + running_count + beta) / (j + cluster_word_total + W * beta)],
    and its log form is the sum of the logarithms of the same ratios.  The one
    law of arithmetic used is that addition commutes: the code adds the
    running count and the existing count in the other order. *)
Theorem word_likelihood_formula {num} {ops : Number num}
    (nadd_comm : ∀ a b : num, nadd a b = nadd b a)
    (words : list string) (word_counts : gmap string count)
    (cluster_word_total : count) (beta : num) (W : Z) :
  Forall ordinary_key words →
  word_counts !! "hasOwnProperty"%string = None →
  prob_of_words_given_table (Words words) word_counts cluster_word_total beta W
  = Some (word_likelihood words word_counts cluster_word_total beta W) ∧
  log_prob_words_given_table (Words words) word_counts cluster_word_total beta W
  = Some (log_word_likelihood words word_counts cluster_word_total beta W).
Proof.
  intros Hord Hwc.
  unfold prob_of_words_given_table, log_prob_words_given_table,
    word_likelihood, log_word_likelihood. simpl.
  split.
  - by apply (prob_loop_formula nadd_comm words []); [apply counts_of_nil|..].
  - by apply (log_prob_loop_formula nadd_comm words []); [apply counts_of_nil|..].
Qed.

Lemma word_likelihood_formula_witness :
  (∀ a b : R, (a + b = b + a)%R) ∧
  Forall ordinary_key ["a"; "b"; "a"]%string ∧
  ({["a" := Cnt 2]} : gmap string count) !! "hasOwnProperty"%string = None ∧
  prob_of_words_given_table (ops := R_Number integer_numeral)
    (Words ["a"; "b"; "a"]) {["a" := Cnt 2]} (Cnt 2) (1/2)%R 2
  = Some (word_likelihood (ops := R_Number integer_numeral)
            ["a"; "b"; "a"] {["a" := Cnt 2]} (Cnt 2) (1/2)%R 2).
Proof.
  assert (Forall ordinary_key ["a"; "b"; "a"]%string) as Hord.
  { repeat constructor; done. }
  split; [exact Rplus_comm|]. split; [exact Hord|]. split; [reflexivity|].
  apply (word_likelihood_formula (ops := R_Number integer_numeral) Rplus_comm).
  - exact Hord.
  - reflexivity.
Defined.

(** The two names on which an object does not behave as a map. *)
Section special_words.
Context {num : Type} {ops : Number num}.

(** ["__proto__"] is never recorded in [local_counts]: the second occurrence
    is given the running count 0 again. *)
Lemma prob_of_words_proto_twice (beta : num) (W : Z) :
  prob_of_words_given_table (Words ["__proto__"; "__proto__"]%string) ∅ (Cnt 0) beta W
  = Some (nmul (nmul (of_Z 1) (word_ratio 0 (of_Z 0) 0 (Cnt 0) beta W))
               (word_ratio 0 (of_Z 0) 1 (Cnt 0) beta W)).
Proof. reflexivity. Qed.

Lemma word_likelihood_proto_twice (beta : num) (W : Z) :
  word_likelihood ["__proto__"; "__proto__"]%string ∅ (Cnt 0) beta W
  = nmul (nmul (of_Z 1)
               (ndiv (nadd (nadd (of_Z 0) (of_Z 0)) beta)
                     (nadd (nadd (of_Z 0) (of_Z 0)) (nmul (of_Z W) beta))))
         (ndiv (nadd (nadd (of_Z 0) (of_Z 1)) beta)
               (nadd (nadd (of_Z 1) (of_Z 0)) (nmul (of_Z W) beta))).
Proof. reflexivity. Qed.

(** Once ["hasOwnProperty"] is a key of [local_counts], the next call of
    [local_counts.hasOwnProperty] throws. *)
Lemma prob_of_words_after_method (word : string) (beta : num) (W : Z) :
  prob_of_words_given_table (Words ["hasOwnProperty"%string; word]) ∅ (Cnt 0) beta W = None ∧
  log_prob_words_given_table (Words ["hasOwnProperty"%string; word]) ∅ (Cnt 0) beta W = None.
Proof. split; reflexivity. Qed.

(** A table that counts the word ["hasOwnProperty"] makes the first call of
    [word_counts.hasOwnProperty] throw. *)
Lemma prob_of_words_method_counted (word : string) (rest : list string)
    (wc : gmap string count) (total : count) (beta : num) (W : Z) :
  is_Some (wc !! "hasOwnProperty"%string) →
  prob_of_words_given_table (Words (word :: rest)) wc total beta W = None ∧
  log_prob_words_given_table (Words (word :: rest)) wc total beta W = None.
Proof.
  intros H. unfold prob_of_words_given_table, log_prob_words_given_table. simpl.
  unfold table_count. by rewrite js_has_own_shadowed.
Qed.
End special_words.

(** C3 fails as stated on the reals, with [beta = 1/2] and [W = 2]: for the
    words ["__proto__", "__proto__"] and an empty table the code returns [1/8]
    where the product of the claim is [3/8], and for the words
    ["hasOwnProperty", "a"] both forms throw. *)
Lemma word_likelihood_special_words :
  let proto_twice := ["__proto__"; "__proto__"]%string in
  prob_of_words_given_table (ops := R_Number integer_numeral)
    (Words proto_twice) ∅ (Cnt 0) (1/2)%R 2 = Some (1/8)%R ∧
  word_likelihood (ops := R_Number integer_numeral) proto_twice ∅ (Cnt 0) (1/2)%R 2
  = (3/8)%R ∧
  prob_of_words_given_table (ops := R_Number integer_numeral)
    (Words proto_twice) ∅ (Cnt 0) (1/2)%R 2
  ≠ Some (word_likelihood (ops := R_Number integer_numeral)
            proto_twice ∅ (Cnt 0) (1/2)%R 2) ∧
  prob_of_words_given_table (ops := R_Number integer_numeral)
    (Words ["hasOwnProperty"; "a"]%string) ∅ (Cnt 0) (1/2)%R 2 = None ∧
  log_prob_words_given_table (ops := R_Number integer_numeral)
    (Words ["hasOwnProperty"; "a"]%string) ∅ (Cnt 0) (1/2)%R 2 = None.
Proof.
  intros proto_twice.
  assert (prob_of_words_given_table (ops := R_Number integer_numeral)
            (Words proto_twice) ∅ (Cnt 0) (1/2)%R 2 = Some (1/8)%R) as E1.
  { unfold proto_twice. rewrite prob_of_words_proto_twice. f_equal.
    unfold word_ratio. cbn [nadd nmul ndiv of_Z of_count R_Number]. lra. }
  assert (word_likelihood (ops := R_Number integer_numeral) proto_twice ∅ (Cnt 0) (1/2)%R 2
          = (3/8)%R) as E2.
  { unfold proto_twice. rewrite word_likelihood_proto_twice.
    cbn [nadd nmul ndiv of_Z R_Number]. lra. }
  split; [exact E1|]. split; [exact E2|]. split.
  - rewrite E1, E2. intros [= H]. lra.
  - apply (prob_of_words_after_method (ops := R_Number integer_numeral)).
Qed.

(** ** The samplers always pick one of the candidates *)

Section sampler_facts.
Context {num : Type} {ops : Number num}.

Lemma js_entries_perm {A} (m : gmap N A) : js_entries m ≡ₚ map_to_list m.
Proof. apply merge_sort_Permutation. Qed.

Lemma elem_of_js_entries {A} (m : gmap N A) k x :
  (k, x) ∈ js_entries m ↔ m !! k = Some x.
Proof. rewrite js_entries_perm. apply elem_of_map_to_list. Qed.

Lemma js_entries_nil {A} (m : gmap N A) : js_entries m = [] → m = ∅.
Proof.
  intros E. apply map_to_list_empty_iff, Permutation_nil_r.
  rewrite <- E. symmetry. apply js_entries_perm.
Qed.

Lemma sample_walk_key entries : ∀ threshold key t,
  sample_walk entries threshold key = Some t →
  key = Some t ∨ t ∈ entries.*1.
Proof.
  induction entries as [|[k p] rest IH]; intros threshold key t; simpl; [by left|].
  destruct (nlt _ _).
  - intros [= <-]. right. by left.
  - intros [[= <-]| Hin]%IH; right; [by left|by right].
Qed.

Lemma sample_walk_is_Some entries : ∀ threshold key,
  entries ≠ [] ∨ is_Some key → is_Some (sample_walk entries threshold key).
Proof.
  induction entries as [|[k p] rest IH]; intros threshold key H; simpl.
  - by destruct H.
  - destruct (nlt _ _); [done|]. apply IH. by right.
Qed.

(** [sample] yields a key of the object it is given, and does so whenever the
    object has an entry. *)
Lemma sample_key (up : gmap N num) random t :
  sample up random = Some t → is_Some (up !! t).
Proof.
  unfold sample, sample_entries.
  intros [[=]|Hin]%sample_walk_key.
  apply list_elem_of_fmap in Hin as ([k p] & -> & Hin).
  apply elem_of_js_entries in Hin. by exists p.
Qed.

Lemma sample_is_Some (up : gmap N num) random :
  up ≠ ∅ → is_Some (sample up random).
Proof.
  intros Hne. apply sample_walk_is_Some. left.
  intros E. by apply Hne, js_entries_nil.
Qed.

Lemma sort_insert_perm x l : sort_insert x l ≡ₚ x :: l.
Proof.
  induction l as [|y l IH]; simpl; [done|].
  destruct (entry_before y x); [|done].
  rewrite IH. apply Permutation_swap.
Qed.

Lemma js_sort_perm l : js_sort l ≡ₚ l.
Proof.
  induction l as [|x l IH]; simpl; [done|].
  by rewrite sort_insert_perm, IH.
Qed.

Lemma log_sample_walk_elem l : ∀ max lnc random acc t,
  log_sample_walk l max lnc random acc = Some t → t ∈ l.*2.
Proof.
  induction l as [|e rest IH]; intros max lnc random acc t; simpl; [done|].
  destruct (nlt _ _).
  - intros [= <-]. by left.
  - intros Hin%IH. by right.
Qed.

(** [log_sample] yields the identifier of one of the elements it is given,
    and does so whenever the array has an element. *)
Lemma log_sample_elem (l : list (num * N)) random t :
  log_sample l random = Some t → t ∈ l.*2.
Proof.
  unfold log_sample, log_norm_const.
  destruct (log_sample_max l) as [max|]; simpl; [|done].
  intros H. cut (t ∈ (js_sort l).*2).
  { intros Hin. by rewrite js_sort_perm in Hin. }
  destruct (log_sample_walk _ _ _ _ _) as [t'|] eqn:E.
  - injection H as <-. by eapply log_sample_walk_elem.
  - destruct (last (js_sort l)) as [e|] eqn:El; simpl in H; [|done].
    injection H as <-. apply list_elem_of_fmap. exists e. split; [done|].
    apply last_Some in El as [l' ->]. apply elem_of_app. right. by left.
Qed.

Lemma log_sample_is_Some (l : list (num * N)) random :
  l ≠ [] → is_Some (log_sample l random).
Proof.
  intros Hne. unfold log_sample, log_norm_const, log_sample_max.
  assert (js_sort l ≠ []) as Hs.
  { intros E. apply Hne. apply Permutation_nil_r. rewrite <- E. symmetry.
    apply js_sort_perm. }
  destruct (proj2 (last_is_Some (js_sort l)) Hs) as [x Hx].
  destruct (js_sort l) as [|e sorted] eqn:E; [done|].
  cbn [head fmap option_fmap option_map mbind option_bind].
  destruct (log_sample_walk _ _ _ _ _); [done|].
  rewrite Hx. done.
Qed.
End sampler_facts.

(** ** The reseating controller *)

Section loops_defined.
Context {num : Type} {ops : Number num}.

Lemma bump_local_defined (lc : gmap string Z) word :
  lc !! "hasOwnProperty"%string = None → word ≠ "hasOwnProperty"%string →
  ∃ n lc', bump_local lc word = Some (n, lc') ∧ lc' !! "hasOwnProperty"%string = None.
Proof.
  intros Hlc Hne. unfold bump_local. rewrite js_has_own_intact by done.
  destruct (lc !! word) as [n|]; eexists _, _; (split; [done|]).
  - by rewrite lookup_insert_ne.
  - by rewrite js_set_method.
Qed.

Lemma prob_loop_defined ws : ∀ wc total (beta : num) W j lc p,
  wc !! "hasOwnProperty"%string = None → lc !! "hasOwnProperty"%string = None →
  "hasOwnProperty"%string ∉ ws →
  is_Some (prob_loop ws wc total beta W j lc p).
Proof.
  induction ws as [|word rest IH]; intros wc total beta W j lc p Hwc Hlc Hn; [done|].
  apply not_elem_of_cons in Hn as [Hne Hn].
  simpl. unfold table_count at 1. rewrite js_has_own_intact by done. simpl.
  destruct (bump_local_defined lc word Hlc) as (n & lc' & -> & Hlc'); [done|].
  simpl. by apply IH.
Qed.

Lemma log_prob_loop_defined ws : ∀ wc total (beta : num) W j lc p,
  wc !! "hasOwnProperty"%string = None → lc !! "hasOwnProperty"%string = None →
  "hasOwnProperty"%string ∉ ws →
  is_Some (log_prob_loop ws wc total beta W j lc p).
Proof.
  induction ws as [|word rest IH]; intros wc total beta W j lc p Hwc Hlc Hn; [done|].
  apply not_elem_of_cons in Hn as [Hne Hn].
  simpl. unfold table_count at 1. rewrite js_has_own_intact by done. simpl.
  destruct (bump_local_defined lc word Hlc) as (n & lc' & -> & Hlc'); [done|].
  simpl. by apply IH.
Qed.

Lemma prob_of_words_defined words ws wc total (beta : num) W :
  words_visited words = Some ws →
  wc !! "hasOwnProperty"%string = None → "hasOwnProperty"%string ∉ ws →
  is_Some (prob_of_words_given_table words wc total beta W) ∧
  is_Some (log_prob_words_given_table words wc total beta W).
Proof.
  intros Hw Hwc Hn. unfold prob_of_words_given_table, log_prob_words_given_table.
  rewrite Hw. simpl. split; [by apply prob_loop_defined|by apply log_prob_loop_defined].
Qed.
End loops_defined.

Section reseat_facts.
Context {num : Type} {ops : Number num}.
Implicit Types (s : state num) (c : corpus) (words : words_value).

Lemma occupied_weights_defined words ws s (l : list (N * table)) :
  words_visited words = Some ws → "hasOwnProperty"%string ∉ ws →
  (∀ e, e ∈ l → word_counts e.2 !! "hasOwnProperty"%string = None) →
  ∀ up0 : gmap N num,
  is_Some (foldl (λ acc e, up ← acc; w ← Linear.table_weight words s e.2;
                           Some (<[e.1 := w]> up)) (Some up0) l).
Proof.
  intros Hw Hn. induction l as [|e l IH]; intros Hl up0; simpl; [done|].
  unfold Linear.table_weight at 2.
  destruct (proj1 (prob_of_words_defined words ws (word_counts e.2) (num_words e.2)
                     (beta s) (W s) Hw (Hl e (list_elem_of_here _ _)) Hn)) as [p ->].
  simpl. apply IH. intros e' He'. apply Hl. by right.
Qed.

Lemma unnormalized_probabilities_defined words ws s :
  words_visited words = Some ws → "hasOwnProperty"%string ∉ ws →
  tables_intact (tables s) →
  ∃ up, Linear.unnormalized_probabilities words s = Some up ∧ up ≠ ∅.
Proof.
  intros Hw Hn Hs. unfold Linear.unnormalized_probabilities.
  destruct (occupied_weights_defined words ws s (js_entries (tables s)) Hw Hn) with (up0 := (∅ : gmap N num))
    as [occ ->].
  { intros [t tb] Hin%elem_of_js_entries. by eapply Hs. }
  simpl. unfold Linear.new_table_weight.
  destruct (proj1 (prob_of_words_defined words ws ∅ (Cnt 0) (beta s) (W s) Hw
                     (lookup_empty _) Hn)) as [p ->].
  simpl. eexists. split; [done|]. apply insert_non_empty.
Qed.

Lemma occupied_log_weights_defined words ws s (l : list (N * table)) :
  words_visited words = Some ws → "hasOwnProperty"%string ∉ ws →
  (∀ e, e ∈ l → word_counts e.2 !! "hasOwnProperty"%string = None) →
  ∀ l0 : list (num * N),
  is_Some (foldl (λ acc e, l ← acc; w ← Log.table_weight words s e.2;
                           Some (l ++ [(w, e.1)])) (Some l0) l).
Proof.
  intros Hw Hn. induction l as [|e l IH]; intros Hl l0; simpl; [done|].
  unfold Log.table_weight at 2.
  destruct (proj2 (prob_of_words_defined words ws (word_counts e.2) (num_words e.2)
                     (beta s) (W s) Hw (Hl e (list_elem_of_here _ _)) Hn)) as [p ->].
  simpl. apply IH. intros e' He'. apply Hl. by right.
Qed.

Lemma log_un_ps_defined words ws s :
  words_visited words = Some ws → "hasOwnProperty"%string ∉ ws →
  tables_intact (tables s) →
  ∃ l, Log.log_un_ps words s = Some l ∧ l ≠ [].
Proof.
  intros Hw Hn Hs. unfold Log.log_un_ps.
  destruct (occupied_log_weights_defined words ws s (js_entries (tables s)) Hw Hn) with (l0 := ([] : list (num * N)))
    as [occ ->].
  { intros [t tb] Hin%elem_of_js_entries. by eapply Hs. }
  simpl. unfold Log.new_table_weight.
  destruct (proj2 (prob_of_words_defined words ws ∅ (Cnt 0) (beta s) (W s) Hw
                     (lookup_empty _) Hn)) as [p ->].
  simpl. eexists. split; [done|]. by destruct occ.
Qed.

Lemma occupied_weights_keys words s (l : list (N * table)) : ∀ up0 up : gmap N num,
  foldl (λ acc e, up ← acc; w ← Linear.table_weight words s e.2;
                  Some (<[e.1 := w]> up)) (Some up0) l = Some up →
  ∀ t, is_Some (up !! t) → is_Some (up0 !! t) ∨ t ∈ l.*1.
Proof.
  induction l as [|e l IH]; intros up0 up; simpl.
  - intros [= <-] t Ht. by left.
  - destruct (Linear.table_weight words s e.2) as [w|]; simpl.
    + intros H t Ht. destruct (IH _ _ H t Ht) as [Hin|Hin]; [|right; by right].
      destruct (decide (t = e.1)) as [->|Hne]; [right; by left|].
      rewrite lookup_insert_ne in Hin by done. by left.
    + intros H. exfalso. clear IH. revert H.
      induction l as [|e' l IH']; simpl; [done|exact IH'].
Qed.

Lemma unnormalized_probabilities_keys words s up t :
  Linear.unnormalized_probabilities words s = Some up →
  is_Some (up !! t) → is_Some (tables s !! t) ∨ t = nextID s.
Proof.
  unfold Linear.unnormalized_probabilities.
  destruct (foldl _ _ _) as [occ|] eqn:E; [|done]. simpl.
  destruct (Linear.new_table_weight words s); [|done]. simpl. intros [= <-] Ht.
  destruct (decide (t = nextID s)) as [->|Hne]; [by right|left].
  rewrite lookup_insert_ne in Ht by done.
  destruct (occupied_weights_keys _ _ _ _ _ E t Ht) as [Hin|Hin].
  - rewrite lookup_empty in Hin. by destruct Hin.
  - apply list_elem_of_fmap in Hin as ([k tb] & -> & Hin).
    apply elem_of_js_entries in Hin. by exists tb.
Qed.

Lemma occupied_log_weights_ids words s (l : list (N * table)) :
  ∀ l0 l1 : list (num * N),
  foldl (λ acc e, l ← acc; w ← Log.table_weight words s e.2;
                  Some (l ++ [(w, e.1)])) (Some l0) l = Some l1 →
  ∀ t, t ∈ l1.*2 → t ∈ l0.*2 ∨ t ∈ l.*1.
Proof.
  induction l as [|e l IH]; intros l0 l1; simpl.
  - intros [= <-] t Ht. by left.
  - destruct (Log.table_weight words s e.2) as [w|]; simpl.
    + intros H t Ht. destruct (IH _ _ H t Ht) as [Hin|Hin]; [|right; by right].
      rewrite fmap_app in Hin. apply elem_of_app in Hin as [Hin|Hin]; [by left|].
      simpl in Hin. apply list_elem_of_singleton in Hin as ->. right. by left.
    + intros H. exfalso. clear IH. revert H.
      induction l as [|e' l IH']; simpl; [done|exact IH'].
Qed.

Lemma log_un_ps_ids words s l t :
  Log.log_un_ps words s = Some l →
  t ∈ l.*2 → is_Some (tables s !! t) ∨ t = nextID s.
Proof.
  unfold Log.log_un_ps.
  destruct (foldl _ _ _) as [occ|] eqn:E; [|done]. simpl.
  destruct (Log.new_table_weight words s); [|done]. simpl. intros [= <-] Ht.
  rewrite fmap_app in Ht. apply elem_of_app in Ht as [Ht|Ht].
  - destruct (occupied_log_weights_ids _ _ _ _ _ E t Ht) as [Hin|Hin].
    + by apply elem_of_nil in Hin.
    + apply list_elem_of_fmap in Hin as ([k tb] & -> & Hin).
      apply elem_of_js_entries in Hin. left. by exists tb.
  - right. simpl in Ht. by apply list_elem_of_singleton in Ht.
Qed.

(** Once the remove step has returned and nothing shadows the method, the
    call goes through to [add_doc] with the table the sampler picks: an
    occupied table or [nextID]. *)
Lemma linear_sample_table_adds docID c random s ws s1 :
  words_visited (corpus_get c docID) = Some ws → "hasOwnProperty"%string ∉ ws →
  remove_if_seated docID (corpus_get c docID) s = Returned s1 →
  tables_intact (tables s1) →
  ∃ tableID, (is_Some (tables s1 !! tableID) ∨ tableID = nextID s1) ∧
             Linear.sample_table docID c random s
             = add_doc docID (corpus_get c docID) tableID s1.
Proof.
  intros Hw Hn Hr Hs. unfold Linear.sample_table. rewrite Hr. simpl.
  destruct (unnormalized_probabilities_defined _ ws s1 Hw Hn Hs) as (up & Eup & Hne).
  rewrite Eup.
  destruct (sample_is_Some up random Hne) as [t Et]. rewrite Et. exists t.
  split; [|done]. eapply unnormalized_probabilities_keys; [done|]. by eapply sample_key.
Qed.

Lemma log_sample_table_adds docID c random s ws s1 :
  words_visited (corpus_get c docID) = Some ws → "hasOwnProperty"%string ∉ ws →
  remove_if_seated docID (corpus_get c docID) s = Returned s1 →
  tables_intact (tables s1) →
  ∃ tableID, (is_Some (tables s1 !! tableID) ∨ tableID = nextID s1) ∧
             Log.sample_table docID c random s
             = add_doc docID (corpus_get c docID) tableID s1.
Proof.
  intros Hw Hn Hr Hs. unfold Log.sample_table. rewrite Hr. simpl.
  destruct (log_un_ps_defined _ ws s1 Hw Hn Hs) as (l & El & Hne).
  rewrite El.
  destruct (log_sample_is_Some l random Hne) as [t Et]. rewrite Et. exists t.
  split; [|done]. eapply log_un_ps_ids; [done|]. by eapply log_sample_elem.
Qed.

Lemma remove_if_seated_thrown docID words s s' :
  remove_if_seated docID words s = Thrown s' → s' = s.
Proof.
  unfold remove_if_seated.
  destruct (js_has_own (assignments s) docID) as [[]|];
    [apply remove_doc_thrown|done|by intros [= <-]].
Qed.

(** A call that returns has removed the document if it was seated and added
    it to an occupied table or to [nextID]. *)
Lemma linear_sample_table_reseats_at docID c random s s' :
  Linear.sample_table docID c random s = Returned s' →
  ∃ t s1, reseats_at docID (corpus_get c docID) t s s1 s'.
Proof.
  unfold Linear.sample_table.
  destruct (remove_if_seated docID (corpus_get c docID) s) as [s1|s1] eqn:Hr; [|done].
  simpl.
  destruct (Linear.unnormalized_probabilities _ s1) as [up|] eqn:Eup; [|done].
  destruct (sample up random) as [t|] eqn:Et; [|done].
  intros H. exists t, s1. split; [done|]. split; [|done].
  eapply unnormalized_probabilities_keys; [done|]. by eapply sample_key.
Qed.

Lemma log_sample_table_reseats_at docID c random s s' :
  Log.sample_table docID c random s = Returned s' →
  ∃ t s1, reseats_at docID (corpus_get c docID) t s s1 s'.
Proof.
  unfold Log.sample_table.
  destruct (remove_if_seated docID (corpus_get c docID) s) as [s1|s1] eqn:Hr; [|done].
  simpl.
  destruct (Log.log_un_ps _ s1) as [l|] eqn:El; [|done].
  destruct (log_sample l random) as [t|] eqn:Et; [|done].
  intros H. exists t, s1. split; [done|]. split; [|done].
  eapply log_un_ps_ids; [done|]. by eapply log_sample_elem.
Qed.

Lemma reseats_at_reseats docID words t s s1 s' :
  reseats_at docID words t s s1 s' → reseats docID words s s'.
Proof. intros (Hr & _ & Ha). by exists s1, t. Qed.

Lemma linear_sample_table_reseats docID c random s s' :
  Linear.sample_table docID c random s = Returned s' →
  reseats docID (corpus_get c docID) s s'.
Proof.
  intros (t & s1 & H)%linear_sample_table_reseats_at. by eapply reseats_at_reseats.
Qed.

Lemma log_sample_table_reseats docID c random s s' :
  Log.sample_table docID c random s = Returned s' →
  reseats docID (corpus_get c docID) s s'.
Proof.
  intros (t & s1 & H)%log_sample_table_reseats_at. by eapply reseats_at_reseats.
Qed.

(** The remove step leaves [total_docs] alone and the add step counts one
    more: every complete call raises [total_docs] by one, also when the
    document was seated before. *)
Lemma remove_if_seated_total_docs docID words s s1 :
  remove_if_seated docID words s = Returned s1 → total_docs s1 = total_docs s.
Proof.
  unfold remove_if_seated.
  destruct (js_has_own (assignments s) docID) as [[]|]; [|by intros [= <-]|done].
  intros E. pose proof (remove_doc_total_docs_aux docID words s) as Ht.
  by rewrite E in Ht.
Qed.

Lemma reseats_total_docs docID words s s' :
  reseats docID words s s' → total_docs s' = total_docs s + 1.
Proof.
  intros (s1 & t & Hr & Ha).
  apply add_doc_total_docs in Ha. apply remove_if_seated_total_docs in Hr. lia.
Qed.

(** What the remove step does when it returns: nothing, or [remove_doc] on
    a document with an own entry in [assignments]. *)
Lemma remove_if_seated_inv docID words s s1 :
  remove_if_seated docID words s = Returned s1 →
  assignments s !! "hasOwnProperty"%string = None ∧
  ((assignments s !! docID = None ∧ s1 = s) ∨
   (∃ ws t tb, words_visited words = Some ws ∧ assignments s !! docID = Some t ∧
               tables s !! t = Some tb ∧
               s1 = set_tables
                      (if decide (num_docs tb - 1 = 0) then delete t
                       else <[t := Table (num_docs tb - 1)
                                         (count_sub (num_words tb) (words_length words))
                                         (remove_words ws (word_counts tb))]>) s)).
Proof.
  unfold remove_if_seated.
  destruct (js_has_own (assignments s) docID) as [b|] eqn:Eb; [|done].
  apply js_has_own_Some in Eb as [Hm ->]. intros E. split; [done|].
  case_bool_decide as Hd.
  - right. destruct (remove_doc_inv _ _ _ _ E) as (ws & t & tb & Hw & Ha & Ht).
    rewrite (remove_doc_returns _ _ _ _ _ _ Hw Ha Ht) in E. injection E as <-.
    by exists ws, t, tb.
  - left. injection E as <-. split; [|done]. by apply eq_None_not_Some.
Qed.

Lemma remove_if_seated_assignments docID words s s1 :
  remove_if_seated docID words s = Returned s1 → assignments s1 = assignments s.
Proof.
  intros [_ [[_ ->]|(ws & t & tb & _ & _ & _ & ->)]]%remove_if_seated_inv; done.
Qed.

Lemma reseats_assignments docID words s s' :
  reseats docID words s s' →
  ∃ tableID, assignments s' = js_set docID tableID (assignments s).
Proof.
  intros (s1 & t & Hr & Ha). exists t.
  apply add_doc_assignments in Ha. apply remove_if_seated_assignments in Hr.
  congruence.
Qed.
End reseat_facts.

(** ** The example of the specification *)

Lemma initialize_example {num} (alpha0 beta0 : num) :
  initialize_state example_corpus alpha0 beta0 = Returned (example_state alpha0 beta0).
Proof. vm_compute. reflexivity. Qed.

Lemma remove_d1_example {num} (alpha0 beta0 : num) :
  remove_if_seated "d1" (Words ["a"; "b"]) (example_state alpha0 beta0)
  = Returned (example_state_d1_removed alpha0 beta0).
Proof. vm_compute. reflexivity. Qed.

Lemma example_state_intact {num} (alpha0 beta0 : num) :
  tables_intact (tables (example_state alpha0 beta0)) ∧
  tables_intact (tables (example_state_d1_removed alpha0 beta0)).
Proof.
  split; intros t tb; simpl.
  - destruct (decide (t = 0%N)) as [->|H0]; [by intros [= <-]|].
    rewrite lookup_insert_ne by done.
    by intros [_ <-]%lookup_singleton_Some.
  - by intros [_ <-]%lookup_singleton_Some.
Qed.

Lemma add_d1_example {num} (alpha0 beta0 : num) tableID s' :
  add_doc "d1" (Words ["a"; "b"]) tableID (example_state_d1_removed alpha0 beta0)
  = Returned s' →
  total_docs s' = 3 ∧ size (assignments s') = 2%nat ∧ docs_in_tables s' = 2.
Proof.
  intros H. split_and!.
  - by rewrite (add_doc_total_docs _ _ _ _ _ H).
  - rewrite (add_doc_assignments _ _ _ _ _ H). simpl.
    rewrite js_set_insert by by left.
    by rewrite map_size_insert_Some.
  - unfold docs_in_tables.
    destruct (add_doc_tables _ _ _ _ _ H) as (ws & wc & _ & _ & ->).
    change (tables (example_state_d1_removed alpha0 beta0))
      with ({[1%N := Table 1 (Cnt 2) {["a" := Cnt 2]}]} : gmap N table).
    destruct (decide (tableID = 1%N)) as [->|Hne].
    + rewrite lookup_singleton_eq. simpl. rewrite insert_singleton_eq.
      by rewrite map_fold_singleton.
    + rewrite lookup_singleton_ne by done. simpl.
      rewrite map_fold_insert_L.
      * by rewrite map_fold_singleton.
      * intros. lia.
      * by rewrite lookup_singleton_ne.
Qed.

(** On a state where nothing shadows the method, [add_doc] returns for a
    document without the word ["hasOwnProperty"], at an occupied table and at
    a new one. *)
Lemma add_doc_returns_intact {num} docID words ws tableID (s : state num) :
  words_visited words = Some ws → "hasOwnProperty"%string ∉ ws →
  tables_intact (tables s) →
  ∃ s', add_doc docID words tableID s = Returned s'.
Proof.
  intros Hw Hn Hs.
  destruct (add_words_done ws
              (word_counts (default (Table 0 (Cnt 0) ∅) (tables s !! tableID))))
    as (wc & Hwc & _); [|done|].
  - destruct (tables s !! tableID) as [tb|] eqn:E; simpl; [by eapply Hs|done].
  - rewrite (add_doc_returns docID words ws wc tableID s Hw Hwc). by eexists.
Qed.

Lemma not_elem_of_a_b : "hasOwnProperty"%string ∉ ["a"; "b"]%string.
Proof. intros H. repeat (apply elem_of_cons in H as [H|H]; [done|]). by apply elem_of_nil in H. Qed.

Lemma reseat_d1_example {num} {ops : Number num} (alpha0 beta0 random : num) :
  (∃ s1, Linear.sample_table "d1" example_corpus random (example_state alpha0 beta0)
         = Returned s1 ∧
         total_docs s1 = 3 ∧ size (assignments s1) = 2%nat ∧ docs_in_tables s1 = 2) ∧
  (∃ s1, Log.sample_table "d1" example_corpus random (example_state alpha0 beta0)
         = Returned s1 ∧
         total_docs s1 = 3 ∧ size (assignments s1) = 2%nat ∧ docs_in_tables s1 = 2).
Proof.
  destruct (example_state_intact alpha0 beta0) as [_ Hint].
  split.
  - destruct (linear_sample_table_adds "d1" example_corpus random _ ["a"; "b"]%string _
                eq_refl not_elem_of_a_b (remove_d1_example alpha0 beta0) Hint)
      as (t & _ & ->).
    destruct (add_doc_returns_intact "d1" (corpus_get example_corpus "d1") ["a"; "b"]%string
                t (example_state_d1_removed alpha0 beta0) eq_refl not_elem_of_a_b Hint)
      as [s1 E].
    exists s1. split; [done|]. by eapply add_d1_example.
  - destruct (log_sample_table_adds "d1" example_corpus random _ ["a"; "b"]%string _
                eq_refl not_elem_of_a_b (remove_d1_example alpha0 beta0) Hint)
      as (t & _ & ->).
    destruct (add_doc_returns_intact "d1" (corpus_get example_corpus "d1") ["a"; "b"]%string
                t (example_state_d1_removed alpha0 beta0) eq_refl not_elem_of_a_b Hint)
      as [s1 E].
    exists s1. split; [done|]. by eapply add_d1_example.
Qed.

(** C1 (the code departs from it): on the example corpus, whatever the
    arithmetic, the parameters and the draw, [initialize_state] leaves
    [total_docs = 2], and one reseat of "d1", by the linear module or by the
    log module, returns with [total_docs = 3] while [assignments] has two
    entries and the tables hold two documents. *)
Theorem reseat_example_total_docs {num} {ops : Number num} (alpha0 beta0 random : num) :
  ∃ s0, initialize_state example_corpus alpha0 beta0 = Returned s0 ∧
        total_docs s0 = 2 ∧
        (∃ s1, Linear.sample_table "d1" example_corpus random s0 = Returned s1 ∧
               total_docs s1 = 3 ∧ size (assignments s1) = 2%nat ∧
               docs_in_tables s1 = 2) ∧
        (∃ s1, Log.sample_table "d1" example_corpus random s0 = Returned s1 ∧
               total_docs s1 = 3 ∧ size (assignments s1) = 2%nat ∧
               docs_in_tables s1 = 2).
Proof.
  exists (example_state alpha0 beta0).
  split; [apply initialize_example|]. split; [done|].
  apply reseat_d1_example.
Qed.

(** C8 fails as stated: on the example corpus with [alpha = -1] and [beta = 0]
    no error is raised; a state is built around those values. *)
Lemma initialize_state_negative_alpha :
  ∃ s, initialize_state example_corpus (-1)%R 0%R = Returned s ∧
       alpha s = (-1)%R ∧ beta s = 0%R ∧ total_docs s = 2.
Proof. exists (example_state (-1)%R 0%R). split; [apply initialize_example|done]. Qed.

(** The name of an inherited function is a document to [sample_table]: one
    of no words.  The call returns, and the state has one assignment more. *)
Lemma reseat_toString_example {num} {ops : Number num} (alpha0 beta0 random : num) :
  (∃ s1, Linear.sample_table "toString" example_corpus random (example_state alpha0 beta0)
         = Returned s1 ∧
         total_docs s1 = 3 ∧ size (assignments s1) = 3%nat) ∧
  (∃ s1, Log.sample_table "toString" example_corpus random (example_state alpha0 beta0)
         = Returned s1 ∧
         total_docs s1 = 3 ∧ size (assignments s1) = 3%nat).
Proof.
  destruct (example_state_intact alpha0 beta0) as [Hint _].
  assert (remove_if_seated "toString" (corpus_get example_corpus "toString")
            (example_state alpha0 beta0) = Returned (example_state alpha0 beta0)) as Hr
    by (vm_compute; reflexivity).
  assert ("hasOwnProperty"%string ∉ ([] : list string)) as Hn by apply not_elem_of_nil.
  assert (∀ t s1, add_doc "toString" (corpus_get example_corpus "toString") t
                    (example_state alpha0 beta0) = Returned s1 →
                  total_docs s1 = 3 ∧ size (assignments s1) = 3%nat) as Hadd.
  { intros t s1 H. split.
    - by rewrite (add_doc_total_docs _ _ _ _ _ H).
    - rewrite (add_doc_assignments _ _ _ _ _ H). simpl.
      rewrite js_set_insert by by left.
      by rewrite map_size_insert_None. }
  split.
  - destruct (linear_sample_table_adds "toString" example_corpus random _ [] _
                eq_refl Hn Hr Hint) as (t & _ & ->).
    destruct (add_doc_returns_intact "toString" (corpus_get example_corpus "toString") []
                t (example_state alpha0 beta0) eq_refl Hn Hint) as [s1 E].
    exists s1. split; [done|]. by eapply Hadd.
  - destruct (log_sample_table_adds "toString" example_corpus random _ [] _
                eq_refl Hn Hr Hint) as (t & _ & ->).
    destruct (add_doc_returns_intact "toString" (corpus_get example_corpus "toString") []
                t (example_state alpha0 beta0) eq_refl Hn Hint) as [s1 E].
    exists s1. split; [done|]. by eapply Hadd.
Qed.

(** C9 fails as stated: "toString" is no document of the example corpus, yet
    reseating it on the state that [initialize_state] built returns, in both
    modules, and leaves [total_docs = 3] and a third assignment. *)
Lemma sample_table_inherited_name :
  let s := example_state (num := R) 1%R (1/2)%R in
  corpus_own example_corpus "toString" = None ∧
  total_docs s = 2 ∧ size (assignments s) = 2%nat ∧
  (∃ s1, Linear.sample_table (ops := R_Number integer_numeral)
           "toString" example_corpus (1/2)%R s = Returned s1 ∧
         total_docs s1 = 3 ∧ size (assignments s1) = 3%nat) ∧
  (∃ s1, Log.sample_table (ops := R_Number integer_numeral)
           "toString" example_corpus (1/2)%R s = Returned s1 ∧
         total_docs s1 = 3 ∧ size (assignments s1) = 3%nat).
Proof.
  intros s. split; [reflexivity|]. split; [reflexivity|]. split; [reflexivity|].
  apply (reseat_toString_example (ops := R_Number integer_numeral)).
Qed.

(** ** No empty table *)

Section no_empty_table_facts.
Context {num : Type}.
Implicit Types (s : state num) (words : words_value).

(** The table a document is added to has one document more than it had, or
    one when it is new. *)
Lemma add_doc_num_docs docID words tableID s s' :
  add_doc docID words tableID s = Returned s' →
  ∃ tb', tables s' !! tableID = Some tb' ∧
         num_docs tb' = default 0 (num_docs <$> tables s !! tableID) + 1.
Proof.
  intros (ws & wc & _ & _ & ->)%add_doc_tables.
  rewrite lookup_insert_eq. eexists. split; [done|]. simpl.
  by destruct (tables s !! tableID).
Qed.

Lemma add_doc_no_empty_table docID words tableID s s' :
  add_doc docID words tableID s = Returned s' →
  no_empty_table s → no_empty_table s'.
Proof.
  intros H Hs t tb.
  destruct (add_doc_tables _ _ _ _ _ H) as (ws & wc & _ & _ & ->).
  destruct (decide (t = tableID)) as [->|Hne].
  - rewrite lookup_insert_eq. intros [= <-]. simpl.
    destruct (tables s !! tableID) as [tb0|] eqn:E; simpl; [|lia].
    specialize (Hs _ _ E). lia.
  - rewrite lookup_insert_ne by done. apply Hs.
Qed.

(** The table a document leaves is deleted the moment it is left empty, and
    keeps the other documents otherwise. *)
Lemma remove_if_seated_table docID words s s1 t tb :
  remove_if_seated docID words s = Returned s1 →
  assignments s !! docID = Some t → tables s !! t = Some tb →
  (num_docs tb = 1 → tables s1 !! t = None) ∧
  (num_docs tb ≠ 1 →
     ∃ tb1, tables s1 !! t = Some tb1 ∧ num_docs tb1 = num_docs tb - 1).
Proof.
  intros [_ [[Hd _]|(ws & t' & tb' & _ & Hd & Ht & ->)]]%remove_if_seated_inv Ha Htb.
  - congruence.
  - assert (t' = t) as -> by congruence. assert (tb' = tb) as -> by congruence.
    simpl. split; intros Hn.
    + rewrite decide_True by lia. apply lookup_delete_eq.
    + rewrite decide_False by lia. rewrite lookup_insert_eq. by eexists.
Qed.

Lemma remove_if_seated_no_empty_table docID words s s1 :
  remove_if_seated docID words s = Returned s1 →
  no_empty_table s → no_empty_table s1.
Proof.
  intros [_ [[_ ->]|(ws & t & tb & _ & Ha & Ht & ->)]]%remove_if_seated_inv Hs; [done|].
  intros t' tb'. simpl. pose proof (Hs _ _ Ht) as Hpos. case_decide.
  - intros [_ H']%lookup_delete_Some. eauto.
  - destruct (decide (t' = t)) as [->|Hne].
    + rewrite lookup_insert_eq. intros [= <-]. simpl. lia.
    + rewrite lookup_insert_ne by done. eauto.
Qed.

Lemma reseats_no_empty_table docID words s s' :
  reseats docID words s s' → no_empty_table s → no_empty_table s'.
Proof.
  intros (s1 & t & Hr & Ha) Hs.
  eauto using add_doc_no_empty_table, remove_if_seated_no_empty_table.
Qed.

(** One round of the loop of [initialize_state] that returns: the vocabulary
    loop returned and so did [add_doc], at the table [nextID]. *)
Lemma initialize_step_inv (e : string * list string) s s' :
  initialize_step (Returned s) e = Returned s' →
  ∃ s0, count_vocab e.2 s = Returned s0 ∧
        assignments s0 = assignments s ∧ tables s0 = tables s ∧
        total_docs s0 = total_docs s ∧ nextID s0 = nextID s ∧
        alpha s0 = alpha s ∧ beta s0 = beta s ∧
        add_doc e.1 (Words e.2) (nextID s) s0 = Returned s'.
Proof.
  unfold initialize_step. simpl.
  pose proof (count_vocab_frame e.2 s) as Hf.
  destruct (count_vocab e.2 s) as [s0|s0]; simpl in *; [|done].
  destruct Hf as (Ha & Ht & Hd & Hn & Hal & Hbe). rewrite Hn.
  intros H. exists s0. by split_and!.
Qed.

(** An invariant of [add_doc] at [nextID] that the vocabulary loop cannot
    break holds of the state that [initialize_state] returns. *)
Lemma initialize_loop_invariant (P : state num → Prop) (c : corpus) :
  (∀ s s0, assignments s0 = assignments s → tables s0 = tables s →
           total_docs s0 = total_docs s → nextID s0 = nextID s → P s → P s0) →
  (∀ docID ws s s', add_doc docID (Words ws) (nextID s) s = Returned s' → P s → P s') →
  ∀ s s', foldl initialize_step (Returned s) c = Returned s' → P s → P s'.
Proof.
  intros Hframe Hadd. induction c as [|e c IH]; intros s s'; [by intros [= <-]|].
  change (foldl initialize_step (Returned s) (e :: c))
    with (foldl initialize_step (initialize_step (Returned s) e) c).
  destruct (initialize_step (Returned s) e) as [s1|s1] eqn:E1.
  - intros H Hs. apply (IH _ _ H).
    apply initialize_step_inv in E1 as (s0 & _ & Ha & Ht & Hd & Hn & _ & _ & E1).
    rewrite <- Hn in E1. eapply Hadd; [exact E1|]. by eapply Hframe.
  - by rewrite initialize_loop_thrown.
Qed.

Lemma initialize_no_empty_table (c : corpus) alpha0 beta0 s :
  initialize_state c alpha0 beta0 = Returned s → no_empty_table s.
Proof.
  intros H. apply (initialize_loop_invariant no_empty_table c) with (s := empty_state alpha0 beta0).
  - intros s1 s0 _ Ht _ _ Hs t tb. rewrite Ht. apply Hs.
  - intros docID ws s1 s2. apply add_doc_no_empty_table.
  - exact H.
  - intros t tb. unfold empty_state; simpl. by rewrite lookup_empty.
Qed.
End no_empty_table_facts.

Lemma reachable_no_empty_table_aux {num} {ops : Number num}
    (c : corpus) (alpha0 beta0 : num) (s : state num) :
  reachable c alpha0 beta0 s → no_empty_table s.
Proof.
  induction 1 as [s H|s docID random s' _ IH H|s docID random s' _ IH H].
  - by eapply initialize_no_empty_table.
  - apply linear_sample_table_reseats in H. by eapply reseats_no_empty_table.
  - apply log_sample_table_reseats in H. by eapply reseats_no_empty_table.
Qed.

(** C7: in every state reached from [initialize_state] by complete
    [sample_table] calls of either module, no table has [num_docs = 0].  The
    two steps of a call keep it so: when the remove step returns, the table
    the document sat at is gone if the document was its only one and has one
    document fewer otherwise, and no table is left empty between the steps;
    when the add step returns, the table picked has one document more, so a
    table that was not there before has exactly one. *)
Theorem reachable_no_empty_table {num} {ops : Number num}
    (c : corpus) (alpha0 beta0 : num) (s : state num) :
  reachable c alpha0 beta0 s →
  (∀ t tb, tables s !! t = Some tb → num_docs tb ≠ 0) ∧
  ∀ docID words s1,
    remove_if_seated docID words s = Returned s1 →
    (∀ t tb, assignments s !! docID = Some t → tables s !! t = Some tb →
       (num_docs tb = 1 → tables s1 !! t = None) ∧
       (num_docs tb ≠ 1 →
          ∃ tb1, tables s1 !! t = Some tb1 ∧ num_docs tb1 = num_docs tb - 1)) ∧
    (∀ t tb, tables s1 !! t = Some tb → num_docs tb ≠ 0) ∧
    ∀ tableID s',
      add_doc docID words tableID s1 = Returned s' →
      (tables s1 !! tableID = None →
         ∃ tb', tables s' !! tableID = Some tb' ∧ num_docs tb' = 1) ∧
      (∀ tb, tables s1 !! tableID = Some tb →
         ∃ tb', tables s' !! tableID = Some tb' ∧ num_docs tb' = num_docs tb + 1) ∧
      (∀ t tb, tables s' !! t = Some tb → num_docs tb ≠ 0).
Proof.
  intros Hs%reachable_no_empty_table_aux.
  assert (∀ s0 : state num, no_empty_table s0 →
            ∀ t tb, tables s0 !! t = Some tb → num_docs tb ≠ 0) as Hne.
  { intros s0 H0 t tb Ht. specialize (H0 t tb Ht). lia. }
  split; [by apply Hne|].
  intros docID words s1 Hr.
  pose proof (remove_if_seated_no_empty_table _ _ _ _ Hr Hs) as Hs1.
  split; [intros t tb; by apply (remove_if_seated_table docID words)|].
  split; [by apply Hne|].
  intros tableID s' Ha.
  destruct (add_doc_num_docs _ _ _ _ _ Ha) as (tb' & Ht' & Hn').
  split_and!.
  - intros E. rewrite E in Hn'. by exists tb'.
  - intros tb E. rewrite E in Hn'. by exists tb'.
  - apply Hne. by eapply add_doc_no_empty_table.
Qed.

(** A call that returns leaves the state that [final_state] names. *)
Lemma returned_final_state {num} (o : outcome num) :
  (∃ s, o = Returned s) → o = Returned (final_state o).
Proof. by intros [s ->]. Qed.

Lemma reachable_no_empty_table_witness :
  let s := final_state
             (Linear.sample_table (ops := R_Number integer_numeral)
                "d1" example_corpus (1/3)%R (example_state 1%R (1/2)%R)) in
  reachable (ops := R_Number integer_numeral) example_corpus 1%R (1/2)%R s ∧
  ∀ t tb, tables s !! t = Some tb → num_docs tb ≠ 0.
Proof.
  intros s.
  assert (reachable (ops := R_Number integer_numeral) example_corpus 1%R (1/2)%R s) as Hs.
  { apply (reach_linear _ _ _ (example_state 1%R (1/2)%R) "d1" (1/3)%R).
    - apply reach_init, initialize_example.
    - apply returned_final_state.
      destruct (reseat_d1_example (ops := R_Number integer_numeral) 1%R (1/2)%R (1/3)%R)
        as [(s1 & E & _) _].
      by exists s1. }
  split; [exact Hs|].
  exact (proj1 (reachable_no_empty_table (ops := R_Number integer_numeral)
                  example_corpus 1%R (1/2)%R s Hs)).
Defined.

(** ** The log sampler on the reals *)

Section sort_facts.
Context {num : Type} {ops : Number num}.

Lemma js_sort_two_swapped (x y : num * N) :
  entry_before y x = true → js_sort [x; y] = [y; x].
Proof. intros E. simpl. by rewrite E. Qed.

Lemma js_sort_two_kept (x y : num * N) :
  entry_before y x = false → js_sort [x; y] = [x; y].
Proof. intros E. simpl. by rewrite E. Qed.
End sort_facts.

(** Whatever the arithmetic, of two elements the one whose string conversion
    is the smaller gives [max]. *)
Lemma log_sample_max_two {num} {ops : Number num} (x y : num * N) :
  entry_before y x = true → log_sample_max [x; y] = Some y.1.
Proof. intros E. unfold log_sample_max. by rewrite js_sort_two_swapped. Qed.

Lemma integer_numeral_IZR (z : Z) : integer_numeral (IZR z) = pretty z.
Proof. unfold integer_numeral. by rewrite ZfloorZ. Qed.

Lemma render_entry_integer (z : Z) (t : N) :
  render_entry (ops := R_Number integer_numeral) (IZR z, t)
  = (pretty z ++ "," ++ pretty t)%string.
Proof. unfold render_entry. simpl. by rewrite integer_numeral_IZR. Qed.

Lemma entry_before_integer (z1 z2 : Z) (t1 t2 : N) :
  entry_before (ops := R_Number integer_numeral) (IZR z1, t1) (IZR z2, t2)
  = String.ltb (pretty z1 ++ "," ++ pretty t1) (pretty z2 ++ "," ++ pretty t2).
Proof. unfold entry_before. by rewrite !render_entry_integer. Qed.

(** C4 (the code departs from it): the value bound to [max] is the weight of
    the element that comes first in the order of the string conversions, not
    the largest weight.  For the log-weights -9 (table 0) and -10 (table 1)
    the conversions are "-9,0" and "-10,1"; the second sorts first, so [max]
    is -10 although -9 is larger, and the normalizer is computed around -10. *)
Theorem log_sample_max_not_maximum :
  let log_un_ps := [((-9)%R, 0%N); ((-10)%R, 1%N)] in
  js_sort (ops := R_Number integer_numeral) log_un_ps
  = [((-10)%R, 1%N); ((-9)%R, 0%N)] ∧
  log_sample_max (ops := R_Number integer_numeral) log_un_ps = Some (-10)%R ∧
  (-10 < -9)%R ∧
  log_norm_const (ops := R_Number integer_numeral) log_un_ps
  = Some (-10 + ln (0 + exp (-10 - -10) + exp (-9 - -10)))%R.
Proof.
  intros log_un_ps.
  assert (js_sort (ops := R_Number integer_numeral) log_un_ps
          = [((-10)%R, 1%N); ((-9)%R, 0%N)]) as E.
  { apply js_sort_two_swapped. rewrite entry_before_integer. vm_compute. reflexivity. }
  unfold log_norm_const, log_sample_max. rewrite E. simpl.
  split_and!; try done. lra.
Qed.

Section samplers_on_reals.
Variable rnd : R → string.
Local Open Scope R_scope.

Lemma R_ltb_iff a b c d : (a < b ↔ c < d) → R_ltb a b = R_ltb c d.
Proof.
  intros H. unfold R_ltb.
  destruct (Rlt_dec a b), (Rlt_dec c d); tauto.
Qed.

Lemma total_weight_nonneg es :
  (∀ e, e ∈ es → 0 < e.2) → 0 <= total_weight es.
Proof.
  induction es as [|e rest IH]; intros H; simpl; [lra|].
  assert (0 < e.2) by (apply H; by left).
  assert (0 <= total_weight rest) by (apply IH; intros; apply H; by right).
  lra.
Qed.

Lemma total_weight_pos es :
  es ≠ [] → (∀ e, e ∈ es → 0 < e.2) → 0 < total_weight es.
Proof.
  destruct es as [|e rest]; [done|]. intros _ H. simpl.
  assert (0 < e.2) by (apply H; by left).
  assert (0 <= total_weight rest) by (apply total_weight_nonneg; intros; apply H; by right).
  lra.
Qed.

(** The first loop of [sample]. *)
Lemma sum_total_weight (es : list (N * R)) : ∀ a,
  foldl (λ acc e, nadd (Number := R_Number rnd) acc e.2) a es = a + total_weight es.
Proof.
  induction es as [|e rest IH]; intros a; simpl; [lra|].
  rewrite IH. lra.
Qed.

Lemma exp_ln_minus w m : 0 < w → exp (ln w - m) = w / exp m.
Proof.
  intros Hw. unfold Rminus, Rdiv. by rewrite exp_plus, exp_ln, exp_Ropp.
Qed.

(** The first loop of [log_sample] on the logarithms of the same weights. *)
Lemma sum_exp_total_weight (es : list (N * R)) m :
  (∀ e, e ∈ es → 0 < e.2) → ∀ a,
  foldl (λ sum e, nadd (Number := R_Number rnd) sum
                    (nexp (Number := R_Number rnd)
                       (nsub (Number := R_Number rnd) e.1 m)))
        a ((λ e, (ln e.2, e.1)) <$> es)
  = a + total_weight es / exp m.
Proof.
  induction es as [|e rest IH]; intros H a; simpl.
  - unfold Rdiv. lra.
  - rewrite IH by (intros; apply H; by right).
    rewrite exp_ln_minus by (apply H; by left).
    unfold Rdiv. lra.
Qed.

(** One test of the linear walk against the same test of the log walk. *)
Lemma walk_tests_agree u S m A w :
  0 < u → 0 < S → 0 <= A → 0 < w →
  R_ltb (u * S - A - w) 0
  = R_ltb (ln u) (m + ln (A / exp m + exp (ln w - m)) - (m + ln (S / exp m))).
Proof.
  intros Hu HS HA Hw. apply R_ltb_iff.
  pose proof (exp_pos m) as HD.
  rewrite exp_ln_minus by done.
  replace (A / exp m + w / exp m) with ((A + w) / exp m) by (unfold Rdiv; lra).
  assert (0 < / exp m) as HI by (by apply Rinv_0_lt_compat).
  assert (0 < (A + w) / exp m) as Hx by (apply Rmult_lt_0_compat; lra).
  assert (0 < S / exp m) as Hy by (by apply Rmult_lt_0_compat).
  assert (0 < u * (S / exp m)) as Hz by (by apply Rmult_lt_0_compat).
  assert (ln (u * (S / exp m)) = ln u + ln (S / exp m)) as Hln by (by apply ln_mult).
  assert (u * (S / exp m) = (u * S) * / exp m) as Hus by (unfold Rdiv; lra).
  split.
  - intros Hlt.
    assert (u * (S / exp m) < (A + w) / exp m) as H1.
    { rewrite Hus. unfold Rdiv. apply Rmult_lt_compat_r; [done|lra]. }
    apply ln_increasing in H1; [|done]. lra.
  - intros Hlt.
    assert (ln (u * (S / exp m)) < ln ((A + w) / exp m)) as H1 by lra.
    apply ln_lt_inv in H1; [|done|done].
    rewrite Hus in H1. unfold Rdiv in H1.
    apply Rmult_lt_reg_r in H1; [lra|done].
Qed.

(** The two walks stop at the same candidate, and fall back on the same one. *)
Lemma walks_agree u S m (es : list (N * R)) :
  0 < u → 0 < S → (∀ e, e ∈ es → 0 < e.2) →
  ∀ A key, 0 <= A →
  sample_walk (ops := R_Number rnd) es (u * S - A) key
  = match log_sample_walk (ops := R_Number rnd) ((λ e, (ln e.2, e.1)) <$> es)
            m (m + ln (S / exp m)) (ln u) (A / exp m) with
    | Some t => Some t
    | None => match last es with Some e => Some e.1 | None => key end
    end.
Proof.
  intros Hu HS. induction es as [|[k w] rest IH]; intros H A key HA; [done|].
  assert (0 < w) as Hw by (apply (H (k, w)); by left).
  cbn [sample_walk log_sample_walk fmap list_fmap fst snd
       nsub nadd nlt nlog nexp of_Z R_Number].
  rewrite <- (walk_tests_agree u S m A w) by done.
  destruct (R_ltb (u * S - A - w) 0); [done|].
  replace (u * S - A - w) with (u * S - (A + w)) by lra.
  replace (A / exp m + exp (ln w - m)) with ((A + w) / exp m)
    by (rewrite exp_ln_minus by done; unfold Rdiv; lra).
  rewrite (IH (λ e He, H e (list_elem_of_further _ _ _ He)) (A + w) (Some k)) by lra.
  destruct (log_sample_walk _ _ _ _ _); [done|].
  destruct rest as [|e rest']; [done|].
  rewrite (last_cons_cons (k, w) e rest').
  by destruct (proj2 (last_is_Some (e :: rest'))) as [x ->].
Qed.
End samplers_on_reals.

Lemma samplers_agree_aux (rnd : R → string) (up : gmap N R) (l : list (R * N)) (u : R) :
  (∀ k w, up !! k = Some w → (0 < w)%R) →
  up ≠ ∅ →
  (0 < u)%R →
  js_sort (ops := R_Number rnd) l = log_entries up →
  sample (ops := R_Number rnd) up u = log_sample (ops := R_Number rnd) l u.
Proof.
  intros Hpos Hne Hu Hsort.
  unfold sample, sample_entries, log_sample, log_norm_const, log_sample_max, sum_exp.
  rewrite Hsort. unfold log_entries.
  assert (∀ e, e ∈ js_entries up → (0 < e.2)%R) as Hes.
  { intros [k w] Hin. apply elem_of_js_entries in Hin. by eapply Hpos. }
  assert (js_entries up ≠ []) as Hnil.
  { intros E. by apply Hne, js_entries_nil. }
  pose proof (total_weight_pos _ Hnil Hes) as HS.
  destruct (js_entries up) as [|[k0 w0] rest] eqn:E; [done|]. rewrite <- E in *.
  rewrite sum_total_weight.
  assert (head ((λ e : N * R, (ln e.2, e.1)) <$> js_entries up) = Some (ln w0, k0)) as ->
    by (by rewrite E).
  cbn [fmap option_fmap option_map mbind option_bind fst].
  rewrite (sum_exp_total_weight rnd (js_entries up) (ln w0) Hes).
  cbn [nadd nlog nmul of_Z R_Number].
  replace (u * (0 + total_weight (js_entries up)))%R
    with (u * total_weight (js_entries up) - 0)%R by lra.
  replace (0 + total_weight (js_entries up) / exp (ln w0))%R
    with (total_weight (js_entries up) / exp (ln w0))%R by lra.
  rewrite (walks_agree rnd u (total_weight (js_entries up)) (ln w0) (js_entries up)
             Hu HS Hes 0%R None) by lra.
  replace (0 / exp (ln w0))%R with 0%R by (unfold Rdiv; lra).
  destruct (log_sample_walk _ _ _ _ _); [done|].
  rewrite fmap_last. destruct (last (js_entries up)); reflexivity.
Qed.


Lemma js_entries_two {A} (a b : A) :
  js_entries ({[0%N := a; 1%N := b]} : gmap N A) = [(0%N, a); (1%N, b)].
Proof. vm_compute. reflexivity. Qed.

Lemma two_weights_positive (a b : R) k w :
  (0 < a)%R → (0 < b)%R →
  ({[0%N := a; 1%N := b]} : gmap N R) !! k = Some w → (0 < w)%R.
Proof.
  intros Ha Hb. destruct (decide (k = 0%N)) as [->|H0].
  - rewrite lookup_insert_eq. by intros [= <-].
  - rewrite lookup_insert_ne by done. destruct (decide (k = 1%N)) as [->|H1].
    + rewrite lookup_singleton_eq. by intros [= <-].
    + by rewrite lookup_singleton_ne.
Qed.


Lemma exp_1_bounds : (2 < exp 1 <= 3)%R.
Proof.
  split; [|apply exp_le_3].
  pose proof (exp_ineq1 1%R) as H. lra.
Qed.

Lemma R_ltb_true a b : (a < b)%R → R_ltb a b = true.
Proof. intros H. unfold R_ltb. by destruct (Rlt_dec a b). Qed.


(** * Further properties of the source *)

(** ** The prior-only simulator *)

Section crp_facts.
Context {num : Type} {ops : Number num}.

Lemma table_probs_key (counts : gmap N Z) i alpha t :
  is_Some (table_probs counts i alpha !! t) → is_Some (counts !! t) ∨ t = i.
Proof.
  unfold table_probs. destruct (decide (t = i)) as [->|Hne]; [by right|].
  rewrite lookup_insert_ne by done. rewrite lookup_fmap.
  intros H%fmap_is_Some. by left.
Qed.

Lemma customers_seat (counts : gmap N Z) t :
  customers (seat_customer counts t) = customers counts + 1.
Proof.
  unfold seat_customer, customers.
  destruct (counts !! t) as [c|] eqn:E.
  - rewrite <- (insert_delete_eq counts t (c + 1)).
    rewrite map_fold_insert_L; [|intros; lia|apply lookup_delete_eq].
    assert (map_fold (λ (_ : N) (c n : Z), c + n) 0 counts
            = c + map_fold (λ (_ : N) (c n : Z), c + n) 0 (delete t counts)) as ->.
    { rewrite <- (insert_delete_id counts t c E) at 1.
      rewrite map_fold_insert_L; [done|intros; lia|apply lookup_delete_eq]. }
    lia.
  - rewrite map_fold_insert_L; [lia|intros; lia|done].
Qed.

Lemma sample_CRP_round_ok alpha draws i counts :
  crp_rounds_ok i counts →
  ∃ counts', sample_CRP_round alpha draws (Some counts) i = Some counts' ∧
             crp_rounds_ok (S i) counts'.
Proof.
  intros [Hsum Hcounts]. unfold sample_CRP_round. simpl.
  destruct (sample_is_Some (table_probs counts (N.of_nat i) alpha) (draws i))
    as [t Ht]; [apply insert_non_empty|].
  rewrite Ht. simpl. eexists. split; [done|]. split.
  - rewrite customers_seat. lia.
  - intros t' c'. unfold seat_customer.
    apply sample_key, table_probs_key in Ht.
    destruct (counts !! t) as [c|] eqn:E.
    + destruct (Hcounts _ _ E). destruct (decide (t' = t)) as [->|Hne].
      * rewrite lookup_insert_eq. intros [= <-]. lia.
      * rewrite lookup_insert_ne by done. intros E'.
        destruct (Hcounts _ _ E'). lia.
    + destruct Ht as [[? ?]| ->]; [congruence|].
      destruct (decide (t' = N.of_nat i)) as [->|Hne].
      * rewrite lookup_insert_eq. intros [= <-]. lia.
      * rewrite lookup_insert_ne by done. intros E'.
        destruct (Hcounts _ _ E'). lia.
Qed.

Lemma sample_CRP_ok alpha draws n :
  ∃ counts, sample_CRP n alpha draws = Some counts ∧ crp_rounds_ok n counts.
Proof.
  unfold sample_CRP. induction n as [|n (counts & E & Hok)].
  - exists ∅. split; [done|]. split; [done|]. intros t c. by rewrite lookup_empty.
  - rewrite seq_S, foldl_app, E. simpl.
    apply sample_CRP_round_ok, Hok.
Qed.
End crp_facts.

(** X1: [sample_CRP(n, alpha)] always returns, whatever [alpha] and the draws;
    the counts it returns add up to [n], every table it lists seats at least
    one customer, and the tables are numbered below [n]. *)
Theorem sample_CRP_seats_everyone {num} {ops : Number num}
    (n : nat) (alpha : num) (draws : nat → num) :
  ∃ counts, sample_CRP n alpha draws = Some counts ∧
            customers counts = Z.of_nat n ∧
            ∀ t c, counts !! t = Some c → 1 ≤ c ∧ (t < N.of_nat n)%N.
Proof. apply sample_CRP_ok. Qed.

Lemma js_entries_singleton {A} (k : N) (a : A) :
  js_entries ({[k := a]} : gmap N A) = [(k, a)].
Proof. unfold js_entries. by rewrite map_to_list_singleton. Qed.

Lemma sample_singleton {num} {ops : Number num} (k : N) (p random : num) :
  sample {[k := p]} random = Some k.
Proof.
  unfold sample, sample_entries. rewrite js_entries_singleton. simpl.
  by destruct (nlt _ _).
Qed.

Lemma table_probs_empty {num} {ops : Number num} (i : N) (alpha : num) :
  table_probs ∅ i alpha = {[i := prob_of_table 0 (Z.of_N i) alpha]}.
Proof. unfold table_probs. by rewrite fmap_empty, insert_empty. Qed.

(** X2: the first customer always opens table 0: [sample_CRP(1, alpha)] is
    [{0: 1}] for every [alpha], every draw and every arithmetic. *)
Theorem sample_CRP_first_customer {num} {ops : Number num}
    (alpha : num) (draws : nat → num) :
  sample_CRP 1 alpha draws = Some {[0%N := 1]}.
Proof.
  unfold sample_CRP. cbn [seq foldl]. unfold sample_CRP_round.
  cbn [mbind option_bind N.of_nat]. rewrite table_probs_empty, sample_singleton.
  reflexivity.
Qed.

(** ** Adding and removing the words of a document *)

Section word_count_facts.
Implicit Types (wc : gmap string count) (ws : list string).

(** Case analysis on the tests of a goal, each case closed by arithmetic or
    by a contradiction among the hypotheses. *)
Local Ltac decide_cases :=
  repeat case_decide;
  first [lia | exfalso; destruct_and?; simplify_eq; tauto].

Lemma occurrences_cons w word ws :
  occurrences w (word :: ws)
  = ((if decide (word = w) then 1 else 0) + occurrences w ws)%nat.
Proof.
  unfold occurrences. destruct (decide (word = w)) as [->|Hne].
  - by rewrite filter_cons_True.
  - by rewrite filter_cons_False.
Qed.

Lemma count_at_insert wc word z w :
  count_at (<[word := Cnt z]> wc) w = if decide (word = w) then z else count_at wc w.
Proof.
  unfold count_at. destruct (decide (word = w)) as [->|Hne].
  - by rewrite lookup_insert_eq.
  - by rewrite lookup_insert_ne.
Qed.

Lemma count_at_delete wc word w :
  count_at (delete word wc) w = if decide (word = w) then 0 else count_at wc w.
Proof.
  unfold count_at. destruct (decide (word = w)) as [->|Hne].
  - by rewrite lookup_delete_eq.
  - by rewrite lookup_delete_ne.
Qed.

Lemma wf_counts_insert wc word z :
  wf_counts wc → 0 < z → wf_counts (<[word := Cnt z]> wc).
Proof.
  intros Hwf Hz w c. destruct (decide (w = word)) as [->|Hne].
  - rewrite lookup_insert_eq. intros [= <-]. by exists z.
  - rewrite lookup_insert_ne by done. apply Hwf.
Qed.

Lemma wf_counts_delete wc word : wf_counts wc → wf_counts (delete word wc).
Proof. intros Hwf w c [_ H]%lookup_delete_Some. by eapply Hwf. Qed.

Lemma wf_counts_empty : wf_counts ∅.
Proof. intros w x. by rewrite lookup_empty. Qed.

Lemma wf_counts_lookup wc word :
  wf_counts wc →
  wc !! word = (if decide (count_at wc word = 0) then None
                else Some (Cnt (count_at wc word))) ∧ 0 ≤ count_at wc word.
Proof.
  intros Hwf. unfold count_at. destruct (wc !! word) as [c|] eqn:E.
  - destruct (Hwf _ _ E) as (z & -> & Hz). rewrite decide_False by lia. split; [done|lia].
  - by rewrite decide_True.
Qed.

(** Two well-formed count objects with the same counts are the same object. *)
Lemma wf_counts_eq wc1 wc2 :
  wf_counts wc1 → wf_counts wc2 →
  (∀ w, count_at wc1 w = count_at wc2 w) → wc1 = wc2.
Proof.
  intros H1 H2 H. apply map_eq. intros w.
  destruct (wf_counts_lookup wc1 w H1) as [-> _].
  destruct (wf_counts_lookup wc2 w H2) as [-> _].
  by rewrite H.
Qed.

(** The occurrences of [w] that the loops record in [wc]: all of them, or none
    when [w] is ["__proto__"] and [wc] has no entry of that name, every
    assignment to it being ignored. *)
Lemma add_words_counts ws : ∀ wc wc',
  wf_counts wc → add_words ws wc = Done wc' →
  wf_counts wc' ∧
  (wc' !! "__proto__"%string = None ↔ wc !! "__proto__"%string = None) ∧
  ∀ w, count_at wc' w
       = count_at wc w
         + (if decide (w = "__proto__"%string ∧ wc !! w = None) then 0
            else Z.of_nat (occurrences w ws)).
Proof.
  induction ws as [|word rest IH]; intros wc wc' Hwf.
  - intros [= <-]. split; [done|]. split; [done|].
    intros w. unfold occurrences. simpl. case_decide; lia.
  - simpl. destruct (js_has_own wc word) as [b|]; [|done].
    destruct (wf_counts_lookup wc word Hwf) as [E Hpos].
    destruct (decide (word = "__proto__"%string ∧ wc !! word = None)) as [[-> Hnone]|Hrec].
    + (* the assignment is ignored *)
      intros H. rewrite Hnone, js_set_ignored in H by done.
      destruct (IH wc wc' Hwf H) as (Hwf' & Hp & Hc).
      split; [done|]. split; [done|]. intros w. rewrite Hc.
      rewrite occurrences_cons. decide_cases.
    + assert (match wc !! word with
              | Some c => <[word := count_incr c]> wc
              | None => js_set word (Cnt 1) wc
              end = <[word := Cnt (count_at wc word + 1)]> wc) as ->.
      { rewrite E. case_decide as E0.
        - rewrite E0. apply js_set_insert. left. intros ->. apply Hrec. by rewrite E.
        - done. }
      intros H.
      destruct (IH (<[word := Cnt (count_at wc word + 1)]> wc) wc') as (Hwf' & Hp & Hc);
        [apply wf_counts_insert; [done|lia]|done|].
      assert (∀ w, <[word := Cnt (count_at wc word + 1)]> wc !! w = None
                   ∧ w = "__proto__"%string
                   ↔ wc !! w = None ∧ w = "__proto__"%string) as Hsame.
      { intros w. destruct (decide (w = word)) as [->|Hne].
        - rewrite lookup_insert_eq. split; [by intros [? ?]|].
          intros [Hn ->]. destruct Hrec. done.
        - by rewrite lookup_insert_ne. }
      split; [done|]. split.
      * rewrite Hp. split; intros Hn.
        -- by apply (Hsame "__proto__"%string).
        -- by apply (Hsame "__proto__"%string).
      * intros w. rewrite Hc, count_at_insert, occurrences_cons.
        specialize (Hsame w).
        destruct (decide (word = w)) as [->|]; decide_cases.
Qed.

Lemma remove_words_counts ws : ∀ wc,
  wf_counts wc →
  (∀ w, (w = "__proto__"%string ∧ wc !! w = None) ∨
        Z.of_nat (occurrences w ws) ≤ count_at wc w) →
  wf_counts (remove_words ws wc) ∧
  ∀ w, count_at (remove_words ws wc) w
       = count_at wc w
         - (if decide (w = "__proto__"%string ∧ wc !! w = None) then 0
            else Z.of_nat (occurrences w ws)).
Proof.
  induction ws as [|word rest IH]; intros wc Hwf Hle.
  - split; [done|]. intros w. unfold occurrences. simpl. case_decide; lia.
  - simpl. destruct (wf_counts_lookup wc word Hwf) as [E Hpos].
    destruct (decide (word = "__proto__"%string ∧ wc !! word = None)) as [[-> Hnone]|Hrec].
    + (* the assignment is ignored and the test reads no own entry *)
      rewrite js_set_ignored by done. rewrite Hnone.
      rewrite decide_False by done.
      destruct (IH wc Hwf) as [Hwf' Hc].
      { intros w. destruct (Hle w) as [?|Hw]; [by left|]. right.
        rewrite occurrences_cons in Hw. lia. }
      split; [done|]. intros w. rewrite Hc, occurrences_cons.
      decide_cases.
    + pose proof (Hle word) as [?|Hword]; [done|].
      rewrite occurrences_cons, decide_True in Hword by done.
      rewrite decide_False in E by lia.
      rewrite js_set_insert by (right; by rewrite E).
      rewrite E. simpl. rewrite lookup_insert_eq.
      set (wc' := if decide (Some (Cnt (count_at wc word - 1)) = Some (Cnt 0))
                  then delete word (<[word := Cnt (count_at wc word - 1)]> wc)
                  else <[word := Cnt (count_at wc word - 1)]> wc).
      assert (wf_counts wc' ∧
              (∀ w, w ≠ word → wc' !! w = wc !! w) ∧
              ∀ w, count_at wc' w
                   = count_at wc w - (if decide (word = w) then 1 else 0))
        as (Hwf' & Hother & Hc').
      { unfold wc'. case_decide as Hz.
        - injection Hz as Hz. rewrite delete_insert_eq.
          split; [by apply wf_counts_delete|]. split.
          + intros w Hne. by rewrite lookup_delete_ne.
          + intros w. rewrite count_at_delete.
            destruct (decide (word = w)) as [->|]; lia.
        - assert (count_at wc word - 1 ≠ 0) by (intros Hz'; apply Hz; by rewrite Hz').
          split; [apply wf_counts_insert; [done|lia]|]. split.
          + intros w Hne. by rewrite lookup_insert_ne.
          + intros w. rewrite count_at_insert.
            destruct (decide (word = w)) as [->|]; lia. }
      destruct (IH wc' Hwf') as [Hwf'' Hc].
      { intros w. destruct (decide (w = word)) as [->|Hne].
        - right. rewrite Hc', decide_True by done. lia.
        - rewrite Hother by done. destruct (Hle w) as [?|Hw]; [by left|]. right.
          rewrite Hc'. rewrite occurrences_cons in Hw.
          rewrite decide_False in Hw by done. rewrite decide_False by done. lia. }
      split; [done|]. intros w. rewrite Hc, Hc', occurrences_cons.
      destruct (decide (w = word)) as [->|Hne].
      * rewrite !(decide_True (P := word = word)) by done.
        rewrite (decide_False (P := _ ∧ wc !! word = None)) by done.
        case_decide as Hp; [|lia].
        (* the entry was deleted: no occurrence is left in [rest] *)
        destruct Hp as [_ Hgone].
        assert (count_at wc' word = 0) as H0 by (unfold count_at; by rewrite Hgone).
        rewrite Hc', decide_True in H0 by done. lia.
      * rewrite Hother by done. rewrite !(decide_False (P := word = w)) by done.
        decide_cases.
Qed.

(** Removing the words that the add loop has just counted gives the counts
    back. *)
Lemma remove_add_words ws wc wc' :
  wf_counts wc → add_words ws wc = Done wc' → remove_words ws wc' = wc.
Proof.
  intros Hwf Ha. destruct (add_words_counts ws wc wc' Hwf Ha) as (Hwf1 & Hp & Hc1).
  assert (∀ w, (w = "__proto__"%string ∧ wc' !! w = None)
               ↔ (w = "__proto__"%string ∧ wc !! w = None)) as Hsame.
  { intros w. split; intros [-> Hn]; (split; [done|]); by apply Hp. }
  destruct (remove_words_counts ws wc' Hwf1) as [Hwf2 Hc2].
  { intros w. destruct (decide (w = "__proto__"%string ∧ wc !! w = None)) as [Hi|Hi].
    - left. by apply Hsame.
    - right. rewrite Hc1, decide_False by done.
      destruct (wf_counts_lookup wc w Hwf). lia. }
  apply wf_counts_eq; [done|done|]. intros w. rewrite Hc2, Hc1.
  specialize (Hsame w). decide_cases.
Qed.
End word_count_facts.

(** X3: on well-formed word counts the loop of [remove_doc] undoes the loop of
    [add_doc]: when the add loop has run to its end, removing the words of the
    document right after adding them gives back the counts as they were,
    entry for entry.  The add loop does run to its end when neither the
    table nor the document has the word ["hasOwnProperty"]. *)
Theorem remove_words_undoes_add_words (ws : list string) (wc : gmap string count) :
  wf_counts wc →
  (∀ wc', add_words ws wc = Done wc' → remove_words ws wc' = wc) ∧
  (wc !! "hasOwnProperty"%string = None → "hasOwnProperty"%string ∉ ws →
   ∃ wc', add_words ws wc = Done wc').
Proof.
  intros Hwf. split.
  - intros wc'. by apply remove_add_words.
  - intros Hwc Hn. destruct (add_words_done ws wc Hwc Hn) as (wc' & E & _). by exists wc'.
Qed.

Lemma wf_counts_a2 : wf_counts {["a" := Cnt 2]}.
Proof.
  intros w c. destruct (decide (w = "a")) as [->|Hne].
  - rewrite lookup_singleton_eq. intros [= <-]. exists 2. split; [done|lia].
  - by rewrite lookup_singleton_ne.
Defined.

Lemma remove_words_undoes_add_words_witness :
  wf_counts {["a" := Cnt 2]} ∧
  add_words ["a"; "b"; "a"] {["a" := Cnt 2]} = Done {["a" := Cnt 4; "b" := Cnt 1]} ∧
  remove_words ["a"; "b"; "a"] {["a" := Cnt 4; "b" := Cnt 1]} = {["a" := Cnt 2]}.
Proof.
  assert (add_words ["a"; "b"; "a"] {["a" := Cnt 2]} = Done {["a" := Cnt 4; "b" := Cnt 1]})
    as Ha by (vm_compute; reflexivity).
  split; [exact wf_counts_a2|]. split; [exact Ha|].
  exact (proj1 (remove_words_undoes_add_words ["a"; "b"; "a"] {["a" := Cnt 2]}
                  wf_counts_a2) _ Ha).
Defined.

(** ** Assignments and tables *)

Section seating_facts.
Implicit Types (a : gmap string N) (T : gmap N table).

Lemma seated_at_insert_fresh a d t t' :
  a !! d = None →
  seated_at (<[d := t]> a) t' = seated_at a t' + (if decide (t = t') then 1 else 0).
Proof.
  intros Hd. unfold seated_at. rewrite map_filter_insert. simpl.
  destruct (decide (t = t')) as [->|Hne].
  - rewrite map_size_insert_None; [lia|].
    apply map_lookup_filter_None_2. by left.
  - rewrite delete_id by done. lia.
Qed.

Lemma seated_at_delete a d t0 t' :
  a !! d = Some t0 →
  seated_at a t' = seated_at (delete d a) t' + (if decide (t0 = t') then 1 else 0).
Proof.
  intros Hd. rewrite <- (insert_delete_id a d t0 Hd) at 1.
  apply seated_at_insert_fresh, lookup_delete_eq.
Qed.

Lemma seated_at_nonneg a t : 0 ≤ seated_at a t.
Proof. unfold seated_at. lia. Qed.

Lemma seated_at_pos a d t : a !! d = Some t → 1 ≤ seated_at a t.
Proof.
  intros Hd. rewrite (seated_at_delete a d t t Hd).
  pose proof (seated_at_nonneg (delete d a) t). rewrite decide_True by done. lia.
Qed.

Lemma seating_ok_add a T d t nw wc :
  seating_ok a T → a !! d = None →
  seating_ok (<[d := t]> a)
             (<[t := Table (num_docs (default (Table 0 (Cnt 0) ∅) (T !! t)) + 1) nw wc]> T).
Proof.
  intros [Ha Hb] Hd. split.
  - intros d' t'. destruct (decide (d' = d)) as [->|Hne].
    + rewrite lookup_insert_eq. intros [= <-]. by rewrite lookup_insert_eq.
    + rewrite lookup_insert_ne by done. intros Hd'.
      destruct (decide (t' = t)) as [->|Hnt].
      * by rewrite lookup_insert_eq.
      * rewrite lookup_insert_ne by done. eauto.
  - intros t' tb. rewrite (seated_at_insert_fresh a d t t' Hd).
    destruct (decide (t' = t)) as [->|Hnt].
    + rewrite lookup_insert_eq. intros [= <-]. simpl. rewrite decide_True by done.
      destruct (T !! t) as [tb0|] eqn:E; simpl.
      * by rewrite (Hb _ _ E).
      * cut (seated_at a t = 0); [lia|].
        pose proof (seated_at_nonneg a t).
        destruct (decide (seated_at a t = 0)) as [|Hpos]; [done|]. exfalso.
        assert (filter (λ e : string * N, e.2 = t) a ≠ ∅) as Hf.
        { intros Hf. apply Hpos. unfold seated_at. by rewrite Hf, map_size_empty. }
        apply map_choose in Hf as (d0 & t0 & [Hd0 Ht0]%map_lookup_filter_Some).
        simpl in Ht0. subst t0. destruct (Ha _ _ Hd0) as [? ?]. congruence.
    + rewrite lookup_insert_ne by done. intros E.
      rewrite decide_False by done. rewrite (Hb _ _ E). lia.
Qed.

Lemma seating_ok_remove a T d t0 tb0 nw wc :
  seating_ok a T → a !! d = Some t0 → T !! t0 = Some tb0 →
  seating_ok (delete d a)
             (if decide (num_docs tb0 - 1 = 0) then delete t0 T
              else <[t0 := Table (num_docs tb0 - 1) nw wc]> T).
Proof.
  intros [Ha Hb] Hd Ht. pose proof (Hb _ _ Ht) as Hn.
  rewrite (seated_at_delete a d t0 t0 Hd), decide_True in Hn by done.
  split.
  - intros d' t' [Hne Hd']%lookup_delete_Some.
    destruct (decide (t' = t0)) as [->|Hnt].
    + pose proof (seated_at_pos (delete d a) d' t0) as Hp.
      rewrite lookup_delete_ne in Hp by done. specialize (Hp Hd').
      rewrite decide_False by lia. by rewrite lookup_insert_eq.
    + case_decide; [rewrite lookup_delete_ne by done|rewrite lookup_insert_ne by done];
        eauto.
  - intros t' tb. destruct (decide (t' = t0)) as [->|Hnt].
    + case_decide; [by rewrite lookup_delete_eq|].
      rewrite lookup_insert_eq. intros [= <-]. simpl. lia.
    + intros E.
      assert (T !! t' = Some tb) as E'.
      { revert E. case_decide;
          [by rewrite lookup_delete_ne|by rewrite lookup_insert_ne]. }
      rewrite (Hb _ _ E'), (seated_at_delete a d t0 t' Hd).
      rewrite decide_False by done. lia.
Qed.
End seating_facts.

(** ** The statistics of a table are those of its documents *)

Section seated_sum_facts.
Implicit Types (a : gmap string N) (f : string → Z).

Lemma seated_sum_insert_fresh f a d t t' :
  a !! d = None →
  seated_sum f (<[d := t]> a) t'
  = (if decide (t = t') then f d else 0) + seated_sum f a t'.
Proof.
  intros Hd. unfold seated_sum.
  rewrite map_fold_insert_L; [done|intros; lia|done].
Qed.

Lemma seated_sum_delete f a d t0 t' :
  a !! d = Some t0 →
  seated_sum f a t'
  = (if decide (t0 = t') then f d else 0) + seated_sum f (delete d a) t'.
Proof.
  intros Hd. rewrite <- (insert_delete_id a d t0 Hd) at 1.
  apply seated_sum_insert_fresh, lookup_delete_eq.
Qed.

Lemma seated_sum_nonneg f a t : (∀ d, 0 ≤ f d) → 0 ≤ seated_sum f a t.
Proof.
  intros Hf. induction a as [|d t0 a Hd IH] using map_ind.
  - unfold seated_sum. by rewrite map_fold_empty.
  - rewrite seated_sum_insert_fresh by done. specialize (Hf d). case_decide; lia.
Qed.

Lemma seated_sum_vacant f a t :
  (∀ d, a !! d ≠ Some t) → seated_sum f a t = 0.
Proof.
  induction a as [|d t0 a Hd IH] using map_ind; intros H.
  - unfold seated_sum. by rewrite map_fold_empty.
  - rewrite seated_sum_insert_fresh by done. rewrite IH.
    + rewrite decide_False; [done|]. intros ->. apply (H d). by rewrite lookup_insert_eq.
    + intros d' Hd'. apply (H d'). rewrite lookup_insert_ne; [done|]. congruence.
Qed.
End seated_sum_facts.

Section count_sum_facts.
Implicit Types (wc : gmap string count).

Lemma count_sum_delete wc word :
  count_sum wc = count_at wc word + count_sum (delete word wc).
Proof.
  unfold count_sum, count_at. destruct (wc !! word) as [c|] eqn:E.
  - rewrite <- (insert_delete_id wc word c E) at 1.
    rewrite map_fold_insert_L; [|intros; lia|apply lookup_delete_eq].
    by destruct c.
  - by rewrite delete_id.
Qed.

Lemma count_sum_insert wc word z :
  count_sum (<[word := Cnt z]> wc) = z + count_sum (delete word wc).
Proof.
  unfold count_sum. rewrite <- insert_delete_eq.
  rewrite map_fold_insert_L; [done|intros; lia|apply lookup_delete_eq].
Qed.

(** The loops write the entries of the words they visit and no other. *)
Lemma add_words_lookup_ne ws w : ∀ wc wc',
  w ∉ ws → add_words ws wc = Done wc' → wc' !! w = wc !! w.
Proof.
  induction ws as [|word rest IH]; intros wc wc' Hn; [by intros [= <-]|].
  apply not_elem_of_cons in Hn as [Hne Hn]. simpl.
  destruct (js_has_own wc word); [|done]. intros H.
  rewrite (IH _ _ Hn H). destruct (wc !! word).
  - by rewrite lookup_insert_ne.
  - by rewrite js_set_lookup_ne.
Qed.

Lemma remove_words_lookup_ne ws w : ∀ wc,
  w ∉ ws → remove_words ws wc !! w = wc !! w.
Proof.
  induction ws as [|word rest IH]; intros wc Hn; [done|].
  apply not_elem_of_cons in Hn as [Hne Hn]. simpl. rewrite IH by done.
  case_decide.
  - by rewrite lookup_delete_ne, js_set_lookup_ne.
  - by rewrite js_set_lookup_ne.
Qed.

(** On words other than ["__proto__"] the add loop counts every occurrence. *)
Lemma add_words_sum ws : ∀ wc wc',
  wf_counts wc → "__proto__"%string ∉ ws → add_words ws wc = Done wc' →
  count_sum wc' = count_sum wc + Z.of_nat (length ws).
Proof.
  induction ws as [|word rest IH]; intros wc wc' Hwf Hn.
  - intros [= <-]. simpl. lia.
  - apply not_elem_of_cons in Hn as [Hne Hn]. simpl.
    destruct (js_has_own wc word); [|done].
    destruct (wf_counts_lookup wc word Hwf) as [E Hpos].
    assert (match wc !! word with
            | Some c => <[word := count_incr c]> wc
            | None => js_set word (Cnt 1) wc
            end = <[word := Cnt (count_at wc word + 1)]> wc) as ->.
    { rewrite E. case_decide as E0; [|done].
      rewrite E0. apply js_set_insert. by left. }
    intros H.
    assert (wf_counts (<[word := Cnt (count_at wc word + 1)]> wc)) as Hwf1
      by (apply wf_counts_insert; [done|lia]).
    rewrite (IH _ _ Hwf1 Hn H).
    rewrite count_sum_insert, (count_sum_delete wc word). lia.
Qed.

Lemma add_words_ordinary ws wc wc' :
  wf_counts wc → "__proto__"%string ∉ ws → add_words ws wc = Done wc' →
  wf_counts wc' ∧
  (∀ w, count_at wc' w = count_at wc w + Z.of_nat (occurrences w ws)) ∧
  count_sum wc' = count_sum wc + Z.of_nat (length ws).
Proof.
  intros Hwf Hn Ha. destruct (add_words_counts ws wc wc' Hwf Ha) as (Hwf' & _ & Hc).
  split; [done|]. split; [|by apply add_words_sum].
  intros w. rewrite Hc. case_decide as Hw; [|done].
  destruct Hw as [-> _]. by rewrite occurrences_not_elem.
Qed.

Lemma remove_words_sum ws : ∀ wc,
  wf_counts wc →
  (∀ w, Z.of_nat (occurrences w ws) ≤ count_at wc w) →
  count_sum (remove_words ws wc) = count_sum wc - Z.of_nat (length ws).
Proof.
  induction ws as [|word rest IH]; intros wc Hwf Hle; [simpl; lia|].
  simpl. destruct (wf_counts_lookup wc word Hwf) as [E Hpos].
  pose proof (Hle word) as Hword. rewrite occurrences_cons, decide_True in Hword by done.
  rewrite decide_False in E by lia.
  rewrite js_set_insert by (right; by rewrite E).
  rewrite E. simpl. rewrite lookup_insert_eq.
  set (wc' := if decide (Some (Cnt (count_at wc word - 1)) = Some (Cnt 0))
              then delete word (<[word := Cnt (count_at wc word - 1)]> wc)
              else <[word := Cnt (count_at wc word - 1)]> wc).
  assert (wf_counts wc' ∧ count_sum wc' = count_sum wc - 1 ∧
          ∀ w, count_at wc' w
               = count_at wc w - (if decide (word = w) then 1 else 0))
    as (Hwf' & Hs' & Hc').
  { unfold wc'. rewrite (count_sum_delete wc word). case_decide as Hz.
    - injection Hz as Hz. rewrite delete_insert_eq.
      split; [by apply wf_counts_delete|]. split; [lia|].
      intros w. rewrite count_at_delete. destruct (decide (word = w)) as [->|]; lia.
    - assert (count_at wc word - 1 ≠ 0) by (intros Hz'; apply Hz; by rewrite Hz').
      split; [apply wf_counts_insert; [done|lia]|]. split.
      + rewrite count_sum_insert. lia.
      + intros w. rewrite count_at_insert.
        destruct (decide (word = w)) as [->|]; lia. }
  rewrite IH; [lia|done|].
  intros w. rewrite Hc'. specialize (Hle w). rewrite occurrences_cons in Hle.
  destruct (decide (word = w)); lia.
Qed.

(** When the table counts every word of the document, the remove loop takes
    every occurrence away. *)
Lemma remove_words_ordinary ws wc :
  wf_counts wc →
  (∀ w, Z.of_nat (occurrences w ws) ≤ count_at wc w) →
  wf_counts (remove_words ws wc) ∧
  (∀ w, count_at (remove_words ws wc) w = count_at wc w - Z.of_nat (occurrences w ws)) ∧
  count_sum (remove_words ws wc) = count_sum wc - Z.of_nat (length ws).
Proof.
  intros Hwf Hle. destruct (remove_words_counts ws wc Hwf) as [Hwf' Hc].
  { intros w. right. apply Hle. }
  split; [done|]. split; [|by apply remove_words_sum].
  intros w. rewrite Hc. case_decide as Hw; [|done].
  destruct Hw as [-> Hnone]. specialize (Hle "__proto__"%string).
  unfold count_at in Hle. rewrite Hnone in Hle. lia.
Qed.
End count_sum_facts.

Section words_ok_facts.
Context (c : corpus).
Implicit Types (a : gmap string N) (T : gmap N table).

Lemma words_ok_add a T d t nd wc' :
  seating_ok a T → words_ok c a T → a !! d = None →
  "__proto__"%string ∉ words_of c d →
  add_words (words_of c d) (word_counts (default (Table 0 (Cnt 0) ∅) (T !! t))) = Done wc' →
  words_ok c (<[d := t]> a)
    (<[t := Table nd
               (count_add (num_words (default (Table 0 (Cnt 0) ∅) (T !! t)))
                          (Some (length (words_of c d))))
               wc']> T).
Proof.
  intros [Ha _] Hw Hd Hp Hadd t' tb. destruct (decide (t' = t)) as [->|Hne].
  - rewrite lookup_insert_eq. intros [= <-]. simpl.
    assert (wf_counts (word_counts (default (Table 0 (Cnt 0) ∅) (T !! t))) ∧
            (∀ w, count_at (word_counts (default (Table 0 (Cnt 0) ∅) (T !! t))) w
                  = seated_sum (λ d, Z.of_nat (occurrences w (words_of c d))) a t) ∧
            num_words (default (Table 0 (Cnt 0) ∅) (T !! t))
            = Cnt (seated_sum (λ d, Z.of_nat (length (words_of c d))) a t) ∧
            num_words (default (Table 0 (Cnt 0) ∅) (T !! t))
            = Cnt (count_sum (word_counts (default (Table 0 (Cnt 0) ∅) (T !! t)))))
      as (Hwf & Hc & Hn & Hs).
    { destruct (T !! t) as [tb0|] eqn:E; simpl; [by apply Hw|].
      assert (∀ d', a !! d' ≠ Some t) as Hv.
      { intros d' Hd'. destruct (Ha _ _ Hd') as [? ?]. congruence. }
      split; [apply wf_counts_empty|].
      split; [intros w; rewrite seated_sum_vacant by done;
              unfold count_at; by rewrite lookup_empty|].
      rewrite seated_sum_vacant by done.
      split; [done|]. unfold count_sum. by rewrite map_fold_empty. }
    destruct (add_words_ordinary _ _ _ Hwf Hp Hadd) as (Hwf' & Hc' & Hs').
    split; [done|]. split; [|split].
    + intros w. rewrite Hc', Hc, seated_sum_insert_fresh, decide_True by done. lia.
    + rewrite Hn, seated_sum_insert_fresh, decide_True by done. simpl. f_equal. lia.
    + rewrite Hs, Hs'. done.
  - rewrite lookup_insert_ne by done. intros E.
    destruct (Hw _ _ E) as (Hwf & Hc & Hn & Hs).
    split; [done|]. split; [|split; [|done]].
    + intros w. rewrite Hc, seated_sum_insert_fresh, decide_False by done. lia.
    + rewrite Hn, seated_sum_insert_fresh, decide_False by done. f_equal; lia.
Qed.

Lemma words_ok_remove a T d t0 tb0 nd :
  words_ok c a T → a !! d = Some t0 → T !! t0 = Some tb0 →
  words_ok c (delete d a)
    (if decide (nd = 0) then delete t0 T
     else <[t0 := Table nd
                    (count_sub (num_words tb0) (Some (length (words_of c d))))
                    (remove_words (words_of c d) (word_counts tb0))]> T).
Proof.
  intros Hw Hd Ht t' tb. destruct (decide (t' = t0)) as [->|Hne].
  - case_decide; [by rewrite lookup_delete_eq|].
    rewrite lookup_insert_eq. intros [= <-]. simpl.
    destruct (Hw _ _ Ht) as (Hwf & Hc & Hn & Hs).
    assert (∀ w, Z.of_nat (occurrences w (words_of c d)) ≤ count_at (word_counts tb0) w)
      as Hle.
    { intros w. rewrite Hc, (seated_sum_delete _ a d t0 t0 Hd), decide_True by done.
      assert (0 ≤ seated_sum (λ d, Z.of_nat (occurrences w (words_of c d)))
                             (delete d a) t0)
        by (apply seated_sum_nonneg; intros; lia).
      lia. }
    destruct (remove_words_ordinary (words_of c d) _ Hwf Hle) as (Hwf' & Hc' & Hs').
    split; [done|]. split; [|split].
    + intros w. rewrite Hc', Hc, (seated_sum_delete _ a d t0 t0 Hd), decide_True by done.
      lia.
    + rewrite Hn, (seated_sum_delete _ a d t0 t0 Hd), decide_True by done.
      simpl. f_equal. lia.
    + rewrite Hs, Hs'. done.
  - intros E. assert (T !! t' = Some tb) as E'.
    { revert E. case_decide; [by rewrite lookup_delete_ne|by rewrite lookup_insert_ne]. }
    destruct (Hw _ _ E') as (Hwf & Hc & Hn & Hs).
    split; [done|]. split; [|split; [|done]].
    + intros w. rewrite Hc, (seated_sum_delete _ a d t0 t' Hd), decide_False by done. lia.
    + rewrite Hn, (seated_sum_delete _ a d t0 t' Hd), decide_False by done. f_equal; lia.
Qed.
End words_ok_facts.

(** ** Documents of an ordinary corpus *)

Section corpus_facts.
Implicit Types (c : corpus).

Lemma corpus_own_elem c d ws :
  NoDup c.*1 → (d, ws) ∈ c → corpus_own c d = Some ws.
Proof.
  induction c as [|[d' ws'] c IH]; intros Hnd Hin; [by apply elem_of_nil in Hin|].
  apply NoDup_cons in Hnd as [Hnotin Hnd]. simpl.
  apply elem_of_cons in Hin as [[= -> ->]|Hin].
  - by rewrite decide_True.
  - rewrite decide_False; [by apply IH|].
    intros ->. apply Hnotin. apply list_elem_of_fmap. by exists (d, ws).
Qed.

Lemma corpus_own_key c d :
  d ∈ c.*1 → ∃ ws, corpus_own c d = Some ws ∧ (d, ws) ∈ c.
Proof.
  induction c as [|[d' ws'] c IH]; intros Hin; [by apply elem_of_nil in Hin|].
  simpl. destruct (decide (d' = d)) as [->|Hne].
  - exists ws'. split; [done|]. by left.
  - simpl in Hin. apply elem_of_cons in Hin as [?|Hin]; [congruence|].
    destruct (IH Hin) as (ws & E & Hel). exists ws. split; [done|]. by right.
Qed.

Lemma ordinary_words ws :
  Forall ordinary_key ws →
  ("__proto__"%string ∉ ws) ∧ ("hasOwnProperty"%string ∉ ws).
Proof.
  intros H. rewrite Forall_forall in H.
  split; intros Hin; by destruct (H _ Hin).
Qed.

(** A document of an ordinary corpus: [corpus[docID]] is its array of words,
    and the identifier and the words are ordinary. *)
Lemma ordinary_corpus_doc c d :
  ordinary_corpus c → d ∈ c.*1 →
  ∃ ws, corpus_own c d = Some ws ∧ corpus_get c d = Words ws ∧
        ordinary_key d ∧ ("__proto__"%string ∉ ws) ∧ ("hasOwnProperty"%string ∉ ws).
Proof.
  intros [Hnd Hord] Hin. destruct (corpus_own_key c d Hin) as (ws & E & Hel).
  exists ws. rewrite Forall_forall in Hord. destruct (Hord _ Hel) as [Hd Hws].
  split; [done|]. split; [by apply corpus_get_own|]. split; [done|].
  by apply ordinary_words.
Qed.
End corpus_facts.

Section coherent_facts.
Context {num : Type}.
Implicit Types (s : state num) (c : corpus) (words : words_value).

Lemma add_doc_well_seated docID words tableID s s' :
  add_doc docID words tableID s = Returned s' →
  docID ≠ "__proto__"%string →
  assignments s !! docID = None →
  well_seated s → well_seated s'.
Proof.
  intros H Hp Hd Hs. unfold well_seated.
  rewrite (add_doc_assignments _ _ _ _ _ H).
  destruct (add_doc_tables _ _ _ _ _ H) as (ws & wc & _ & _ & ->).
  rewrite js_set_insert by by left.
  by apply seating_ok_add.
Qed.

(** On a well-seated state whose [assignments] leaves the method intact the
    remove step returns. *)
Lemma remove_if_seated_returns docID words ws s :
  words_visited words = Some ws →
  assignments s !! "hasOwnProperty"%string = None →
  well_seated s → ∃ s1, remove_if_seated docID words s = Returned s1.
Proof.
  intros Hw Hm [Ha _]. unfold remove_if_seated. rewrite js_has_own_intact by done.
  case_bool_decide as Hd; [|by eexists].
  destruct Hd as [t Hd]. destruct (Ha _ _ Hd) as [tb Ht].
  rewrite (remove_doc_returns _ _ _ _ _ _ Hw Hd Ht). by eexists.
Qed.

Lemma reseats_well_seated docID words s s' :
  docID ≠ "__proto__"%string →
  reseats docID words s s' → well_seated s → well_seated s'.
Proof.
  intros Hp (s1 & t & Hr & Hadd) Hs. unfold well_seated.
  rewrite (add_doc_assignments _ _ _ _ _ Hadd).
  destruct (add_doc_tables _ _ _ _ _ Hadd) as (ws & wc & _ & _ & ->).
  rewrite js_set_insert by by left.
  apply remove_if_seated_inv in Hr
    as [_ [[Hd ->]|(ws0 & t0 & tb0 & _ & Hd & Ht & ->)]].
  - by apply seating_ok_add.
  - cbn [assignments tables set_tables].
    pose proof (seating_ok_remove _ _ docID t0 tb0
                  (count_sub (num_words tb0) (words_length words))
                  (remove_words ws0 (word_counts tb0)) Hs Hd Ht) as Hrem.
    rewrite <- insert_delete_eq.
    destruct (decide (num_docs tb0 - 1 = 0));
      (apply seating_ok_add; [exact Hrem|apply lookup_delete_eq]).
Qed.

Lemma reseats_tables_ok c docID ws s s' :
  corpus_own c docID = Some ws →
  docID ≠ "__proto__"%string → "__proto__"%string ∉ ws →
  reseats docID (Words ws) s s' → tables_ok c s → tables_ok c s'.
Proof.
  intros Hc Hp Hpw Hre [Hs Hw]. split; [by eapply reseats_well_seated|].
  destruct Hre as (s1 & t & Hr & Hadd).
  rewrite (add_doc_assignments _ _ _ _ _ Hadd).
  destruct (add_doc_tables _ _ _ _ _ Hadd) as (ws' & wc & [= <-] & Hwc & ->).
  rewrite js_set_insert by by left.
  assert (words_of c docID = ws) as Hws by (unfold words_of; by rewrite Hc).
  subst ws. cbn [words_length].
  apply remove_if_seated_inv in Hr
    as [_ [[Hd ->]|(ws0 & t0 & tb0 & [= <-] & Hd & Ht & ->)]].
  - by apply words_ok_add.
  - cbn [assignments tables set_tables words_length] in *.
    pose proof (seating_ok_remove _ _ docID t0 tb0
                  (count_sub (num_words tb0) (Some (length (words_of c docID))))
                  (remove_words (words_of c docID) (word_counts tb0)) Hs Hd Ht) as Hrem.
    pose proof (words_ok_remove c _ _ docID t0 tb0 (num_docs tb0 - 1) Hw Hd Ht) as Hwrem.
    rewrite <- insert_delete_eq.
    destruct (decide (num_docs tb0 - 1 = 0));
      (apply words_ok_add; [exact Hrem|exact Hwrem|apply lookup_delete_eq|done|done]).
Qed.
End coherent_facts.

Section intact_facts.
Context {num : Type}.
Implicit Types (s : state num) (c : corpus).

(** [add_doc] never writes [W], [alpha], [beta] or [vocab] and never lowers
    [nextID], whether it returns or throws. *)
Lemma add_doc_parameters docID (words : words_value) tableID s :
  let s' := final_state (add_doc docID words tableID s) in
  (nextID s ≤ nextID s')%N ∧ W s' = W s ∧ alpha s' = alpha s ∧ beta s' = beta s ∧
  vocab s' = vocab s.
Proof.
  unfold add_doc. rewrite add_doc_open_table.
  assert (let s2 := add_doc_open docID tableID s in
          (nextID s ≤ nextID s2)%N ∧ W s2 = W s ∧ alpha s2 = alpha s ∧
          beta s2 = beta s ∧ vocab s2 = vocab s) as H2.
  { unfold add_doc_open. simpl. destruct (tables s !! tableID); simpl;
      split_and!; try done; lia. }
  destruct (words_visited words) as [ws|]; [|exact H2].
  by destruct (add_words ws _).
Qed.

Lemma add_doc_method_intact docID (words : words_value) ws tableID s s' :
  words_visited words = Some ws → "hasOwnProperty"%string ∉ ws →
  docID ≠ "hasOwnProperty"%string →
  add_doc docID words tableID s = Returned s' →
  method_intact s → method_intact s'.
Proof.
  intros Hw Hn Hd H [Ha Ht]. split.
  - rewrite (add_doc_assignments _ _ _ _ _ H). by rewrite js_set_method.
  - destruct (add_doc_tables _ _ _ _ _ H) as (ws' & wc & Hw' & Hwc & ->).
    assert (ws' = ws) as -> by congruence.
    intros t tb. destruct (decide (t = tableID)) as [->|Hne].
    + rewrite lookup_insert_eq. intros [= <-]. simpl.
      rewrite (add_words_lookup_ne _ _ _ _ Hn Hwc).
      destruct (tables s !! tableID) as [tb0|] eqn:E; simpl; [by eapply Ht|done].
    + rewrite lookup_insert_ne by done. apply Ht.
Qed.

Lemma remove_if_seated_intact docID (words : words_value) ws s s1 :
  words_visited words = Some ws → "hasOwnProperty"%string ∉ ws →
  remove_if_seated docID words s = Returned s1 →
  tables_intact (tables s) → tables_intact (tables s1).
Proof.
  intros Hw Hn [_ [[_ ->]|(ws0 & t0 & tb0 & Hw0 & Hd & Ht & ->)]]%remove_if_seated_inv Hs;
    [done|].
  assert (ws0 = ws) as -> by congruence.
  intros t tb. simpl. case_decide.
  - intros [_ E]%lookup_delete_Some. by eapply Hs.
  - destruct (decide (t = t0)) as [->|Hne].
    + rewrite lookup_insert_eq. intros [= <-]. simpl.
      rewrite remove_words_lookup_ne by done. by eapply Hs.
    + rewrite lookup_insert_ne by done. apply Hs.
Qed.

Lemma add_doc_tables_ok c docID ws tableID s s' :
  corpus_own c docID = Some ws →
  docID ≠ "__proto__"%string → "__proto__"%string ∉ ws →
  add_doc docID (Words ws) tableID s = Returned s' →
  assignments s !! docID = None →
  tables_ok c s → tables_ok c s'.
Proof.
  intros Hc Hp Hpw H Hd [Hs Hw]. split; [by eapply add_doc_well_seated|].
  rewrite (add_doc_assignments _ _ _ _ _ H).
  destruct (add_doc_tables _ _ _ _ _ H) as (ws' & wc & [= <-] & Hwc & ->).
  rewrite js_set_insert by by left.
  assert (words_of c docID = ws) as Hws by (unfold words_of; by rewrite Hc).
  subst ws. by apply words_ok_add.
Qed.

(** A complete call on a document of an ordinary corpus keeps the state in
    step with the corpus. *)
Lemma reseats_coherent c docID s s' :
  ordinary_corpus c → docID ∈ c.*1 →
  reseats docID (corpus_get c docID) s s' → coherent c s → coherent c s'.
Proof.
  intros Hord Hin Hre [Hok Hm].
  destruct (ordinary_corpus_doc c docID Hord Hin) as (ws & Hc & Hg & [Hd1 Hd2] & Hp & Hh).
  rewrite Hg in Hre. split; [by eapply reseats_tables_ok|].
  destruct Hre as (s1 & t & Hr & Hadd).
  apply (add_doc_method_intact docID (Words ws) ws t s1 s' eq_refl Hh Hd2 Hadd).
  destruct Hm as [Ha Ht]. split.
  - by rewrite (remove_if_seated_assignments _ _ _ _ Hr).
  - by eapply (remove_if_seated_intact docID (Words ws) ws).
Qed.

Lemma count_words_returns words : ∀ s,
  vocab s !! "hasOwnProperty"%string = None → "hasOwnProperty"%string ∉ words →
  ∃ s0, foldl count_word (Returned s) words = Returned s0 ∧
        vocab s0 !! "hasOwnProperty"%string = None.
Proof.
  induction words as [|word rest IH]; intros s Hv Hn; [by exists s|].
  apply not_elem_of_cons in Hn as [Hne Hn].
  simpl. rewrite js_has_own_intact by done. apply IH; [|done].
  destruct (vocab s !! word); simpl.
  - by rewrite lookup_insert_ne.
  - by rewrite js_set_method.
Qed.

Lemma initialize_loop_coherent c (l : corpus) : ∀ s,
  NoDup l.*1 →
  (∀ e, e ∈ l → corpus_own c e.1 = Some e.2 ∧ ordinary_key e.1 ∧ Forall ordinary_key e.2) →
  (∀ d, d ∈ l.*1 → assignments s !! d = None) →
  coherent c s → vocab s !! "hasOwnProperty"%string = None →
  ∃ s', foldl initialize_step (Returned s) l = Returned s' ∧ coherent c s' ∧
        vocab s' !! "hasOwnProperty"%string = None.
Proof.
  induction l as [|[docID words] l IH]; intros s Hnd Hl Hfresh Hs Hv; [by exists s|].
  change (foldl initialize_step (Returned s) ((docID, words) :: l))
    with (foldl initialize_step (initialize_step (Returned s) (docID, words)) l).
  destruct (Hl (docID, words)) as (Hc & [Hd1 Hd2] & [Hp Hh]%ordinary_words); [by left|].
  simpl in Hc, Hd1, Hd2.
  destruct (count_words_returns words s Hv Hh) as (s0 & E0 & Hv0).
  pose proof (count_vocab_frame words s) as Hf. unfold count_vocab in Hf.
  rewrite E0 in Hf. simpl in Hf. destruct Hf as (Ha & Ht & _ & Hn & _ & _).
  destruct Hs as [[Hseat Hwords] [Hma Hmt]].
  assert (coherent c s0) as Hs0.
  { unfold coherent, tables_ok, well_seated, method_intact. by rewrite Ha, Ht. }
  destruct (add_doc_returns_intact docID (Words words) words (nextID s0) s0 eq_refl Hh)
    as [s1 E1]; [by rewrite Ht|].
  assert (initialize_step (Returned s) (docID, words) = Returned s1) as ->.
  { unfold initialize_step, count_vocab. simpl. rewrite E0. simpl. exact E1. }
  apply NoDup_cons in Hnd as [Hnotin Hnd].
  apply IH; [done| | | |].
  - intros e He. apply Hl. by right.
  - intros d Hin. rewrite (add_doc_assignments _ _ _ _ _ E1), Ha.
    rewrite js_set_lookup_ne; [apply Hfresh; by right|].
    intros ->. by apply Hnotin.
  - destruct Hs0 as [Hok0 Hm0]. split.
    + apply (add_doc_tables_ok c _ _ _ _ _ Hc Hd1 Hp E1); [|done].
      rewrite Ha. apply Hfresh. by left.
    + by apply (add_doc_method_intact docID (Words words) words _ s0 s1 eq_refl Hh Hd2 E1).
  - pose proof (add_doc_parameters docID (Words words) (nextID s0) s0) as Hpar.
    rewrite E1 in Hpar. simpl in Hpar. destruct Hpar as (_ & _ & _ & _ & ->). done.
Qed.

(** On an ordinary corpus [initialize_state] returns, and the state it
    returns is in step with the corpus. *)
Lemma initialize_coherent c (alpha0 beta0 : num) :
  ordinary_corpus c →
  ∃ s, initialize_state c alpha0 beta0 = Returned s ∧ coherent c s.
Proof.
  intros [Hnd Hord].
  destruct (initialize_loop_coherent c c (empty_state alpha0 beta0) Hnd)
    as (s & E & Hs & _); [| | |done|by exists s].
  - intros [d ws] He. rewrite Forall_forall in Hord. destruct (Hord _ He) as [? ?].
    split; [by apply corpus_own_elem|done].
  - done.
  - split; [split; [split|]|split]; simpl; try done;
      intros ? ?; by rewrite lookup_empty.
Qed.
End intact_facts.

Lemma reachable_on_corpus_coherent {num} {ops : Number num} (c : corpus)
    (alpha0 beta0 : num) (s : state num) :
  ordinary_corpus c → reachable_on_corpus c alpha0 beta0 s → coherent c s.
Proof.
  intros Hord.
  induction 1 as [s H|s docID random s' _ IH Hin H|s docID random s' _ IH Hin H].
  - destruct (initialize_coherent c alpha0 beta0 Hord) as (s0 & E & Hs).
    rewrite E in H. by injection H as <-.
  - apply linear_sample_table_reseats in H. by eapply reseats_coherent.
  - apply log_sample_table_reseats in H. by eapply reseats_coherent.
Qed.

(** On a state in step with an ordinary corpus, and for a document of the
    corpus, [sample_table] returns in both modules. *)
Lemma sample_table_returns {num} {ops : Number num} (c : corpus)
    (s : state num) docID random :
  ordinary_corpus c → coherent c s → docID ∈ c.*1 →
  (∃ s', Linear.sample_table docID c random s = Returned s') ∧
  (∃ s', Log.sample_table docID c random s = Returned s').
Proof.
  intros Hord [[Hseat _] [Hma Hmt]] Hin.
  destruct (ordinary_corpus_doc c docID Hord Hin) as (ws & Hc & Hg & _ & _ & Hh).
  assert (words_visited (corpus_get c docID) = Some ws) as Hw by by rewrite Hg.
  destruct (remove_if_seated_returns docID _ ws s Hw Hma Hseat) as [s1 Hr].
  pose proof (remove_if_seated_intact _ _ _ _ _ Hw Hh Hr Hmt) as Hs1.
  split.
  - destruct (linear_sample_table_adds docID c random s ws s1 Hw Hh Hr Hs1) as (t & _ & ->).
    by apply (add_doc_returns_intact docID _ ws).
  - destruct (log_sample_table_adds docID c random s ws s1 Hw Hh Hr Hs1) as (t & _ & ->).
    by apply (add_doc_returns_intact docID _ ws).
Qed.

Lemma example_corpus_ordinary : ordinary_corpus example_corpus.
Proof.
  split.
  - unfold example_corpus. simpl. apply NoDup_cons. split.
    + intros Hin%list_elem_of_singleton. discriminate.
    + apply NoDup_singleton.
  - repeat constructor; done.
Qed.

(** The example state after one reseat of "d1" by the linear module. *)
Lemma example_reseated_reachable :
  let s := final_state
             (Linear.sample_table (ops := R_Number integer_numeral)
                "d1" example_corpus (1/3)%R (example_state 1%R (1/2)%R)) in
  reachable_on_corpus (ops := R_Number integer_numeral) example_corpus 1%R (1/2)%R s.
Proof.
  intros s.
  apply (reach_corpus_linear _ _ _ (example_state 1%R (1/2)%R) "d1" (1/3)%R).
  - apply reach_corpus_init, initialize_example.
  - by left.
  - apply returned_final_state.
    destruct (reseat_d1_example (ops := R_Number integer_numeral) 1%R (1/2)%R (1/3)%R)
      as [(s1 & E & _) _].
    by exists s1.
Qed.

(** X4: on an ordinary corpus (distinct keys, no key and no word named
    ["__proto__"] or ["hasOwnProperty"]), in every state reached from
    [initialize_state] by complete [sample_table] calls on documents of the
    corpus, the statistics of each table are exactly those of the documents
    seated at it: every word count is a positive integer (no NaN, no entry
    left at zero) and equals the number of occurrences of the word in those
    documents, and [num_words] is both the sum of the word counts and the
    total length of those documents. *)
Theorem reachable_word_counts {num} {ops : Number num} (c : corpus)
    (alpha0 beta0 : num) (s : state num) :
  ordinary_corpus c →
  reachable_on_corpus c alpha0 beta0 s →
  ∀ t tb, tables s !! t = Some tb →
    wf_counts (word_counts tb) ∧
    (∀ w, count_at (word_counts tb) w
          = seated_sum (λ d, Z.of_nat (occurrences w (words_of c d)))
                       (assignments s) t) ∧
    num_words tb
    = Cnt (seated_sum (λ d, Z.of_nat (length (words_of c d))) (assignments s) t) ∧
    num_words tb = Cnt (count_sum (word_counts tb)).
Proof.
  intros Hord Hr t tb Ht.
  destruct (reachable_on_corpus_coherent c alpha0 beta0 s Hord Hr) as [[_ Hw] _].
  by apply Hw.
Qed.

Lemma reachable_word_counts_witness :
  let s := final_state
             (Linear.sample_table (ops := R_Number integer_numeral)
                "d1" example_corpus (1/3)%R (example_state 1%R (1/2)%R)) in
  ordinary_corpus example_corpus ∧
  reachable_on_corpus (ops := R_Number integer_numeral) example_corpus 1%R (1/2)%R s ∧
  ∀ t tb, tables s !! t = Some tb → num_words tb = Cnt (count_sum (word_counts tb)).
Proof.
  intros s.
  split; [exact example_corpus_ordinary|].
  split; [exact example_reseated_reachable|].
  intros t tb Ht.
  exact (proj2 (proj2 (proj2
    (reachable_word_counts (ops := R_Number integer_numeral)
       example_corpus 1%R (1/2)%R s
       example_corpus_ordinary example_reseated_reachable t tb Ht)))).
Defined.

(** ** Adding a document and removing it again *)

Lemma table_eta (tb : table) :
  Table (num_docs tb) (num_words tb) (word_counts tb) = tb.
Proof. by destruct tb. Qed.

Lemma count_sub_add (c : count) (n : nat) :
  count_sub (count_add c (Some n)) (Some n) = c.
Proof. destruct c as [z|]; simpl; [|done]. f_equal. lia. Qed.

(** X5: [remove_doc] undoes what [add_doc] did to the tables.  For a document
    not named ["__proto__"] (whose assignment would not be recorded), when
    the table the document is added to is new, or seats at least one
    document and has well-formed word counts, removing the document right
    after an add that returned returns as well and leaves [tables] exactly as
    it was before the add (a table opened by the add is deleted again); the
    assignment stays and [total_docs] stays one higher. *)
Theorem add_doc_then_remove_doc {num} docID ws tableID (s s1 : state num) :
  docID ≠ "__proto__"%string →
  (∀ tb, tables s !! tableID = Some tb →
         num_docs tb ≠ 0 ∧ wf_counts (word_counts tb)) →
  add_doc docID (Words ws) tableID s = Returned s1 →
  ∃ s2, remove_doc docID (Words ws) s1 = Returned s2 ∧
        tables s2 = tables s ∧
        assignments s2 = <[docID := tableID]> (assignments s) ∧
        total_docs s2 = total_docs s + 1.
Proof.
  intros Hp Hwf Hadd.
  pose proof (add_doc_assignments _ _ _ _ _ Hadd) as Ha.
  rewrite js_set_insert in Ha by by left.
  destruct (add_doc_tables _ _ _ _ _ Hadd) as (ws' & wc & [= <-] & Hwc & Ht).
  pose proof (add_doc_total_docs _ _ _ _ _ Hadd) as Hd.
  rewrite (remove_doc_returns docID (Words ws) ws s1 tableID
             (Table (num_docs (default (Table 0 (Cnt 0) ∅) (tables s !! tableID)) + 1)
                    (count_add (num_words (default (Table 0 (Cnt 0) ∅) (tables s !! tableID)))
                               (Some (length ws)))
                    wc));
    [|done|by rewrite Ha, lookup_insert_eq|by rewrite Ht, lookup_insert_eq].
  eexists. split; [done|].
  cbn [tables assignments total_docs set_tables num_docs num_words word_counts words_length].
  split; [|by split].
  rewrite Ht. rewrite count_sub_add.
  destruct (tables s !! tableID) as [tb|] eqn:E;
    cbn [default from_option id num_docs num_words word_counts] in *.
  - destruct (Hwf tb eq_refl) as [Hn Hw]. unfold Datatypes.id in *.
    rewrite decide_False by lia. rewrite insert_insert_eq.
    rewrite (remove_add_words ws (word_counts tb) wc Hw Hwc).
    replace (num_docs tb + 1 - 1) with (num_docs tb) by lia.
    rewrite table_eta. by apply insert_id.
  - rewrite decide_True by lia. rewrite delete_insert_eq. by apply delete_id.
Qed.

Lemma add_doc_then_remove_doc_witness :
  let s := State (num := R) {["d2" := 0%N]} {[0%N := Table 1 (Cnt 2) {["a" := Cnt 2]}]}
                 1 1%N 2 1%R 1%R {["a" := 2]} in
  let s1 := final_state (add_doc "d1" (Words ["a"; "b"]) 0%N s) in
  ("d1" : string) ≠ "__proto__"%string ∧
  (∀ tb, tables s !! 0%N = Some tb → num_docs tb ≠ 0 ∧ wf_counts (word_counts tb)) ∧
  add_doc "d1" (Words ["a"; "b"]) 0%N s = Returned s1 ∧
  ∃ s2, remove_doc "d1" (Words ["a"; "b"]) s1 = Returned s2 ∧
        tables s2 = tables s ∧
        assignments s2 = <[("d1" : string) := 0%N]> (assignments s) ∧
        total_docs s2 = total_docs s + 1.
Proof.
  intros s s1.
  assert (∀ tb, tables s !! 0%N = Some tb →
                num_docs tb ≠ 0 ∧ wf_counts (word_counts tb)) as Hwf.
  { intros tb [= <-]. split; [done|exact wf_counts_a2]. }
  split; [done|]. split; [exact Hwf|]. split; [reflexivity|].
  apply (add_doc_then_remove_doc "d1" ["a"; "b"] 0%N s s1 ltac:(done) Hwf). reflexivity.
Defined.

(** ** Table identifiers *)

Section ids_below_next_facts.
Context {num : Type}.
Implicit Types (s : state num).

Lemma add_doc_nextID docID (words : words_value) tableID s s' :
  add_doc docID words tableID s = Returned s' →
  nextID s' = match tables s !! tableID with
              | Some _ => nextID s
              | None => N.succ (nextID s)
              end.
Proof.
  intros (ws & wc & _ & _ & ->)%add_doc_inv. unfold add_doc_open; simpl.
  by destruct (tables s !! tableID).
Qed.

Lemma remove_if_seated_frame docID (words : words_value) s s1 :
  remove_if_seated docID words s = Returned s1 →
  nextID s1 = nextID s ∧ W s1 = W s ∧ alpha s1 = alpha s ∧ beta s1 = beta s ∧
  vocab s1 = vocab s ∧ ∀ t, is_Some (tables s1 !! t) → is_Some (tables s !! t).
Proof.
  intros [_ [[_ ->]|(ws & t & tb & _ & Ha & Ht & ->)]]%remove_if_seated_inv; [done|].
  simpl. split_and!; try done. intros t'. case_decide.
  - rewrite lookup_delete_is_Some. by intros [_ ?].
  - destruct (decide (t' = t)) as [->|Hne]; [by rewrite Ht|].
    by rewrite lookup_insert_ne.
Qed.

Lemma add_doc_ids_below_next docID (words : words_value) tableID s s' :
  is_Some (tables s !! tableID) ∨ tableID = nextID s →
  add_doc docID words tableID s = Returned s' →
  ids_below_next s → ids_below_next s'.
Proof.
  intros Hpick H [Ht Ha].
  assert (nextID s ≤ nextID s' ∧ tableID < nextID s')%N as [Hle Hlt].
  { rewrite (add_doc_nextID _ _ _ _ _ H).
    destruct (tables s !! tableID) as [tb|] eqn:E.
    - split; [lia|]. apply Ht. by rewrite E.
    - destruct Hpick as [[? ?]| ->]; [done|]. lia. }
  split.
  - intros t. destruct (add_doc_tables _ _ _ _ _ H) as (ws & wc & _ & _ & ->).
    destruct (decide (t = tableID)) as [->|Hne]; [done|].
    rewrite lookup_insert_ne by done. intros Hin%Ht. lia.
  - intros d t. rewrite (add_doc_assignments _ _ _ _ _ H).
    destruct (decide (d = docID)) as [->|Hne].
    + rewrite js_set_lookup. case_decide; [done|]. by intros [= <-].
    + rewrite js_set_lookup_ne by done. intros Hin%Ha. lia.
Qed.

Lemma reseats_at_ids_below_next docID (words : words_value) t s s1 s' :
  reseats_at docID words t s s1 s' → ids_below_next s → ids_below_next s'.
Proof.
  intros (Hr & Hpick & Hadd) [Ht Ha].
  destruct (remove_if_seated_frame _ _ _ _ Hr) as (Hn & _ & _ & _ & _ & Hsub).
  apply (add_doc_ids_below_next _ _ _ _ _ Hpick Hadd). split.
  - intros t' Hin. rewrite Hn. by apply Ht, Hsub.
  - intros d t'. rewrite Hn, (remove_if_seated_assignments _ _ _ _ Hr). apply Ha.
Qed.

Lemma initialize_ids_below_next (c : corpus) alpha0 beta0 s :
  initialize_state c alpha0 beta0 = Returned s → ids_below_next s.
Proof.
  intros H.
  apply (initialize_loop_invariant ids_below_next c) with (s := empty_state alpha0 beta0).
  - intros s1 s0 Ha Ht _ Hn Hs. unfold ids_below_next. by rewrite Ha, Ht, Hn.
  - intros docID ws s1 s2. apply add_doc_ids_below_next. by right.
  - exact H.
  - split; [intros t|intros d t]; simpl; rewrite lookup_empty; [by intros [? ?]|done].
Qed.
End ids_below_next_facts.

(** X6: table identifiers are never reused.  In every state reached from
    [initialize_state] by complete [sample_table] calls, every table of
    [tables] and every table named in [assignments] has an identifier below
    [nextID]; so the identifier [nextID] offered for a new table is that of no
    live table. *)
Theorem reachable_ids_below_nextID {num} {ops : Number num} (c : corpus)
    (alpha0 beta0 : num) (s : state num) :
  reachable c alpha0 beta0 s →
  (∀ t, is_Some (tables s !! t) → (t < nextID s)%N) ∧
  (∀ d t, assignments s !! d = Some t → (t < nextID s)%N) ∧
  tables s !! nextID s = None.
Proof.
  intros Hr. cut (ids_below_next s).
  { intros [Ht Ha]. split; [done|]. split; [done|].
    apply eq_None_not_Some. intros Hin%Ht. lia. }
  induction Hr as [s H|s docID random s' _ IH H|s docID random s' _ IH H].
  - by eapply initialize_ids_below_next.
  - apply linear_sample_table_reseats_at in H as (t & s1 & H).
    by eapply reseats_at_ids_below_next.
  - apply log_sample_table_reseats_at in H as (t & s1 & H).
    by eapply reseats_at_ids_below_next.
Qed.

Lemma reachable_ids_below_nextID_witness :
  reachable (ops := R_Number integer_numeral) example_corpus 1%R (1/2)%R
            (example_state 1%R (1/2)%R) ∧
  tables (example_state 1%R (1/2)%R) !! nextID (example_state 1%R (1/2)%R) = None.
Proof.
  split; [apply reach_init, initialize_example|].
  exact (proj2 (proj2
    (reachable_ids_below_nextID (ops := R_Number integer_numeral)
       example_corpus 1%R (1/2)%R (example_state 1%R (1/2)%R)
       (reach_init _ _ _ _ (initialize_example _ _))))).
Defined.

Section call_frame.
Context {num : Type} {ops : Number num}.
Implicit Types (s : state num) (c : corpus).

(** Whatever a call does between the remove step and the add step, it
    leaves the state that the remove step left. *)
Lemma linear_sample_table_stages docID c random s :
  (∃ s1 t, remove_if_seated docID (corpus_get c docID) s = Returned s1 ∧
           Linear.sample_table docID c random s = add_doc docID (corpus_get c docID) t s1) ∨
  (∃ s1, remove_if_seated docID (corpus_get c docID) s = Returned s1 ∧
         Linear.sample_table docID c random s = Thrown s1) ∨
  Linear.sample_table docID c random s = Thrown s.
Proof.
  unfold Linear.sample_table.
  destruct (remove_if_seated docID (corpus_get c docID) s) as [s1|s1] eqn:Hr; simpl.
  - destruct (Linear.unnormalized_probabilities _ s1) as [up|];
      [|right; left; by exists s1].
    destruct (sample up random) as [t|]; [|right; left; by exists s1].
    left. by exists s1, t.
  - right. right. by rewrite (remove_if_seated_thrown _ _ _ _ Hr).
Qed.

Lemma log_sample_table_stages docID c random s :
  (∃ s1 t, remove_if_seated docID (corpus_get c docID) s = Returned s1 ∧
           Log.sample_table docID c random s = add_doc docID (corpus_get c docID) t s1) ∨
  (∃ s1, remove_if_seated docID (corpus_get c docID) s = Returned s1 ∧
         Log.sample_table docID c random s = Thrown s1) ∨
  Log.sample_table docID c random s = Thrown s.
Proof.
  unfold Log.sample_table.
  destruct (remove_if_seated docID (corpus_get c docID) s) as [s1|s1] eqn:Hr; simpl.
  - destruct (Log.log_un_ps _ s1) as [l|];
      [|right; left; by exists s1].
    destruct (log_sample l random) as [t|]; [|right; left; by exists s1].
    left. by exists s1, t.
  - right. right. by rewrite (remove_if_seated_thrown _ _ _ _ Hr).
Qed.

Lemma stages_frame docID (words : words_value) s (o : outcome num) :
  (∃ s1 t, remove_if_seated docID words s = Returned s1 ∧ o = add_doc docID words t s1) ∨
  (∃ s1, remove_if_seated docID words s = Returned s1 ∧ o = Thrown s1) ∨
  o = Thrown s →
  (nextID s ≤ nextID (final_state o))%N ∧ W (final_state o) = W s ∧
  alpha (final_state o) = alpha s ∧ beta (final_state o) = beta s ∧
  vocab (final_state o) = vocab s.
Proof.
  intros [(s1 & t & Hr & ->)|[(s1 & Hr & ->)| ->]].
  - destruct (remove_if_seated_frame _ _ _ _ Hr) as (Hn & HW & Hal & Hbe & Hv & _).
    destruct (add_doc_parameters docID words t s1) as (Hn' & HW' & Hal' & Hbe' & Hv').
    split_and!; [lia|congruence..].
  - destruct (remove_if_seated_frame _ _ _ _ Hr) as (Hn & HW & Hal & Hbe & Hv & _).
    simpl. split_and!; [lia|congruence..].
  - simpl. split_and!; [lia|done..].
Qed.

(** X7: whatever the state, the document and the draw, and whether it returns
    or throws, a [sample_table] call of either module never lowers [nextID]
    and never changes [W], [alpha], [beta] or [vocab]. *)
Theorem sample_table_frame c docID random s :
  let s1 := final_state (Linear.sample_table docID c random s) in
  let s2 := final_state (Log.sample_table docID c random s) in
  ((nextID s ≤ nextID s1)%N ∧ W s1 = W s ∧ alpha s1 = alpha s ∧ beta s1 = beta s ∧
   vocab s1 = vocab s) ∧
  ((nextID s ≤ nextID s2)%N ∧ W s2 = W s ∧ alpha s2 = alpha s ∧ beta s2 = beta s ∧
   vocab s2 = vocab s).
Proof.
  split.
  - apply (stages_frame docID (corpus_get c docID)), linear_sample_table_stages.
  - apply (stages_frame docID (corpus_get c docID)), log_sample_table_stages.
Qed.
End call_frame.

(** ** Documents and tables *)

Lemma docs_sum_delete (T : gmap N table) t tb :
  T !! t = Some tb →
  map_fold (λ (_ : N) tb n, num_docs tb + n) 0 T
  = num_docs tb + map_fold (λ (_ : N) tb n, num_docs tb + n) 0 (delete t T).
Proof.
  intros E. rewrite <- (insert_delete_id T t tb E) at 1.
  rewrite map_fold_insert_L; [done|intros; lia|apply lookup_delete_eq].
Qed.

Lemma docs_sum_insert (T : gmap N table) t tb :
  map_fold (λ (_ : N) tb n, num_docs tb + n) 0 (<[t := tb]> T)
  = num_docs tb + map_fold (λ (_ : N) tb n, num_docs tb + n) 0 (delete t T).
Proof.
  rewrite <- insert_delete_eq.
  rewrite map_fold_insert_L; [done|intros; lia|apply lookup_delete_eq].
Qed.

(** With the seating in order, the tables seat as many documents as
    [assignments] has entries. *)
Lemma seating_ok_docs (a : gmap string N) : ∀ T : gmap N table,
  seating_ok a T →
  map_fold (λ (_ : N) tb n, num_docs tb + n) 0 T = Z.of_nat (size a).
Proof.
  induction a as [|d t a Hd IH] using map_ind; intros T Hok.
  - rewrite map_size_empty. destruct Hok as [_ Hb].
    induction T as [|t tb T Ht IHT] using map_ind; [by rewrite map_fold_empty|].
    rewrite map_fold_insert_L; [|intros; lia|done].
    rewrite IHT.
    + rewrite (Hb t tb) by apply lookup_insert_eq.
      unfold seated_at. by rewrite map_filter_empty, map_size_empty.
    + intros t' tb' E. apply Hb. rewrite lookup_insert_ne; [done|]. congruence.
  - destruct (proj1 Hok d t (lookup_insert_eq _ _ _)) as [tb Ht].
    pose proof (seating_ok_remove _ _ d t tb (Cnt 0) ∅ Hok (lookup_insert_eq _ _ _) Ht)
      as Hrem.
    rewrite delete_insert_eq, (delete_id a d Hd) in Hrem.
    apply IH in Hrem. rewrite map_size_insert_None by done.
    rewrite (docs_sum_delete T t tb Ht).
    destruct (decide (num_docs tb - 1 = 0)) as [Hz|Hz].
    + rewrite Hrem. lia.
    + rewrite docs_sum_insert in Hrem. simpl in Hrem. lia.
Qed.

(** X8: the part of conservation that the code keeps.  On an ordinary corpus
    (distinct keys, no key and no word named ["__proto__"] or
    ["hasOwnProperty"]), in every state reached by complete [sample_table]
    calls on documents of the corpus, the sum of [num_docs] over the tables
    equals the number of entries of [assignments], and each table's
    [num_docs] is the number of documents assigned to it. *)
Theorem reachable_docs_in_tables {num} {ops : Number num} (c : corpus)
    (alpha0 beta0 : num) (s : state num) :
  ordinary_corpus c →
  reachable_on_corpus c alpha0 beta0 s →
  docs_in_tables s = Z.of_nat (size (assignments s)) ∧
  ∀ t tb, tables s !! t = Some tb → num_docs tb = seated_at (assignments s) t.
Proof.
  intros Hord Hr.
  destruct (reachable_on_corpus_coherent c alpha0 beta0 s Hord Hr) as [[Hs _] _].
  split; [by apply seating_ok_docs|]. apply Hs.
Qed.

Lemma reachable_docs_in_tables_witness :
  let s := final_state
             (Linear.sample_table (ops := R_Number integer_numeral)
                "d1" example_corpus (1/3)%R (example_state 1%R (1/2)%R)) in
  ordinary_corpus example_corpus ∧
  reachable_on_corpus (ops := R_Number integer_numeral) example_corpus 1%R (1/2)%R s ∧
  docs_in_tables s = Z.of_nat (size (assignments s)).
Proof.
  intros s.
  split; [exact example_corpus_ordinary|].
  split; [exact example_reseated_reachable|].
  exact (proj1
    (reachable_docs_in_tables (ops := R_Number integer_numeral)
       example_corpus 1%R (1/2)%R s example_corpus_ordinary example_reseated_reachable)).
Defined.

(** ** Calls that return and calls that throw *)

(** X9: on an ordinary corpus, on every state reached by complete
    [sample_table] calls on documents of the corpus, and for every document
    of the corpus, [sample_table] returns, in the linear module and in the
    log module, whatever the draw: it never throws there. *)
Theorem sample_table_returns_on_reachable {num} {ops : Number num} (c : corpus)
    (alpha0 beta0 : num) (s : state num) docID random :
  ordinary_corpus c →
  reachable_on_corpus c alpha0 beta0 s →
  docID ∈ c.*1 →
  (∃ s', Linear.sample_table docID c random s = Returned s') ∧
  (∃ s', Log.sample_table docID c random s = Returned s').
Proof.
  intros Hord Hr Hin. apply sample_table_returns; [done| |done].
  by eapply reachable_on_corpus_coherent.
Qed.

Lemma sample_table_returns_on_reachable_witness :
  let s := final_state
             (Linear.sample_table (ops := R_Number integer_numeral)
                "d1" example_corpus (1/3)%R (example_state 1%R (1/2)%R)) in
  ordinary_corpus example_corpus ∧
  reachable_on_corpus (ops := R_Number integer_numeral) example_corpus 1%R (1/2)%R s ∧
  ("d2" : string) ∈ example_corpus.*1 ∧
  ∃ s', Log.sample_table (ops := R_Number integer_numeral)
          "d2" example_corpus (1/3)%R s = Returned s'.
Proof.
  intros s.
  assert (("d2" : string) ∈ example_corpus.*1) as Hin by (right; left).
  split; [exact example_corpus_ordinary|].
  split; [exact example_reseated_reachable|]. split; [exact Hin|].
  exact (proj2
    (sample_table_returns_on_reachable (ops := R_Number integer_numeral)
       example_corpus 1%R (1/2)%R s "d2" (1/3)%R
       example_corpus_ordinary example_reseated_reachable Hin)).
Defined.

Lemma sample_table_thrown_unchanged {num} {ops : Number num}
    (c : corpus) docID random (s s' : state num) :
  tables_intact (tables s) →
  (∀ ws, words_visited (corpus_get c docID) = Some ws → "hasOwnProperty"%string ∉ ws) →
  Linear.sample_table docID c random s = Thrown s' ∨
  Log.sample_table docID c random s = Thrown s' →
  s' = s.
Proof.
  intros Hs Hws H.
  destruct (words_visited (corpus_get c docID)) as [ws|] eqn:Hw.
  - specialize (Hws ws eq_refl).
    destruct (remove_if_seated docID (corpus_get c docID) s) as [s1|s1] eqn:Hr.
    + pose proof (remove_if_seated_intact _ _ _ _ _ Hw Hws Hr Hs) as Hs1.
      destruct (linear_sample_table_adds docID c random s ws s1 Hw Hws Hr Hs1)
        as (t & _ & Ht).
      destruct (log_sample_table_adds docID c random s ws s1 Hw Hws Hr Hs1)
        as (t' & _ & Ht').
      destruct (add_doc_returns_intact docID _ ws t s1 Hw Hws Hs1) as [s2 E].
      destruct (add_doc_returns_intact docID _ ws t' s1 Hw Hws Hs1) as [s2' E'].
      rewrite Ht, Ht', E, E' in H. by destruct H.
    + apply remove_if_seated_thrown in Hr as Heq. subst s1.
      unfold Linear.sample_table, Log.sample_table in H. rewrite Hr in H.
      simpl in H. destruct H as [[= <-]|[= <-]]; done.
  - assert (corpus_get c docID = Undefined) as Hc
      by (by destruct (corpus_get c docID)).
    destruct (sample_table_undefined_words c docID random s Hc) as [E1 E2].
    rewrite E1, E2 in H. destruct H as [[= <-]|[= <-]]; done.
Qed.

(** X10: where nothing shadows [hasOwnProperty] (no table counts a word of
    that name and the document has no such word), a [sample_table] call that
    throws has written nothing: whatever else the state is (also one whose
    assignments name a missing table), the state a throwing call leaves is
    the state it was given. *)
Theorem sample_table_throw_writes_nothing {num} {ops : Number num}
    (c : corpus) docID random (s s' : state num) :
  tables_intact (tables s) →
  (∀ ws, words_visited (corpus_get c docID) = Some ws → "hasOwnProperty"%string ∉ ws) →
  Linear.sample_table docID c random s = Thrown s' ∨
  Log.sample_table docID c random s = Thrown s' →
  s' = s.
Proof. apply sample_table_thrown_unchanged. Qed.

Lemma sample_table_throw_writes_nothing_witness :
  let s := State (num := R) {["d1" := 7%N]} {[0%N := Table 1 (Cnt 2) {["a" := Cnt 2]}]}
                 1 1%N 2 1%R 1%R {["a" := 2]} in
  tables_intact (tables s) ∧
  (∀ ws, words_visited (corpus_get example_corpus "d1") = Some ws →
         "hasOwnProperty"%string ∉ ws) ∧
  (Linear.sample_table (ops := R_Number integer_numeral) "d1" example_corpus (1/2)%R s
   = Thrown s ∨
   Log.sample_table (ops := R_Number integer_numeral) "d1" example_corpus (1/2)%R s
   = Thrown s) ∧
  s = s.
Proof.
  intros s.
  assert (tables_intact (tables s)) as Hs.
  { intros t tb. simpl. by intros [_ <-]%lookup_singleton_Some. }
  assert (∀ ws, words_visited (corpus_get example_corpus "d1") = Some ws →
                "hasOwnProperty"%string ∉ ws) as Hws.
  { intros ws [= <-]. exact not_elem_of_a_b. }
  assert (Linear.sample_table (ops := R_Number integer_numeral)
            "d1" example_corpus (1/2)%R s = Thrown s) as H by reflexivity.
  split; [exact Hs|]. split; [exact Hws|]. split; [by left|].
  apply (sample_table_throw_writes_nothing (ops := R_Number integer_numeral)
           example_corpus "d1" (1/2)%R s s Hs Hws). by left.
Defined.

(** ** A corpus of one document *)

(** The word counts of a table that holds the document [ws] alone. *)
Lemma add_words_alone ws wc :
  "__proto__"%string ∉ ws → add_words ws ∅ = Done wc →
  wf_counts wc ∧ ∀ w, count_at wc w = Z.of_nat (occurrences w ws).
Proof.
  intros Hp Ha.
  destruct (add_words_ordinary ws ∅ wc wf_counts_empty Hp Ha) as (Hwf & Hc & _).
  split; [done|]. intros w. rewrite Hc. unfold count_at. by rewrite lookup_empty.
Qed.

Section singleton.
Context {num : Type} {ops : Number num}.
Context (docID : string) (ws : list string).
Hypothesis docID_ordinary : ordinary_key docID.
Hypothesis ws_ordinary : Forall ordinary_key ws.

Lemma singleton_state_reseats (s s' : state num) t nw wc :
  assignments s = {[docID := t]} →
  tables s = {[t := Table 1 nw wc]} →
  reseats docID (Words ws) s s' →
  ∃ t' wc', assignments s' = {[docID := t']} ∧
            tables s' = {[t' := Table 1 (Cnt (Z.of_nat (length ws))) wc']} ∧
            wf_counts wc' ∧ ∀ w, count_at wc' w = Z.of_nat (occurrences w ws).
Proof using docID_ordinary ws_ordinary.
  intros Ha Ht (s1 & t' & Hr & Hadd).
  destruct docID_ordinary as [Hp _]. destruct (ordinary_words ws ws_ordinary) as [Hpw _].
  apply remove_if_seated_inv in Hr
    as [_ [[Hd _]|(ws0 & t0 & tb0 & _ & Hd & Htb & ->)]].
  { rewrite Ha, lookup_singleton_eq in Hd. done. }
  rewrite Ha, lookup_singleton_eq in Hd. injection Hd as <-.
  rewrite Ht, lookup_singleton_eq in Htb. injection Htb as <-.
  pose proof (add_doc_assignments _ _ _ _ _ Hadd) as Ha'.
  destruct (add_doc_tables _ _ _ _ _ Hadd) as (ws' & wc' & [= <-] & Hwc & Ht').
  cbn [assignments tables set_tables num_docs] in Ha', Ht', Hwc.
  rewrite decide_True in Ht', Hwc by done.
  rewrite Ht, delete_singleton_eq, lookup_empty in Ht', Hwc.
  cbn [default from_option num_docs num_words word_counts count_add words_length]
    in Ht', Hwc.
  exists t', wc'. split_and!.
  - rewrite Ha', Ha, js_set_insert by by left. apply insert_singleton_eq.
  - rewrite Ht'. by rewrite insert_empty.
  - by apply (add_words_alone ws).
  - by apply (add_words_alone ws).
Qed.
End singleton.

(** X11: reseating the document of a one-document corpus always brings it
    back to a table of its own.  For an ordinary document (neither its
    identifier nor a word of it is ["__proto__"] or ["hasOwnProperty"]),
    every state reached by complete [sample_table] calls on it has one
    assignment and one table, holding exactly that document: [num_docs] is
    1, [num_words] is the length of the document, and the word counts are
    well formed and count each word as often as it occurs in the document;
    only the identifier of the table can change. *)
Theorem singleton_corpus_reseat {num} {ops : Number num}
    (docID : string) (ws : list string) (alpha0 beta0 : num) (s : state num) :
  ordinary_key docID → Forall ordinary_key ws →
  reachable_on_corpus [(docID, ws)] alpha0 beta0 s →
  ∃ t wc, assignments s = {[docID := t]} ∧
          tables s = {[t := Table 1 (Cnt (Z.of_nat (length ws))) wc]} ∧
          wf_counts wc ∧ ∀ w, count_at wc w = Z.of_nat (occurrences w ws).
Proof.
  intros docID_ordinary ws_ordinary.
  assert (∀ d, d ∈ [(docID, ws)].*1 → corpus_get [(docID, ws)] d = Words ws ∧ d = docID)
    as Hdoc.
  { intros d Hin. simpl in Hin. apply list_elem_of_singleton in Hin as ->.
    split; [|done]. unfold corpus_get. simpl. by rewrite decide_True. }
  induction 1 as [s H|s d random s' _ (t & wc & Ha & Ht & _) Hin H
                     |s d random s' _ (t & wc & Ha & Ht & _) Hin H].
  - destruct docID_ordinary as [Hp _]. destruct (ordinary_words ws ws_ordinary) as [Hpw _].
    unfold initialize_state in H. cbn [foldl] in H.
    apply initialize_step_inv in H as (s0 & _ & Ea & Et & _ & _ & _ & _ & H).
    cbn [fst snd empty_state nextID assignments tables] in *.
    pose proof (add_doc_assignments _ _ _ _ _ H) as Ha.
    destruct (add_doc_tables _ _ _ _ _ H) as (ws' & wc & [= <-] & Hwc & Ht).
    rewrite Et, lookup_empty in Ht, Hwc. rewrite Ea in Ha.
    cbn [default from_option num_docs num_words word_counts count_add words_length]
      in Ht, Hwc.
    exists 0%N, wc. split_and!.
    + rewrite Ha, js_set_insert by by left. by rewrite insert_empty.
    + rewrite Ht. by rewrite insert_empty.
    + by apply (add_words_alone ws).
    + by apply (add_words_alone ws).
  - apply linear_sample_table_reseats in H.
    destruct (Hdoc d Hin) as [Hg ->]. rewrite Hg in H.
    by eapply (singleton_state_reseats docID ws).
  - apply log_sample_table_reseats in H.
    destruct (Hdoc d Hin) as [Hg ->]. rewrite Hg in H.
    by eapply (singleton_state_reseats docID ws).
Qed.

Lemma singleton_corpus_reseat_witness :
  let c : corpus := [("d1", ["a"; "b"])]%string in
  let s := final_state (initialize_state c 1%R 1%R) in
  ordinary_key "d1" ∧ Forall ordinary_key ["a"; "b"]%string ∧
  reachable_on_corpus (ops := R_Number integer_numeral) c 1%R 1%R s ∧
  ∃ t wc, assignments s = {["d1" := t]} ∧
          tables s = {[t := Table 1 (Cnt (Z.of_nat (length ["a"; "b"]%string))) wc]} ∧
          wf_counts wc ∧ ∀ w, count_at wc w = Z.of_nat (occurrences w ["a"; "b"]%string).
Proof.
  intros c s.
  assert (ordinary_key "d1") as Hd by done.
  assert (Forall ordinary_key ["a"; "b"]%string) as Hw by (repeat constructor; done).
  assert (reachable_on_corpus (ops := R_Number integer_numeral) c 1%R 1%R s)
    as Hr by (apply reach_corpus_init; reflexivity).
  split; [exact Hd|]. split; [exact Hw|]. split; [exact Hr|].
  exact (singleton_corpus_reseat (ops := R_Number integer_numeral)
           "d1" ["a"; "b"]%string 1%R 1%R s Hd Hw Hr).
Defined.

(** ** What [initialize_state] builds *)

Section initialize_layout.
Context {num : Type}.
Implicit Types (s : state num).

Lemma initialize_step_layout docID ws s s1 :
  docID ≠ "__proto__"%string → "__proto__"%string ∉ ws →
  tables s !! nextID s = None →
  initialize_step (Returned s) (docID, ws) = Returned s1 →
  nextID s1 = N.succ (nextID s) ∧
  total_docs s1 = total_docs s + 1 ∧
  assignments s1 = <[docID := nextID s]> (assignments s) ∧
  ∃ wc, tables s1 = <[nextID s := Table 1 (Cnt (Z.of_nat (length ws))) wc]> (tables s) ∧
        wf_counts wc ∧ ∀ w, count_at wc w = Z.of_nat (occurrences w ws).
Proof.
  intros Hp Hpw Hfree (s0 & _ & Ha & Ht & Hd & Hn & _ & _ & H)%initialize_step_inv.
  cbn [fst snd] in H.
  pose proof (add_doc_nextID _ _ _ _ _ H) as Hn1.
  pose proof (add_doc_total_docs _ _ _ _ _ H) as Hd1.
  pose proof (add_doc_assignments _ _ _ _ _ H) as Ha1.
  destruct (add_doc_tables _ _ _ _ _ H) as (ws' & wc & [= <-] & Hwc & Ht1).
  rewrite Ht, Hfree in Hn1, Hwc, Ht1. rewrite Hn in Hn1. rewrite Ha in Ha1.
  cbn [default from_option num_docs num_words word_counts count_add words_length]
    in Ht1, Hwc.
  split; [done|]. split; [lia|]. split; [by rewrite Ha1, js_set_insert by by left|].
  exists wc. split; [done|]. by apply (add_words_alone ws).
Qed.

Lemma initialize_loop_layout (l : corpus) : ∀ s s',
  NoDup l.*1 →
  (∀ e, e ∈ l → e.1 ≠ "__proto__"%string ∧ "__proto__"%string ∉ e.2) →
  (∀ d, d ∈ l.*1 → assignments s !! d = None) →
  (∀ t, (nextID s ≤ t)%N → tables s !! t = None) →
  foldl initialize_step (Returned s) l = Returned s' →
  nextID s' = (nextID s + N.of_nat (length l))%N ∧
  total_docs s' = total_docs s + Z.of_nat (length l) ∧
  (∀ t, (nextID s' ≤ t)%N → tables s' !! t = None) ∧
  (∀ d, d ∉ l.*1 → assignments s' !! d = assignments s !! d) ∧
  (∀ t, (t < nextID s)%N → tables s' !! t = tables s !! t) ∧
  ∀ i d ws, l !! i = Some (d, ws) →
    assignments s' !! d = Some (nextID s + N.of_nat i)%N ∧
    ∃ wc, tables s' !! (nextID s + N.of_nat i)%N
          = Some (Table 1 (Cnt (Z.of_nat (length ws))) wc) ∧
          wf_counts wc ∧ ∀ w, count_at wc w = Z.of_nat (occurrences w ws).
Proof.
  induction l as [|[docID words] l IH]; intros s s' Hnd Hl Hfresh Hfree.
  - intros [= <-]. simpl. split_and!; try done; lia.
  - change (foldl initialize_step (Returned s) ((docID, words) :: l))
      with (foldl initialize_step (initialize_step (Returned s) (docID, words)) l).
    destruct (initialize_step (Returned s) (docID, words)) as [s1|s1] eqn:E1;
      [|by rewrite initialize_loop_thrown].
    destruct (Hl (docID, words)) as [Hp Hpw]; [by left|]. simpl in Hp, Hpw.
    destruct (initialize_step_layout _ _ _ _ Hp Hpw (Hfree _ (N.le_refl _)) E1)
      as (Hn1 & Hd1 & Ha1 & wc1 & Ht1 & Hwf1 & Hc1).
    apply NoDup_cons in Hnd as [Hnotin Hnd]. intros H.
    destruct (IH s1 s' Hnd) as (Hn & Hd & Hbeyond & Ha & Ht & Hat); [| | |done|].
    { intros e He. apply Hl. by right. }
    { intros d Hin. rewrite Ha1, lookup_insert_ne; [apply Hfresh; by right|].
      intros <-. by apply Hnotin. }
    { intros t Hle. rewrite Ht1, lookup_insert_ne by lia. apply Hfree. lia. }
    split_and!.
    + rewrite Hn, Hn1. simpl length. lia.
    + rewrite Hd, Hd1. simpl length. lia.
    + done.
    + intros d Hd'. rewrite Ha by (intros ?; apply Hd'; by right).
      rewrite Ha1, lookup_insert_ne; [done|]. intros <-. apply Hd'. by left.
    + intros t Hlt. rewrite Ht by lia. rewrite Ht1, lookup_insert_ne; [done|lia].
    + intros [|i] d ws Hi; simpl in Hi.
      * injection Hi as <- <-. rewrite N.add_0_r.
        rewrite Ha by done. rewrite Ht by lia.
        rewrite Ha1, Ht1, !lookup_insert_eq. split; [done|]. by exists wc1.
      * destruct (Hat i d ws Hi) as [E1' E2'].
        replace (nextID s + N.of_nat (S i))%N with (nextID s1 + N.of_nat i)%N by lia.
        done.
Qed.

(** The vocabulary loop on words other than ["__proto__"]: [vocab] counts the
    words visited so far and [W] the distinct ones. *)
Lemma count_words_vocab ws : ∀ pre s s0,
  counts_of pre (vocab s) → W s = Z.of_nat (size (vocab s)) →
  "__proto__"%string ∉ ws →
  foldl count_word (Returned s) ws = Returned s0 →
  counts_of (pre ++ ws) (vocab s0) ∧ W s0 = Z.of_nat (size (vocab s0)).
Proof.
  induction ws as [|word rest IH]; intros pre s s0 Hv HW Hp.
  - intros [= <-]. by rewrite app_nil_r.
  - apply not_elem_of_cons in Hp as [Hne Hp].
    simpl. destruct (js_has_own (vocab s) word); [|by rewrite count_words_thrown].
    rewrite (cons_middle word pre rest), app_assoc. apply IH; [| |done].
    + pose proof (counts_of_snoc pre (vocab s) word Hv) as H.
      rewrite (Hv word). case_decide as E; simpl.
      * rewrite js_set_insert by by left. by rewrite E in H.
      * exact H.
    + destruct (vocab s !! word) as [n|] eqn:E; simpl.
      * rewrite map_size_insert_Some; [done|by rewrite E].
      * rewrite js_set_insert by by left.
        rewrite map_size_insert_None by done. lia.
Qed.

Lemma initialize_loop_vocab (l : corpus) : ∀ pre s s',
  counts_of pre (vocab s) → W s = Z.of_nat (size (vocab s)) →
  "__proto__"%string ∉ concat l.*2 →
  foldl initialize_step (Returned s) l = Returned s' →
  counts_of (pre ++ concat l.*2) (vocab s') ∧ W s' = Z.of_nat (size (vocab s')).
Proof.
  induction l as [|[docID words] l IH]; intros pre s s' Hv HW Hp.
  - intros [= <-]. simpl. by rewrite app_nil_r.
  - change (foldl initialize_step (Returned s) ((docID, words) :: l))
      with (foldl initialize_step (initialize_step (Returned s) (docID, words)) l).
    destruct (initialize_step (Returned s) (docID, words)) as [s1|s1] eqn:E1;
      [|by rewrite initialize_loop_thrown].
    simpl in Hp. apply not_elem_of_app in Hp as [Hp1 Hp2].
    apply initialize_step_inv in E1 as (s0 & E0 & _ & _ & _ & _ & _ & _ & E1).
    cbn [fst snd] in E0, E1.
    destruct (count_words_vocab words pre s s0 Hv HW Hp1 E0) as [Hv0 HW0].
    pose proof (add_doc_parameters docID (Words words) (nextID s) s0) as Hpar.
    rewrite E1 in Hpar. simpl in Hpar. destruct Hpar as (_ & HW1 & _ & _ & Hv1).
    simpl. rewrite app_assoc. apply IH; [by rewrite Hv1|by rewrite HW1, Hv1|done].
Qed.
End initialize_layout.

(** X12: [initialize_state] seats every document at a table of its own, in
    corpus order.  On an ordinary corpus (distinct keys, no key and no word
    named ["__proto__"] or ["hasOwnProperty"]) it returns; the state it
    returns has [nextID] and [total_docs] equal to the number of documents,
    and the document at position [i] is assigned table [i], a table that
    holds that document alone: [num_docs] 1, [num_words] its length, and
    word counts that are well formed and count each word as often as it
    occurs in the document. *)
Theorem initialize_state_layout {num} (c : corpus) (alpha0 beta0 : num) :
  ordinary_corpus c →
  ∃ s, initialize_state c alpha0 beta0 = Returned s ∧
       nextID s = N.of_nat (length c) ∧
       total_docs s = Z.of_nat (length c) ∧
       ∀ i d ws, c !! i = Some (d, ws) →
         assignments s !! d = Some (N.of_nat i) ∧
         ∃ wc, tables s !! N.of_nat i = Some (Table 1 (Cnt (Z.of_nat (length ws))) wc) ∧
               wf_counts wc ∧ ∀ w, count_at wc w = Z.of_nat (occurrences w ws).
Proof.
  intros Hord. destruct (initialize_coherent c alpha0 beta0 Hord) as (s & H & _).
  exists s. split; [exact H|]. destruct Hord as [Hnd Hord].
  destruct (initialize_loop_layout c (empty_state alpha0 beta0) s Hnd)
    as (Hn & Hd & _ & _ & _ & Hat); [|done|done|exact H|].
  - intros e He. rewrite Forall_forall in Hord.
    destruct (Hord e He) as [[Hp _] [Hpw _]%ordinary_words]. done.
  - split; [exact Hn|]. split; [exact Hd|]. exact Hat.
Qed.

Lemma initialize_state_layout_witness :
  ordinary_corpus example_corpus ∧
  ∃ s, initialize_state example_corpus 1%R (1/2)%R = Returned s ∧
       nextID s = N.of_nat (length example_corpus).
Proof.
  split; [exact example_corpus_ordinary|].
  destruct (initialize_state_layout example_corpus 1%R (1/2)%R example_corpus_ordinary)
    as (s & H & Hn & _).
  by exists s.
Defined.

(** X13: [initialize_state] computes the vocabulary of the whole corpus.  When
    no word of the corpus is ["__proto__"] (which is counted into [W] at
    every occurrence and never stored) and the call returns, [vocab] holds,
    for each word that occurs in some document, the number of its
    occurrences in all documents together (and no other entry), and [W] is
    the number of distinct words. *)
Theorem initialize_state_vocabulary {num} (c : corpus) (alpha0 beta0 : num)
    (s : state num) :
  "__proto__"%string ∉ concat c.*2 →
  initialize_state c alpha0 beta0 = Returned s →
  (∀ word, vocab s !! word =
           if decide (occurrences word (concat c.*2) = 0%nat) then None
           else Some (Z.of_nat (occurrences word (concat c.*2)))) ∧
  W s = Z.of_nat (size (vocab s)) ∧
  dom (vocab s) = list_to_set (concat c.*2).
Proof.
  intros Hp E.
  destruct (initialize_loop_vocab c [] (empty_state alpha0 beta0) s
              counts_of_nil eq_refl Hp E) as [Hv HW].
  simpl in Hv. split; [exact Hv|]. split; [exact HW|].
  apply set_eq. intros w. rewrite elem_of_dom, elem_of_list_to_set, (Hv w).
  unfold occurrences. case_decide as Hz.
  - split; [by intros [? ?]|]. intros Hin. exfalso.
    apply length_zero_iff_nil in Hz.
    assert (w ∈ filter (λ x, x = w) (concat c.*2)) as Hf
      by (by apply list_elem_of_filter).
    rewrite Hz in Hf. by apply elem_of_nil in Hf.
  - split; [|by eexists]. intros _.
    destruct (filter (λ x, x = w) (concat c.*2)) as [|x l] eqn:Ef; [done|].
    assert (x ∈ filter (λ x, x = w) (concat c.*2)) as Hf by (rewrite Ef; by left).
    apply list_elem_of_filter in Hf as [-> Hin]. done.
Qed.

Lemma initialize_state_vocabulary_witness :
  ("__proto__"%string ∉ concat example_corpus.*2) ∧
  initialize_state example_corpus 1%R (1/2)%R = Returned (example_state 1%R (1/2)%R) ∧
  W (example_state 1%R (1/2)%R) = Z.of_nat (size (vocab (example_state 1%R (1/2)%R))).
Proof.
  assert ("__proto__"%string ∉ concat example_corpus.*2) as Hp.
  { simpl. intros H. repeat (apply elem_of_cons in H as [H|H]; [done|]).
    by apply elem_of_nil in H. }
  split; [exact Hp|]. split; [apply initialize_example|].
  exact (proj1 (proj2 (initialize_state_vocabulary example_corpus 1%R (1/2)%R
                         (example_state 1%R (1/2)%R) Hp (initialize_example _ _)))).
Defined.

(** ** The linear sampler on the reals *)

Section sample_law.
Variable rnd : R → string.
Local Open Scope R_scope.

Lemma sample_walk_law (u S : R) (es : list (N * R)) : ∀ A key,
  (∀ e, e ∈ es → 0 < e.2) →
  A <= u * S → u * S < A + total_weight es →
  ∃ i k w, es !! i = Some (k, w) ∧
           sample_walk (ops := R_Number rnd) es (u * S - A) key = Some k ∧
           A + total_weight (take i es) <= u * S
           ∧ u * S < A + total_weight (take (Datatypes.S i) es).
Proof.
  induction es as [|[k w] rest IH]; intros A key Hpos Hlo Hhi.
  - simpl in Hhi. lra.
  - cbn [sample_walk nsub nlt of_Z R_Number]. unfold R_ltb.
    destruct (Rlt_dec (u * S - A - w) 0) as [Hlt|Hge].
    + exists 0%nat, k, w. simpl. split; [done|]. split; [done|]. lra.
    + destruct (IH (A + w) (Some k)) as (i & k' & w' & Hi & Hw & Hb1 & Hb2).
      * intros e He. apply Hpos. by right.
      * lra.
      * simpl in Hhi. lra.
      * exists (Datatypes.S i), k', w'. split; [done|].
        replace (u * S - A - w) with (u * S - (A + w)) by lra.
        split; [done|]. simpl. simpl in Hb2. lra.
Qed.

(** X14: the linear sampler draws in proportion to the weights.  In exact
    arithmetic, for a non-empty object of positive weights and a draw [u] in
    [0,1), [sample] returns the key whose slice of the cumulative weights, in
    enumeration order, contains [u] times the total weight; a key of weight
    [w] is therefore returned for a set of draws of length [w / total]. *)
Theorem sample_proportional (up : gmap N R) (u : R) :
  (∀ k w, up !! k = Some w → 0 < w) → up ≠ ∅ → 0 <= u < 1 →
  ∃ i k w, js_entries up !! i = Some (k, w) ∧
           sample (ops := R_Number rnd) up u = Some k ∧
           total_weight (take i (js_entries up))
           <= u * total_weight (js_entries up)
           ∧ u * total_weight (js_entries up)
             < total_weight (take (Datatypes.S i) (js_entries up)).
Proof.
  intros Hpos Hne [Hu0 Hu1].
  assert (∀ e, e ∈ js_entries up → 0 < e.2) as Hes.
  { intros [k w] Hin. apply elem_of_js_entries in Hin. by eapply Hpos. }
  assert (js_entries up ≠ []) as Hnil.
  { intros E. by apply Hne, js_entries_nil. }
  pose proof (total_weight_pos _ Hnil Hes) as HS.
  destruct (sample_walk_law u (total_weight (js_entries up)) (js_entries up) 0 None Hes)
    as (i & k & w & Hi & Hw & Hb1 & Hb2); [nra|nra|].
  exists i, k, w. split; [done|]. split; [|lra].
  unfold sample, sample_entries. rewrite sum_total_weight.
  cbn [nmul of_Z R_Number].
  replace (u * (0 + total_weight (js_entries up)))
    with (u * total_weight (js_entries up) - 0) by lra.
  exact Hw.
Qed.
End sample_law.

Lemma sample_proportional_witness :
  let up : gmap N R := {[0%N := 1%R; 1%N := exp 1]} in
  (∀ k w, up !! k = Some w → (0 < w)%R) ∧
  up ≠ ∅ ∧
  (0 <= 1/2 < 1)%R ∧
  ∃ i k w, js_entries up !! i = Some (k, w) ∧
           sample (ops := R_Number integer_numeral) up (1/2)%R = Some k ∧
           (total_weight (take i (js_entries up))
            <= 1/2 * total_weight (js_entries up))%R ∧
           (1/2 * total_weight (js_entries up)
            < total_weight (take (S i) (js_entries up)))%R.
Proof.
  intros up.
  assert (∀ k w, up !! k = Some w → (0 < w)%R) as Hpos.
  { intros k w. apply two_weights_positive; [lra|apply exp_pos]. }
  assert (up ≠ ∅) as Hne by apply insert_non_empty.
  assert (0 <= 1/2 < 1)%R as Hu by lra.
  split; [exact Hpos|]. split; [exact Hne|]. split; [exact Hu|].
  exact (sample_proportional integer_numeral up (1/2)%R Hpos Hne Hu).
Defined.

Lemma total_weight_all_zero (es : list (N * R)) :
  (∀ e, e ∈ es → e.2 = 0%R) → total_weight es = 0%R.
Proof.
  induction es as [|e es IH]; intros Hes; [done|]. simpl.
  rewrite (Hes e) by (by left). rewrite IH; [lra|]. intros; apply Hes. by right.
Qed.

Lemma sample_walk_all_zero (rnd : R → string) (es : list (N * R)) :
  (∀ e, e ∈ es → e.2 = 0%R) →
  ∀ key, sample_walk (ops := R_Number rnd) es 0%R key
         = match last es with Some e => Some e.1 | None => key end.
Proof.
  induction es as [|[k w] es IH]; intros Hes key; [done|].
  assert (w = 0%R) as -> by (apply (Hes (k, w)); by left).
  cbn [sample_walk nsub nlt of_Z R_Number].
  replace (0 - 0)%R with 0%R by lra. unfold R_ltb.
  destruct (Rlt_dec 0 0) as [Hlt|_]; [lra|].
  rewrite IH by (intros; apply Hes; by right).
  destruct es as [|e es']; [done|].
  rewrite (last_cons_cons (k, 0%R) e es').
  by destruct (proj2 (last_is_Some (e :: es'))) as [x ->].
Qed.

(** X15: underflow.  In the arithmetic of the reals, when every weight is
    zero (as when all the probabilities underflow), no test of the walk of
    [sample] succeeds and it returns the last key in enumeration order,
    whatever the draw. *)
Theorem sample_all_zero (rnd : R → string) (up : gmap N R) (u : R) :
  (∀ k w, up !! k = Some w → w = 0%R) →
  sample (ops := R_Number rnd) up u = fst <$> last (js_entries up).
Proof.
  intros Hz. unfold sample, sample_entries.
  assert (∀ e, e ∈ js_entries up → e.2 = 0%R) as Hes.
  { intros [k w] Hin. apply elem_of_js_entries in Hin. by eapply Hz. }
  rewrite sum_total_weight, (total_weight_all_zero _ Hes). cbn [nmul of_Z R_Number].
  replace (u * (0 + 0))%R with 0%R by lra.
  rewrite (sample_walk_all_zero rnd _ Hes). by destruct (last (js_entries up)).
Qed.

Lemma sample_all_zero_witness :
  let up : gmap N R := {[0%N := 0%R; 1%N := 0%R]} in
  (∀ k w, up !! k = Some w → w = 0%R) ∧
  sample (ops := R_Number integer_numeral) up (1/2)%R = fst <$> last (js_entries up).
Proof.
  intros up.
  assert (∀ k w, up !! k = Some w → w = 0%R) as Hz.
  { intros k w. unfold up. destruct (decide (k = 0%N)) as [->|H0].
    - rewrite lookup_insert_eq. by intros [= <-].
    - rewrite lookup_insert_ne by done. destruct (decide (k = 1%N)) as [->|H1].
      + rewrite lookup_singleton_eq. by intros [= <-].
      + by rewrite lookup_singleton_ne. }
  split; [exact Hz|]. exact (sample_all_zero integer_numeral up (1/2)%R Hz).
Defined.

(** ** What a reseat touches *)

Lemma reseats_touches {num} docID (words : words_value) (s s' : state num) :
  reseats docID words s s' →
  ∃ t, assignments s' = js_set docID t (assignments s) ∧
       is_Some (tables s' !! t) ∧
       ∀ t', t' ≠ t → assignments s !! docID ≠ Some t' →
             tables s' !! t' = tables s !! t'.
Proof.
  intros (s1 & t & Hr & Hadd). exists t.
  pose proof (remove_if_seated_assignments _ _ _ _ Hr) as Ha1.
  rewrite (add_doc_assignments _ _ _ _ _ Hadd), Ha1.
  destruct (add_doc_tables _ _ _ _ _ Hadd) as (ws & wc & _ & _ & ->).
  split; [done|]. split; [by rewrite lookup_insert_eq|].
  intros t' Hne Hold. rewrite lookup_insert_ne by done.
  apply remove_if_seated_inv in Hr
    as [_ [[_ ->]|(ws0 & t0 & tb0 & _ & Hd & Ht & ->)]]; [done|].
  assert (t' ≠ t0) as Hne0 by (intros ->; by apply Hold).
  simpl. case_decide; [by rewrite lookup_delete_ne|by rewrite lookup_insert_ne].
Qed.

(** X16: a complete [sample_table] call, of either module and on any state,
    writes [assignments] by the one assignment
    [state.assignments[docID] = tableID] (which changes the entry of the
    document and of no other, and nothing at all for a document named
    ["__proto__"]), seats the document at a table that exists afterwards,
    and leaves every table untouched other than the one the document left
    and the one it joined. *)
Theorem sample_table_touches {num} {ops : Number num}
    (c : corpus) docID random (s s' : state num) :
  Linear.sample_table docID c random s = Returned s' ∨
  Log.sample_table docID c random s = Returned s' →
  ∃ t, assignments s' = js_set docID t (assignments s) ∧
       (∀ d, d ≠ docID → assignments s' !! d = assignments s !! d) ∧
       (docID ≠ "__proto__"%string → assignments s' !! docID = Some t) ∧
       is_Some (tables s' !! t) ∧
       ∀ t', t' ≠ t → assignments s !! docID ≠ Some t' →
             tables s' !! t' = tables s !! t'.
Proof.
  intros H.
  assert (reseats docID (corpus_get c docID) s s') as Hre.
  { destruct H as [H|H];
      [by apply linear_sample_table_reseats in H|by apply log_sample_table_reseats in H]. }
  destruct (reseats_touches _ _ _ _ Hre) as (t & Ha & Ht & Hother).
  exists t. split; [done|]. split; [|split; [|done]].
  - intros d Hne. by rewrite Ha, js_set_lookup_ne.
  - intros Hp. rewrite Ha, js_set_insert by by left. apply lookup_insert_eq.
Qed.

Lemma sample_table_touches_witness :
  let s := example_state 1%R (1/2)%R in
  let s' := final_state (Linear.sample_table (ops := R_Number integer_numeral)
                           "d2" example_corpus (1/3)%R s) in
  (Linear.sample_table (ops := R_Number integer_numeral) "d2" example_corpus (1/3)%R s
   = Returned s' ∨
   Log.sample_table (ops := R_Number integer_numeral) "d2" example_corpus (1/3)%R s
   = Returned s') ∧
  ∃ t, assignments s' = js_set "d2" t (assignments s) ∧
       (∀ d, d ≠ "d2"%string → assignments s' !! d = assignments s !! d) ∧
       (("d2" : string) ≠ "__proto__"%string → assignments s' !! ("d2" : string) = Some t) ∧
       is_Some (tables s' !! t) ∧
       ∀ t', t' ≠ t → assignments s !! ("d2" : string) ≠ Some t' →
             tables s' !! t' = tables s !! t'.
Proof.
  intros s s'.
  assert (Linear.sample_table (ops := R_Number integer_numeral)
            "d2" example_corpus (1/3)%R s = Returned s') as H.
  { apply returned_final_state.
    apply (sample_table_returns (ops := R_Number integer_numeral) example_corpus s
             "d2" (1/3)%R example_corpus_ordinary).
    - apply (reachable_on_corpus_coherent (ops := R_Number integer_numeral)
               example_corpus 1%R (1/2)%R s example_corpus_ordinary).
      apply reach_corpus_init, initialize_example.
    - right. left. }
  split; [by left|].
  exact (sample_table_touches (ops := R_Number integer_numeral)
           example_corpus "d2" (1/3)%R s s' (or_introl H)).
Defined.

(** ** The order of [Array.prototype.sort] *)

Section string_order.

Lemma ascii_compare_refl (a : ascii) : Ascii.compare a a = Eq.
Proof. unfold Ascii.compare. apply N.compare_refl. Qed.

Lemma string_compare_refl (s : string) : String.compare s s = Eq.
Proof. induction s as [|a s IH]; simpl; [done|]. by rewrite ascii_compare_refl. Qed.

Lemma ascii_compare_trans (a b c : ascii) :
  Ascii.compare a b ≠ Gt → Ascii.compare b c ≠ Gt →
  match Ascii.compare a b, Ascii.compare b c with
  | Eq, Eq => Ascii.compare a c = Eq
  | _, _ => Ascii.compare a c = Lt
  end.
Proof.
  unfold Ascii.compare.
  destruct (N.compare_spec (N_of_ascii a) (N_of_ascii b)) as [E1|E1|E1];
    destruct (N.compare_spec (N_of_ascii b) (N_of_ascii c)) as [E2|E2|E2];
    intros H1 H2; try done.
  - apply N.compare_eq_iff. congruence.
  - apply N.compare_lt_iff. by rewrite E1.
  - apply N.compare_lt_iff. by rewrite <- E2.
  - apply N.compare_lt_iff. by etrans.
Qed.

Lemma string_compare_trans (s1 : string) : ∀ s2 s3,
  String.compare s1 s2 ≠ Gt → String.compare s2 s3 ≠ Gt →
  String.compare s1 s3 ≠ Gt.
Proof.
  induction s1 as [|a s1 IH]; intros [|b s2] [|c s3]; simpl; try done.
  intros H1 H2.
  assert (Ascii.compare a b ≠ Gt) as Hab by (by destruct (Ascii.compare a b)).
  assert (Ascii.compare b c ≠ Gt) as Hbc by (by destruct (Ascii.compare b c)).
  pose proof (ascii_compare_trans a b c Hab Hbc) as H.
  destruct (Ascii.compare a b), (Ascii.compare b c); try done;
    rewrite H; try done. by apply (IH s2 s3).
Qed.
End string_order.

Section js_sort_facts.
Context {num : Type} {ops : Number num}.

Lemma not_after_compare x y :
  not_after x y ↔ String.compare (render_entry x) (render_entry y) ≠ Gt.
Proof.
  unfold not_after, entry_before, String.ltb.
  rewrite (String.compare_antisym (render_entry y) (render_entry x)).
  by destruct (String.compare (render_entry x) (render_entry y)).
Qed.

Lemma not_after_refl x : not_after x x.
Proof. apply not_after_compare. by rewrite string_compare_refl. Qed.

Lemma not_after_trans x y z : not_after x y → not_after y z → not_after x z.
Proof. rewrite !not_after_compare. apply string_compare_trans. Qed.

Lemma entry_before_not_after x y : entry_before x y = true → not_after x y.
Proof.
  unfold entry_before, String.ltb. intros H. apply not_after_compare.
  by destruct (String.compare (render_entry x) (render_entry y)).
Qed.

Lemma sort_insert_sorted x l :
  StronglySorted not_after l → StronglySorted not_after (sort_insert x l).
Proof.
  induction 1 as [|y l Hl IH Hy]; simpl.
  - by repeat constructor.
  - destruct (entry_before y x) eqn:E.
    + constructor; [done|]. rewrite sort_insert_perm.
      constructor; [by apply entry_before_not_after|done].
    + constructor; [by constructor|]. constructor; [done|].
      eapply Forall_impl; [exact Hy|]. intros z Hz. by eapply not_after_trans.
Qed.

Lemma js_sort_sorted l : StronglySorted not_after (js_sort l).
Proof.
  induction l as [|x l IH]; simpl; [constructor|]. by apply sort_insert_sorted.
Qed.

(** X17: what [log_sample] binds to [max].  For a non-empty array it is the
    weight of an element whose string conversion ("weight,id") no other
    element's conversion precedes, in the code-unit order of strings: the
    least element of the array as strings, not the numeric maximum. *)
Theorem log_sample_max_least (l : list (num * N)) (max : num) :
  log_sample_max l = Some max →
  ∃ t, (max, t) ∈ l ∧ ∀ e, e ∈ l → entry_before e (max, t) = false.
Proof.
  unfold log_sample_max. pose proof (js_sort_sorted l) as Hs.
  pose proof (js_sort_perm l) as Hp.
  destruct (js_sort l) as [|[m t] rest]; [done|]. intros [= <-].
  apply StronglySorted_inv in Hs as [_ Hhd].
  exists t. split; [rewrite <- Hp; by left|].
  intros e He. rewrite <- Hp in He. apply elem_of_cons in He as [->|He].
  - apply not_after_refl.
  - rewrite Forall_forall in Hhd. by apply Hhd.
Qed.
End js_sort_facts.

Lemma log_sample_max_least_witness :
  log_sample_max (ops := R_Number integer_numeral) [((-9)%R, 0%N); ((-10)%R, 1%N)]
  = Some (-10)%R ∧
  ∃ t, ((-10)%R, t) ∈ [((-9)%R, 0%N); ((-10)%R, 1%N)] ∧
       ∀ e, e ∈ [((-9)%R, 0%N); ((-10)%R, 1%N)] →
            entry_before (ops := R_Number integer_numeral) e ((-10)%R, t) = false.
Proof.
  assert (log_sample_max (ops := R_Number integer_numeral)
            [((-9)%R, 0%N); ((-10)%R, 1%N)] = Some (-10)%R) as H.
  { apply (log_sample_max_two (ops := R_Number integer_numeral)
             ((-9)%R, 0%N) ((-10)%R, 1%N)).
    rewrite entry_before_integer. vm_compute. reflexivity. }
  split; [exact H|].
  exact (log_sample_max_least (ops := R_Number integer_numeral) _ _ H).
Defined.

(** ** The priors of a round of [sample_CRP] *)

Section crp_priors.
Variable rnd : R → string.
Local Open Scope R_scope.

Lemma total_weight_perm (es es' : list (N * R)) :
  es ≡ₚ es' → total_weight es = total_weight es'.
Proof. induction 1; simpl; lra. Qed.

Lemma total_weight_insert (m : gmap N R) k w :
  m !! k = None →
  total_weight (js_entries (<[k := w]> m)) = w + total_weight (js_entries m).
Proof.
  intros Hk.
  rewrite (total_weight_perm (js_entries (<[k := w]> m)) ((k, w) :: js_entries m));
    [done|].
  rewrite !js_entries_perm. by apply map_to_list_insert.
Qed.

Lemma occupied_priors_sum (total : Z) (alpha : R) (counts : gmap N Z) :
  (∀ t c, counts !! t = Some c → c ≠ 0%Z) →
  total_weight
    (js_entries ((λ c, prob_of_table (ops := R_Number rnd) c total alpha) <$> counts))
  = IZR (customers counts) / (IZR total + alpha).
Proof.
  induction counts as [|t c counts Ht IH] using map_ind; intros Hc.
  - rewrite fmap_empty. unfold customers. rewrite map_fold_empty.
    unfold js_entries. rewrite map_to_list_empty. simpl. unfold Rdiv. lra.
  - rewrite fmap_insert, total_weight_insert by (by rewrite lookup_fmap, Ht).
    rewrite IH.
    + unfold customers at 2. rewrite map_fold_insert_L; [|intros; lia|done].
      fold (customers counts). rewrite plus_IZR.
      unfold prob_of_table.
      rewrite bool_decide_eq_true_2 by (apply (Hc t); apply lookup_insert_eq).
      simpl. unfold Rdiv. lra.
    + intros t' c' E. apply (Hc t'). rewrite lookup_insert_ne; [done|]. congruence.
Qed.

Lemma table_probs_sum (i : nat) (alpha : R) (counts : gmap N Z) :
  crp_rounds_ok i counts → 0 < alpha →
  total_weight
    (js_entries (table_probs (ops := R_Number rnd) counts (N.of_nat i) alpha)) = 1.
Proof.
  intros [Hsum Hc] Halpha. unfold table_probs.
  rewrite total_weight_insert.
  - rewrite occupied_priors_sum by (intros t c E; destruct (Hc t c E); lia).
    rewrite Hsum. unfold prob_of_table. rewrite bool_decide_eq_false_2 by (intros H; by apply H).
    cbn [ndiv nadd of_Z R_Number]. rewrite nat_N_Z.
    assert (0 <= IZR (Z.of_nat i)) by (apply IZR_le; lia).
    field. lra.
  - rewrite lookup_fmap. destruct (counts !! N.of_nat i) as [c|] eqn:E; [|done].
    destruct (Hc _ _ E). lia.
Qed.
End crp_priors.

(** X18: the priors that a round of [sample_CRP] samples from form a
    probability distribution.  In exact arithmetic and for [alpha > 0], when
    [counts] seats [i] customers at non-empty tables numbered below [i] (as it
    does when round [i] starts), the entries of [table_probs] add up to 1. *)
Theorem table_probs_normalized (rnd : R → string) (i : nat) (alpha : R)
    (counts : gmap N Z) :
  customers counts = Z.of_nat i →
  (∀ t c, counts !! t = Some c → 1 ≤ c ∧ (t < N.of_nat i)%N) →
  (0 < alpha)%R →
  total_weight
    (js_entries (table_probs (ops := R_Number rnd) counts (N.of_nat i) alpha)) = 1%R.
Proof. intros Hsum Hc. by apply table_probs_sum. Qed.

Lemma table_probs_normalized_witness :
  customers {[0%N := 2]} = Z.of_nat 2 ∧
  (∀ t c, ({[0%N := 2]} : gmap N Z) !! t = Some c → 1 ≤ c ∧ (t < N.of_nat 2)%N) ∧
  (0 < 1)%R ∧
  total_weight
    (js_entries (table_probs (ops := R_Number integer_numeral)
                   {[0%N := 2]} (N.of_nat 2) 1%R)) = 1%R.
Proof.
  assert (customers {[0%N := 2]} = Z.of_nat 2) as Hsum by reflexivity.
  assert (∀ t c, ({[0%N := 2]} : gmap N Z) !! t = Some c → 1 ≤ c ∧ (t < N.of_nat 2)%N)
    as Hc.
  { intros t c. destruct (decide (t = 0%N)) as [->|Hne].
    - rewrite lookup_singleton_eq. intros [= <-]. split; lia.
    - by rewrite lookup_singleton_ne. }
  assert (0 < 1)%R as Ha by lra.
  split; [exact Hsum|]. split; [exact Hc|]. split; [exact Ha|].
  exact (table_probs_normalized integer_numeral 2 1%R {[0%N := 2]} Hsum Hc Ha).
Defined.

(** ** The two forms of the word likelihood *)

Section likelihood_forms.
Variable rnd : R → string.
Local Open Scope R_scope.

Lemma table_count_nonneg (wc : gmap string count) word cnt :
  wf_counts wc → table_count (ops := R_Number rnd) wc word = Some cnt → 0 <= cnt.
Proof.
  intros Hwf. unfold table_count. destruct (js_has_own wc word); [|done].
  intros [= <-]. destruct (wc !! word) as [c|] eqn:E; simpl; [|lra].
  destruct (Hwf _ _ E) as (z & -> & Hz). simpl. apply IZR_le. lia.
Qed.

Lemma word_ratio_pos local_count cnt j word_total beta W :
  (0 ≤ local_count)%Z → 0 <= cnt → (0 ≤ j)%Z → (0 ≤ word_total)%Z →
  0 < beta → (1 ≤ W)%Z →
  0 < word_ratio (ops := R_Number rnd) local_count cnt j (Cnt word_total) beta W.
Proof.
  intros Hl Hc Hj Ht Hb HW. unfold word_ratio.
  cbn [ndiv nadd nmul of_Z of_count R_Number].
  assert (0 <= IZR local_count) by (by apply IZR_le).
  assert (0 <= IZR j) by (by apply IZR_le).
  assert (0 <= IZR word_total) by (by apply IZR_le).
  assert (1 <= IZR W) by (by apply IZR_le).
  apply Rdiv_lt_0_compat; nra.
Qed.

Lemma bump_local_nonneg (lc : gmap string Z) word n lc' :
  (∀ w z, lc !! w = Some z → (0 ≤ z)%Z) →
  bump_local lc word = Some (n, lc') →
  (0 ≤ n)%Z ∧ ∀ w z, lc' !! w = Some z → (0 ≤ z)%Z.
Proof.
  intros Hlc. unfold bump_local. destruct (js_has_own lc word); [|done].
  destruct (lc !! word) as [m|] eqn:E; intros [= <- <-].
  - pose proof (Hlc _ _ E). split; [done|]. intros w z.
    destruct (decide (w = word)) as [->|Hne].
    + rewrite lookup_insert_eq. intros [= <-]. lia.
    + rewrite lookup_insert_ne by done. apply Hlc.
  - split; [done|]. intros w z. destruct (decide (w = word)) as [->|Hne].
    + rewrite js_set_lookup. case_decide; [done|]. intros [= <-]. lia.
    + rewrite js_set_lookup_ne by done. apply Hlc.
Qed.

(** The two loops throw at the same word; where they return, the linear
    result is positive and the log result is its logarithm. *)
Lemma likelihood_loops (ws : list string) (wc : gmap string count)
    (word_total : Z) (beta : R) (W : Z) :
  wf_counts wc → (0 ≤ word_total)%Z → 0 < beta → (1 ≤ W)%Z →
  ∀ j lc p,
  (0 ≤ j)%Z → (∀ w z, lc !! w = Some z → (0 ≤ z)%Z) → 0 < p →
  match prob_loop (ops := R_Number rnd) ws wc (Cnt word_total) beta W j lc p with
  | Some q =>
      0 < q ∧
      log_prob_loop (ops := R_Number rnd) ws wc (Cnt word_total) beta W j lc (ln p)
      = Some (ln q)
  | None =>
      log_prob_loop (ops := R_Number rnd) ws wc (Cnt word_total) beta W j lc (ln p) = None
  end.
Proof.
  intros Hwf Ht Hb HW. induction ws as [|word rest IH]; intros j lc p Hj Hlc Hp; [done|].
  simpl.
  destruct (table_count (ops := R_Number rnd) wc word) as [cnt|] eqn:Ec; [|done].
  simpl.
  destruct (bump_local lc word) as [[local_count lc']|] eqn:E; [|done]. simpl.
  destruct (bump_local_nonneg lc word _ _ Hlc E) as [Hl Hlc'].
  pose proof (word_ratio_pos local_count cnt j word_total beta W Hl
                (table_count_nonneg wc word cnt Hwf Ec) Hj Ht Hb HW) as Hr.
  cbn [nmul nadd nlog R_Number].
  rewrite <- ln_mult by done.
  apply IH; [lia|done|by apply Rmult_lt_0_compat].
Qed.
End likelihood_forms.

(** X19: the log form of the word likelihood is the logarithm of the linear
    form.  In exact arithmetic, for [beta > 0], a vocabulary of at least one
    word, a non-negative word total and well-formed word counts, the two
    forms throw on the same documents, and where they return the linear
    likelihood is positive and the log likelihood is its natural logarithm.
    They do return when neither the table nor the document has the word
    ["hasOwnProperty"]. *)
Theorem log_likelihood_is_log_of_likelihood (rnd : R → string) (ws : list string)
    (wc : gmap string count) (word_total : Z) (beta : R) (W : Z) :
  wf_counts wc → 0 ≤ word_total → (0 < beta)%R → 1 ≤ W →
  match prob_of_words_given_table (ops := R_Number rnd) (Words ws) wc (Cnt word_total)
          beta W with
  | Some p =>
      (0 < p)%R ∧
      log_prob_words_given_table (ops := R_Number rnd) (Words ws) wc (Cnt word_total)
        beta W
      = Some (ln p)
  | None =>
      log_prob_words_given_table (ops := R_Number rnd) (Words ws) wc (Cnt word_total)
        beta W
      = None
  end ∧
  (wc !! "hasOwnProperty"%string = None → "hasOwnProperty"%string ∉ ws →
   is_Some (prob_of_words_given_table (ops := R_Number rnd) (Words ws) wc
              (Cnt word_total) beta W)).
Proof.
  intros Hwf Ht Hb HW. split.
  - unfold prob_of_words_given_table, log_prob_words_given_table.
    cbn [words_visited mbind option_bind of_Z R_Number].
    pose proof (likelihood_loops rnd ws wc word_total beta W Hwf Ht Hb HW 0 ∅ 1%R)
      as H.
    rewrite ln_1 in H. apply H; [done|by intros w z; rewrite lookup_empty|lra].
  - intros Hwc Hn.
    by apply (prob_of_words_defined (ops := R_Number rnd) (Words ws) ws).
Qed.

Lemma log_likelihood_is_log_of_likelihood_witness :
  wf_counts {["a" := Cnt 2]} ∧ 0 ≤ 2 ∧ (0 < 1/2)%R ∧ 1 ≤ 2 ∧
  is_Some (prob_of_words_given_table (ops := R_Number integer_numeral)
             (Words ["a"; "b"]) {["a" := Cnt 2]} (Cnt 2) (1/2)%R 2) ∧
  match prob_of_words_given_table (ops := R_Number integer_numeral)
          (Words ["a"; "b"]) {["a" := Cnt 2]} (Cnt 2) (1/2)%R 2 with
  | Some p =>
      (0 < p)%R ∧
      log_prob_words_given_table (ops := R_Number integer_numeral)
        (Words ["a"; "b"]) {["a" := Cnt 2]} (Cnt 2) (1/2)%R 2
      = Some (ln p)
  | None =>
      log_prob_words_given_table (ops := R_Number integer_numeral)
        (Words ["a"; "b"]) {["a" := Cnt 2]} (Cnt 2) (1/2)%R 2
      = None
  end.
Proof.
  assert (0 ≤ 2) as H1 by lia. assert (0 < 1/2)%R as H2 by lra.
  assert (1 ≤ 2) as H3 by lia.
  split; [exact wf_counts_a2|]. split; [exact H1|]. split; [exact H2|].
  split; [exact H3|].
  split.
  - exact (proj2 (log_likelihood_is_log_of_likelihood integer_numeral ["a"; "b"]
                    {["a" := Cnt 2]} 2 (1/2)%R 2 wf_counts_a2 H1 H2 H3)
                 eq_refl not_elem_of_a_b).
  - exact (proj1 (log_likelihood_is_log_of_likelihood integer_numeral ["a"; "b"]
                    {["a" := Cnt 2]} 2 (1/2)%R 2 wf_counts_a2 H1 H2 H3)).
Defined.

(** ** Documents and words named after properties of [Object.prototype] *)

Section inherited_names.
Context {num : Type} {ops : Number num}.

Lemma initialize_state_method_word_aux docID word rest (c : corpus) (alpha0 beta0 : num) :
  initialize_state ((docID, "hasOwnProperty"%string :: word :: rest) :: c) alpha0 beta0
  = Thrown (State ∅ ∅ 0 0%N 1 alpha0 beta0 {["hasOwnProperty"%string := 1]}).
Proof.
  unfold initialize_state.
  change (foldl initialize_step (Returned (empty_state alpha0 beta0))
            ((docID, "hasOwnProperty"%string :: word :: rest) :: c))
    with (foldl initialize_step
            (initialize_step (Returned (empty_state alpha0 beta0))
               (docID, "hasOwnProperty"%string :: word :: rest)) c).
  assert (initialize_step (Returned (empty_state alpha0 beta0))
            (docID, "hasOwnProperty"%string :: word :: rest)
          = Thrown (State ∅ ∅ 0 0%N 1 alpha0 beta0 {["hasOwnProperty"%string := 1]})) as ->.
  { unfold initialize_step, count_vocab. cbn [obind fst snd foldl].
    change (count_word (Returned (empty_state alpha0 beta0)) "hasOwnProperty")
      with (Returned (State ∅ ∅ 0 0%N 1 alpha0 beta0 {["hasOwnProperty"%string := 1]})).
    assert (count_word
              (Returned (State ∅ ∅ 0 0%N 1 alpha0 beta0 {["hasOwnProperty"%string := 1]}))
              word
            = Thrown (State ∅ ∅ 0 0%N 1 alpha0 beta0 {["hasOwnProperty"%string := 1]}))
      as -> by reflexivity.
    by rewrite count_words_thrown. }
  apply initialize_loop_thrown.
Qed.


(** A corpus whose last word is ["hasOwnProperty"], and the state
    [initialize_state] builds for it. *)
Lemma initialize_method_last (alpha0 beta0 : num) :
  initialize_state [("d1", ["a"]); ("d2", ["hasOwnProperty"])]%string alpha0 beta0
  = Returned
      (State {["d1" := 0%N; "d2" := 1%N]}
             {[0%N := Table 1 (Cnt 1) {["a" := Cnt 1]};
               1%N := Table 1 (Cnt 1) {["hasOwnProperty" := Cnt 1]}]}
             2 2%N 2 alpha0 beta0 {["a" := 1; "hasOwnProperty" := 1]}).
Proof. vm_compute. reflexivity. Qed.

(** X21: a [sample_table] call can throw after it has written.  On the corpus
    [{"d1": ["a"], "d2": ["hasOwnProperty"]}], which [initialize_state]
    accepts, reseating "d1" removes it from its table, which is deleted, and
    then throws in the likelihood of the table of "d2", whose word counts
    shadow the method: the state is left with "d1" assigned to a table that
    no longer exists.  Both modules do so, whatever the draw. *)
Theorem sample_table_throws_after_remove (alpha0 beta0 random : num) :
  let c : corpus := [("d1", ["a"]); ("d2", ["hasOwnProperty"])]%string in
  ∃ s0 s1,
    initialize_state c alpha0 beta0 = Returned s0 ∧
    is_Some (tables s0 !! 0%N) ∧
    Linear.sample_table "d1" c random s0 = Thrown s1 ∧
    Log.sample_table "d1" c random s0 = Thrown s1 ∧
    assignments s1 !! "d1"%string = Some 0%N ∧
    tables s1 !! 0%N = None.
Proof.
  intros c. eexists _, _. split; [apply initialize_method_last|].
  split; [by eexists|]. split; [by vm_compute|]. split; [by vm_compute|].
  split; reflexivity.
Qed.

Lemma reseat_proto_example (alpha0 beta0 random : num) :
  let s := example_state alpha0 beta0 in
  corpus_get example_corpus "__proto__" = NoLength ∧
  (∃ s1 t tb, Linear.sample_table "__proto__" example_corpus random s = Returned s1 ∧
              assignments s1 = assignments s ∧ total_docs s1 = 3 ∧
              tables s1 !! t = Some tb ∧ num_words tb = NaN) ∧
  (∃ s1 t tb, Log.sample_table "__proto__" example_corpus random s = Returned s1 ∧
              assignments s1 = assignments s ∧ total_docs s1 = 3 ∧
              tables s1 !! t = Some tb ∧ num_words tb = NaN).
Proof.
  intros s. split; [reflexivity|].
  destruct (example_state_intact alpha0 beta0) as [Hint _].
  assert (remove_if_seated "__proto__" (corpus_get example_corpus "__proto__") s
          = Returned s) as Hr by (vm_compute; reflexivity).
  assert ("hasOwnProperty"%string ∉ ([] : list string)) as Hn by apply not_elem_of_nil.
  assert (∀ t s1, add_doc "__proto__" (corpus_get example_corpus "__proto__") t s
                  = Returned s1 →
                  ∃ tb, assignments s1 = assignments s ∧ total_docs s1 = 3 ∧
                        tables s1 !! t = Some tb ∧ num_words tb = NaN) as Hadd.
  { intros t s1 H.
    destruct (add_doc_tables _ _ _ _ _ H) as (ws & wc & _ & _ & Ht).
    eexists. split_and!.
    - rewrite (add_doc_assignments _ _ _ _ _ H). by apply js_set_ignored.
    - by rewrite (add_doc_total_docs _ _ _ _ _ H).
    - rewrite Ht. apply lookup_insert_eq.
    - simpl. by destruct (num_words _). }
  split.
  - destruct (linear_sample_table_adds "__proto__" example_corpus random _ [] _
                eq_refl Hn Hr Hint) as (t & _ & ->).
    destruct (add_doc_returns_intact "__proto__" (corpus_get example_corpus "__proto__") []
                t s eq_refl Hn Hint) as [s1 E].
    destruct (Hadd t s1 E) as (tb & ? & ? & ? & ?). by exists s1, t, tb.
  - destruct (log_sample_table_adds "__proto__" example_corpus random _ [] _
                eq_refl Hn Hr Hint) as (t & _ & ->).
    destruct (add_doc_returns_intact "__proto__" (corpus_get example_corpus "__proto__") []
                t s eq_refl Hn Hint) as [s1 E].
    destruct (Hadd t s1 E) as (tb & ? & ? & ? & ?). by exists s1, t, tb.
Qed.

(** X22: reseating the name ["__proto__"] on the example.  It is no entry of
    the corpus, so [corpus["__proto__"]] is [Object.prototype], an object
    without a [length]: no loop runs, the call returns, the assignment
    [state.assignments["__proto__"] = tableID] is ignored, and the table
    picked is left with one document more and with [num_words] NaN, while
    [total_docs] goes from 2 to 3.  Both modules do so, whatever the
    arithmetic, the parameters and the draw. *)
Theorem sample_table_proto (alpha0 beta0 random : num) :
  let s := example_state alpha0 beta0 in
  corpus_own example_corpus "__proto__" = None ∧
  (∃ s1 t tb, Linear.sample_table "__proto__" example_corpus random s = Returned s1 ∧
              assignments s1 = assignments s ∧ total_docs s1 = 3 ∧
              tables s1 !! t = Some tb ∧ num_words tb = NaN) ∧
  (∃ s1 t tb, Log.sample_table "__proto__" example_corpus random s = Returned s1 ∧
              assignments s1 = assignments s ∧ total_docs s1 = 3 ∧
              tables s1 !! t = Some tb ∧ num_words tb = NaN).
Proof. intros s. split; [reflexivity|]. apply reseat_proto_example. Qed.
End inherited_names.

